(** * color-engine: palette derivation pipeline of [main.py]

    A shallow embedding of the colour-space conversions, the harmony
    generator, the HSL adjuster and [generate_palette], followed by the
    properties of the specification that are settled on it.

    Python values are modelled as the interpreter has them:
    - [int] is [Z] (unbounded), [float] is the kernel's binary64
      [PrimFloat.float], and a number that may be either is [num];
    - [str] is [string]; a character is one code point below 256;
    - a [dict] is an insertion-ordered association list with unique-key
      update ([dict_set]), lookups raising [KeyError];
    - exceptions are the [Err] branch of [result]. *)

From Stdlib Require Import ZArith Lia List String Ascii Bool.
From Stdlib Require Import Floats.
From Stdlib Require Import Reals Lra.
From Stdlib Require Uint63.
Import ListNotations.

Local Open Scope string_scope.
Local Open Scope Z_scope.

(* Decimal float literals are written as Python prints them. *)
Set Warnings "-inexact-float".

(** ** Exceptions *)

(** A subscript: dictionaries are indexed by strings, lists by integers. *)
Inductive pykey : Type :=
| StrKey (s : string)
| IntKey (i : Z).

Inductive exn : Type :=
| ValueError
| KeyError (key : pykey)
| IndexError
| OverflowError
| ZeroDivisionError.

Inductive result (A : Type) : Type :=
| Ok (a : A)
| Err (e : exn).

Arguments Ok {A} a.
Arguments Err {A} e.

Definition bind {A B : Type} (r : result A) (k : A -> result B) : result B :=
  match r with
  | Ok a => k a
  | Err e => Err e
  end.

Notation "x <- c1 ;; c2" := (bind c1 (fun x => c2))
  (at level 61, c1 at next level, right associativity).
Notation "' pat <- c1 ;; c2" := (bind c1 (fun x => match x with pat => c2 end))
  (at level 61, pat pattern, c1 at next level, right associativity).

Definition is_ok {A : Type} (r : result A) : bool :=
  match r with Ok _ => true | Err _ => false end.

(** ** Numbers *)

Module Num.

(** A Python number as this program meets them. *)
Inductive num : Type :=
| Int (z : Z)
| Flt (f : float).

(** [float(z)]: the nearest binary64, ties to even; [OverflowError] when the
    integer is out of the range of a double. *)
Definition int_to_float (z : Z) : result float :=
  match binary_normalize prec emax z 0 false with
  | S754_infinity _ => Err OverflowError
  | sf => Ok (SF2Prim sf)
  end.

Definition to_float (a : num) : result float :=
  match a with
  | Int z => int_to_float z
  | Flt f => Ok f
  end.

(** C's [fmod] on doubles, computed exactly on mantissas and exponents:
    the remainder [r * 2^e] is below both operands in magnitude and is a
    double; it takes the sign of [x]. *)
Definition fmod (x y : float) : float :=
  match Prim2SF x, Prim2SF y with
  | S754_nan, _ | _, S754_nan => nan
  | S754_infinity _, _ => nan
  | _, S754_zero _ => nan
  | S754_zero _, _ => x
  | S754_finite _ _ _, S754_infinity _ => x
  | S754_finite sx mx ex, S754_finite _ my ey =>
      let e := Z.min ex ey in
      let r := (Zpos mx * 2 ^ (ex - e)) mod (Zpos my * 2 ^ (ey - e)) in
      if r =? 0 then (if sx then neg_zero else zero)
      else
        let f := Z.ldexp (of_uint63 (Uint63Axioms.of_Z r)) e in
        if sx then (- f)%float else f
  end.

(** [float.__mod__]: the remainder takes the sign of the divisor. *)
Definition float_rem (vx wx : float) : result float :=
  if (wx =? 0)%float then Err ZeroDivisionError
  else
    let m := fmod vx wx in
    if (m =? 0)%float then Ok (if get_sign wx then neg_zero else zero)
    else if xorb (wx <? 0)%float (m <? 0)%float then Ok (m + wx)%float
    else Ok m.

Definition float_div (x y : float) : result float :=
  if (y =? 0)%float then Err ZeroDivisionError else Ok (x / y)%float.

(** [int(x)] on a float: truncation toward zero. *)
Definition float_to_int (x : float) : result Z :=
  match Prim2SF x with
  | S754_nan => Err ValueError
  | S754_infinity _ => Err OverflowError
  | S754_zero _ => Ok 0
  | S754_finite s m e =>
      let a := if 0 <=? e then Zpos m * 2 ^ e else Zpos m / 2 ^ (- e) in
      Ok (if s then - a else a)
  end.

(** Exact three-way comparison of a float with an integer, as
    [float_richcompare] does it; [None] on NaN. *)
Definition cmp_float_int (f : float) (z : Z) : option comparison :=
  match Prim2SF f with
  | S754_nan => None
  | S754_infinity s => Some (if s then Lt else Gt)
  | S754_zero _ => Some (0 ?= z)
  | S754_finite s m e =>
      let v := if s then Zneg m else Zpos m in
      Some (if 0 <=? e then v * 2 ^ e ?= z else v ?= z * 2 ^ (- e))
  end.

(** [a < b] *)
Definition lt (a b : num) : bool :=
  match a, b with
  | Int x, Int y => x <? y
  | Flt x, Flt y => (x <? y)%float
  | Flt x, Int y => match cmp_float_int x y with Some Lt => true | _ => false end
  | Int x, Flt y => match cmp_float_int y x with Some Gt => true | _ => false end
  end.

(** [a > b] *)
Definition gt (a b : num) : bool := lt b a.

(** [a + b], [a - b], [a * b] with the usual int-to-float coercion. *)
Definition arith (fz : Z -> Z -> Z) (ff : float -> float -> float)
    (a b : num) : result num :=
  match a, b with
  | Int x, Int y => Ok (Int (fz x y))
  | _, _ =>
      x <- to_float a ;;
      y <- to_float b ;;
      Ok (Flt (ff x y))
  end.

Definition add := arith Z.add PrimFloat.add.
Definition sub := arith Z.sub PrimFloat.sub.
Definition mul := arith Z.mul PrimFloat.mul.

(** [a % b] *)
Definition rem (a b : num) : result num :=
  match a, b with
  | Int x, Int y =>
      if y =? 0 then Err ZeroDivisionError else Ok (Int (x mod y))
  | _, _ =>
      x <- to_float a ;;
      y <- to_float b ;;
      r <- float_rem x y ;;
      Ok (Flt r)
  end.

(** [a / b], true division; this program only divides by float literals. *)
Definition div (a : num) (b : float) : result float :=
  x <- to_float a ;;
  float_div x b.

(** [min(a, b)] and [max(a, b)] keep the first argument unless the second
    is strictly smaller (larger). *)
Definition min2 (a b : num) : num := if lt b a then b else a.
Definition max2 (a b : num) : num := if gt b a then b else a.

End Num.

Import Num.

(** ** Strings: slicing, [int(s, 16)] and the [02x] format

    A [str] is a [string] of 8-bit characters here: the strings of code
    points below 256, which hold every HexColor and everything [rgb_to_hex]
    writes. Strings with a code point from U+0100 on are not represented;
    on them [int] also reads the decimal digits and the white space of
    other scripts, which it first rewrites to their ASCII counterparts. *)

Module Str.

Fixpoint drop (n : nat) (s : string) : string :=
  match n, s with
  | S n', String _ s' => drop n' s'
  | _, _ => s
  end.

Fixpoint take (n : nat) (s : string) : string :=
  match n, s with
  | S n', String c s' => String c (take n' s')
  | _, _ => ""
  end.

(** [s[i:j]] for [0 <= i <= j]: clipped at the end of the string. *)
Definition slice (s : string) (i j : nat) : string := take (j - i) (drop i s).

(** Value of one base-16 digit. *)
Definition hex_digit (c : ascii) : option Z :=
  let n := Z.of_nat (nat_of_ascii c) in
  if (48 <=? n) && (n <=? 57) then Some (n - 48)
  else if (97 <=? n) && (n <=? 102) then Some (n - 87)
  else if (65 <=? n) && (n <=? 70) then Some (n - 55)
  else None.

(** White space that [int] strips: tab, LF, VT, FF, CR and space, and the
    two code points below 256 that the interpreter first rewrites to a
    space (U+0085 and U+00A0). *)
Definition is_space (c : ascii) : bool :=
  let n := Z.of_nat (nat_of_ascii c) in
  ((9 <=? n) && (n <=? 13)) || (n =? 32) || (n =? 133) || (n =? 160).

Fixpoint skip_space (s : string) : string :=
  match s with
  | String c s' => if is_space c then skip_space s' else s
  | EmptyString => s
  end.

(** The digits of the literal: hex digits, single underscores allowed
    between two digits. [seen] tells whether a digit was read, [us] whether
    the previous character was an underscore. Returns the value and the
    unread rest. *)
Fixpoint digits16 (s : string) (acc : Z) (seen us : bool) : option (Z * string) :=
  match s with
  | String c s' =>
      match hex_digit c with
      | Some d => digits16 s' (16 * acc + d) true false
      | None =>
          if Ascii.eqb c "_"
          then (if us || negb seen then None else digits16 s' acc seen true)
          else if us || negb seen then None else Some (acc, s)
      end
  | EmptyString => if us || negb seen then None else Some (acc, s)
  end.

(** The optional [0x] / [0X] prefix, with the one underscore that may
    follow it. *)
Definition skip_prefix16 (s : string) : string :=
  match s with
  | String "0" (String x s') =>
      if Ascii.eqb x "x" || Ascii.eqb x "X"
      then match s' with
           | String "_" s'' => s''
           | _ => s'
           end
      else s
  | _ => s
  end.

(** [int(s, 16)] as [hex_to_rgb] calls it, on a slice of at most two
    characters below U+0100: white space stripped at both ends, an optional
    sign, an optional [0x] prefix, then base-16 digits with single
    underscores between them; [ValueError] on anything else. *)
Definition int16 (s : string) : result Z :=
  let s1 := skip_space s in
  let '(neg, s2) :=
    match s1 with
    | String "+" r => (false, r)
    | String "-" r => (true, r)
    | _ => (false, s1)
    end in
  match digits16 (skip_prefix16 s2) 0 false false with
  | Some (v, rest) =>
      match skip_space rest with
      | EmptyString => Ok (if neg then - v else v)
      | _ => Err ValueError
      end
  | None => Err ValueError
  end.

Definition hex_char (d : Z) : ascii :=
  ascii_of_nat (Z.to_nat (if d <? 10 then 48 + d else 87 + d)).

(** Lowercase base-16 digits of [n >= 0], most significant first. *)
Fixpoint hex_of (fuel : nat) (n : Z) (acc : string) : string :=
  match fuel with
  | O => acc
  | S fuel' =>
      if n <? 16 then String (hex_char n) acc
      else hex_of fuel' (n / 16) (String (hex_char (n mod 16)) acc)
  end.

Definition hex (n : Z) : string := hex_of (S (Z.to_nat (Z.log2 n))) n "".

(** [format(v, "02x")]: sign first, then zeros up to a total width of 2. *)
Definition fmt02x (v : Z) : string :=
  let digits := hex (Z.abs v) in
  let sign := if v <? 0 then "-" else "" in
  let pad := if (String.length sign + String.length digits <? 2)%nat then "0" else "" in
  sign ++ pad ++ digits.

End Str.

(** ** ColorSpace *)

Definition rgb : Type := Z * Z * Z.
Definition hsl : Type := num * num * num.

(** [hex_to_rgb]: the three slices [s[1:3]], [s[3:5]], [s[5:7]] read in
    base 16; character 0 and anything from index 7 on are never looked at. *)
Definition hex_to_rgb (hex_color : string) : result rgb :=
  r <- Str.int16 (Str.slice hex_color 1 3) ;;
  g <- Str.int16 (Str.slice hex_color 3 5) ;;
  b <- Str.int16 (Str.slice hex_color 5 7) ;;
  Ok (r, g, b).

Definition rgb_to_hex (c : rgb) : string :=
  let '(r, g, b) := c in
  "#" ++ Str.fmt02x r ++ Str.fmt02x g ++ Str.fmt02x b.

(** *** The [colorsys] module on floats (CPython 3.12 and later; earlier
    releases compute the same saturation as [rangec / (2.0 - sumc)]). *)

Module Colorsys.

Local Open Scope float_scope.

Definition ONE_THIRD : float := 1 / 3.
Definition ONE_SIXTH : float := 1 / 6.
Definition TWO_THIRD : float := 2 / 3.

(** [max(r, g, b)] and [min(r, g, b)]: the first extremal argument. *)
Definition max3 (r g b : float) : float :=
  let m := if r <? g then g else r in
  if m <? b then b else m.

Definition min3 (r g b : float) : float :=
  let m := if g <? r then g else r in
  if b <? m then b else m.

Definition rgb_to_hls (r g b : float) : result (float * float * float) :=
  let maxc := max3 r g b in
  let minc := min3 r g b in
  let sumc := maxc + minc in
  let rangec := maxc - minc in
  let l := sumc / 2 in
  if minc =? maxc then Ok (0, l, 0)
  else
    s <- (if l <=? 0.5 then float_div rangec sumc
          else float_div rangec (2 - maxc - minc)) ;;
    rc <- float_div (maxc - r) rangec ;;
    gc <- float_div (maxc - g) rangec ;;
    bc <- float_div (maxc - b) rangec ;;
    let h := if r =? maxc then bc - gc
             else if g =? maxc then 2 + rc - bc
             else 4 + gc - rc in
    h6 <- float_div h 6 ;;
    h' <- float_rem h6 1 ;;
    Ok (h', l, s).

Definition _v (m1 m2 hue : float) : result float :=
  hue <- float_rem hue 1 ;;
  if hue <? ONE_SIXTH then Ok (m1 + (m2 - m1) * hue * 6)
  else if hue <? 0.5 then Ok m2
  else if hue <? TWO_THIRD then Ok (m1 + (m2 - m1) * (TWO_THIRD - hue) * 6)
  else Ok m1.

Definition hls_to_rgb (h l s : float) : result (float * float * float) :=
  if s =? 0 then Ok (l, l, l)
  else
    let m2 := if l <=? 0.5 then l * (1 + s) else l + s - (l * s) in
    let m1 := 2 * l - m2 in
    r <- _v m1 m2 (h + ONE_THIRD) ;;
    g <- _v m1 m2 h ;;
    b <- _v m1 m2 (h - ONE_THIRD) ;;
    Ok (r, g, b).

End Colorsys.

Definition rgb_to_hsl (c : rgb) : result hsl :=
  let '(r, g, b) := c in
  r <- div (Int r) 255 ;;
  g <- div (Int g) 255 ;;
  b <- div (Int b) 255 ;;
  '(h, l, s) <- Colorsys.rgb_to_hls r g b ;;
  Ok (Flt (h * 360), Flt (s * 100), Flt (l * 100)).

Definition hsl_to_rgb (c : hsl) : result rgb :=
  let '(h, s, l) := c in
  h <- div h 360 ;;
  s <- div s 100 ;;
  l <- div l 100 ;;
  '(r, g, b) <- Colorsys.hls_to_rgb h l s ;;
  r <- float_to_int (r * 255) ;;
  g <- float_to_int (g * 255) ;;
  b <- float_to_int (b * 255) ;;
  Ok (r, g, b).

(** [rgb_to_hex(hsl_to_rgb(c))], the rendering every palette entry goes
    through. *)
Definition render (c : hsl) : result string :=
  x <- hsl_to_rgb c ;;
  Ok (rgb_to_hex x).

(** ** Adjuster *)

(** [max(0, min(100, x))] *)
Definition clamp (x : num) : num := max2 (Int 0) (min2 (Int 100) x).

Definition adjust_hsl (c : hsl) (hue_shift saturation_adjust lightness_adjust : Z)
    : result hsl :=
  let '(h, s, l) := c in
  h0 <- add h (Int hue_shift) ;;
  h' <- rem h0 (Int 360) ;;
  s0 <- add s (Int saturation_adjust) ;;
  l0 <- add l (Int lightness_adjust) ;;
  Ok (h', clamp s0, clamp l0).

(** ** Dictionaries and lists *)

Section Dict.
Context {V : Type}.

Definition dict : Type := list (string * V).

Fixpoint dict_find (d : dict) (k : string) : option V :=
  match d with
  | [] => None
  | (k', v) :: d' => if String.eqb k k' then Some v else dict_find d' k
  end.

(** [k in d] *)
Definition dict_mem (d : dict) (k : string) : bool :=
  match dict_find d k with Some _ => true | None => false end.

(** [d[k]] *)
Definition dict_get (d : dict) (k : string) : result V :=
  match dict_find d k with
  | Some v => Ok v
  | None => Err (KeyError (StrKey k))
  end.

(** [d[k] = v]: an existing key keeps its place, a new one goes last. *)
Fixpoint dict_set (d : dict) (k : string) (v : V) : dict :=
  match d with
  | [] => [(k, v)]
  | (k', v') :: d' =>
      if String.eqb k k' then (k, v) :: d' else (k', v') :: dict_set d' k v
  end.
End Dict.

Arguments dict V : clear implicits.

(** [{k: f(v) for k, v in items}], built entry by entry onto [acc]; the
    first exception of [f] ends it. *)
Fixpoint dict_comp {A B : Type} (f : A -> result B) (items : dict A) (acc : dict B)
    : result (dict B) :=
  match items with
  | [] => Ok acc
  | (k, v) :: rest =>
      b <- f v ;;
      dict_comp f rest (dict_set acc k b)
  end.

(** [[f(x) for x in l]] *)
Fixpoint list_comp {A B : Type} (f : A -> result B) (l : list A) : result (list B) :=
  match l with
  | [] => Ok []
  | x :: l' =>
      y <- f x ;;
      ys <- list_comp f l' ;;
      Ok (y :: ys)
  end.

(** [l[i]] for a literal index [i >= 0]. *)
Definition list_get {A : Type} (l : list A) (i : nat) : result A :=
  match nth_error l i with
  | Some x => Ok x
  | None => Err IndexError
  end.

(** ** HarmonyGenerator *)

(** [(base_hue + k) % 360] and [(base_hue - k) % 360] *)
Definition wrap_plus (base_hue : num) (k : Z) : result num :=
  x <- add base_hue (Int k) ;;
  rem x (Int 360).

Definition wrap_minus (base_hue : num) (k : Z) : result num :=
  x <- sub base_hue (Int k) ;;
  rem x (Int 360).

Definition generate_harmony_colors (base_hsl : hsl) (harmony_type : string)
    : result (list hsl) :=
  let '(base_hue, s, l) := base_hsl in
  c180 <- wrap_plus base_hue 180 ;;
  a30 <- wrap_plus base_hue 30 ;;
  a330 <- wrap_minus base_hue 30 ;;
  t120 <- wrap_plus base_hue 120 ;;
  t240 <- wrap_minus base_hue 120 ;;
  q90 <- wrap_plus base_hue 90 ;;
  q180 <- wrap_plus base_hue 180 ;;
  q270 <- wrap_plus base_hue 270 ;;
  let harmonies : dict (list num) :=
    [ ("1", [base_hue; c180]);
      ("2", [base_hue; a30; a330]);
      ("3", [base_hue; t120; t240]);
      ("4", [base_hue; q90; q180; q270]) ] in
  hues <- dict_get harmonies harmony_type ;;
  Ok (map (fun h => (h, s, l)) hues).

(** ** ShadeExpander *)

Definition generate_shades (color : hsl) : result (list hsl) :=
  darker <- adjust_hsl color 0 0 (-30) ;;
  lighter <- adjust_hsl color 0 0 30 ;;
  Ok [darker; color; lighter].

(** ** PaletteBuilder *)

(** A value of the palette dictionary: the shade list of a role, or one of
    the nested dictionaries [semantic], [surface], [brand]. *)
Inductive entry : Type :=
| Shades (ramp : list string)
| Group (g : dict string).

Definition palette : Type := dict entry.

(** [e[i]] on a palette value. *)
Definition entry_index (e : entry) (i : nat) : result string :=
  match e with
  | Shades ramp => list_get ramp i
  | Group _ => Err (KeyError (IntKey (Z.of_nat i)))
  end.

(** The first argument of [generate_palette]: one hex string, or a
    dictionary from role names to hex strings. *)
Inductive colors_arg : Type :=
| Seed (hex_color : string)
| Roles (items : dict string).

Definition semantic_hues : dict Z :=
  [("error", 0); ("success", 120); ("info", 200); ("warning", 40)].

(** Lines 56-61: the roles derived from [primary]. *)
Definition derive_roles (hsl_colors : dict hsl) (harmony : string) : result (dict hsl) :=
  if dict_mem hsl_colors "primary" && (List.length hsl_colors <? 3)%nat then
    p <- dict_get hsl_colors "primary" ;;
    harmony_colors <- generate_harmony_colors p harmony ;;
    hsl_colors <-
      (if negb (dict_mem hsl_colors "secondary") then
         c <- list_get harmony_colors 1 ;;
         Ok (dict_set hsl_colors "secondary" c)
       else Ok hsl_colors) ;;
    if negb (dict_mem hsl_colors "tertiary") && (2 <? List.length harmony_colors)%nat then
      c <- list_get harmony_colors 2 ;;
      Ok (dict_set hsl_colors "tertiary" c)
    else Ok hsl_colors
  else Ok hsl_colors.

(** Lines 84-91: the [surface] dictionary. *)
Definition surface_colors (mode : string) : result (dict string) :=
  let surface_lightness := if String.eqb mode "light" then 95 else 20 in
  let on_surface_lightness := if String.eqb mode "light" then 10 else 90 in
  background <- render (Int 0, Int 0, Int surface_lightness) ;;
  onSurface <- render (Int 0, Int 0, Int on_surface_lightness) ;;
  onSurfaceVariant <- render (Int 0, Int 0, Int 50) ;;
  inverseOnSurface <- render (Int 0, Int 0, Int (100 - on_surface_lightness)) ;;
  Ok [ ("background", background);
       ("onSurface", onSurface);
       ("onSurfaceVariant", onSurfaceVariant);
       ("inverseOnSurface", inverseOnSurface) ].

(** Lines 94-98: the [brand] dictionary. *)
Definition brand_colors (hsl_colors : dict hsl) (pal : palette) : result (dict string) :=
  p <- dict_get pal "primary" ;;
  newPrimary <- entry_index p 1 ;;
  c <- dict_get hsl_colors "primary" ;;
  inv <- adjust_hsl c 180 0 0 ;;
  inversePrimary <- render inv ;;
  newAccent <-
    (if dict_mem pal "secondary" then
       e <- dict_get pal "secondary" ;; entry_index e 1
     else
       e <- dict_get pal "primary" ;; entry_index e 2) ;;
  Ok [ ("newPrimary", newPrimary);
       ("inversePrimary", inversePrimary);
       ("newAccent", newAccent) ].

(** Lines 49-53: the argument as a dictionary, every colour converted. *)
Definition input_hsl (colors : colors_arg) : result (dict hsl) :=
  let colors :=
    match colors with
    | Seed c => [("primary", c)]
    | Roles d => d
    end in
  dict_comp (fun v => x <- hex_to_rgb v ;; rgb_to_hsl x) colors [].

(** Line 64: the global adjustment of every role. *)
Definition adjust_all (hsl_colors : dict hsl)
    (hue_shift saturation_adjust lightness_adjust : Z) : result (dict hsl) :=
  dict_comp (fun v => adjust_hsl v hue_shift saturation_adjust lightness_adjust)
            hsl_colors [].

(** Lines 74-75: the three rendered shades of one colour. *)
Definition shade_ramp (v : hsl) : result (list string) :=
  shades <- generate_shades v ;;
  list_comp render shades.

(** Lines 78-80: the [semantic] dictionary. *)
Definition semantic_colors (hue_shift saturation_adjust lightness_adjust : Z)
    : result (dict string) :=
  dict_comp (fun h => c <- adjust_hsl (Int h, Int 100, Int 50)
                                      hue_shift saturation_adjust lightness_adjust ;;
                      render c)
            semantic_hues [].

(** Lines 49-61: the role colours before the adjustment. *)
Definition base_roles (colors : colors_arg) (harmony : string) : result (dict hsl) :=
  hsl_colors <- input_hsl colors ;;
  derive_roles hsl_colors harmony.

(** Lines 49-64: [hsl_colors] as the rest of the function uses it. *)
Definition role_colors (colors : colors_arg) (harmony : string)
    (hue_shift saturation_adjust lightness_adjust : Z) : result (dict hsl) :=
  hsl_colors <- base_roles colors harmony ;;
  adjust_all hsl_colors hue_shift saturation_adjust lightness_adjust.

(** Lines 49-91: the adjusted role colours, and the palette with its role
    ramps and the [semantic] and [surface] groups. *)
Definition palette_groups (colors : colors_arg) (mode harmony : string)
    (hue_shift saturation_adjust lightness_adjust : Z)
    : result (dict hsl * palette) :=
  hsl_colors <- role_colors colors harmony hue_shift saturation_adjust lightness_adjust ;;
  pal <- dict_comp (fun v => ramp <- shade_ramp v ;; Ok (Shades ramp)) hsl_colors [] ;;
  semantic <- semantic_colors hue_shift saturation_adjust lightness_adjust ;;
  let pal := dict_set pal "semantic" (Group semantic) in
  surface <- surface_colors mode ;;
  let pal := dict_set pal "surface" (Group surface) in
  Ok (hsl_colors, pal).

Definition generate_palette (colors : colors_arg) (mode harmony : string)
    (hue_shift saturation_adjust lightness_adjust : Z) : result palette :=
  '(hsl_colors, pal) <-
     palette_groups colors mode harmony hue_shift saturation_adjust lightness_adjust ;;
  brand <- brand_colors hsl_colors pal ;;
  Ok (dict_set pal "brand" (Group brand)).

(** ** The console prompt *)

(** What [get_user_input] writes: the prompt of a call of [input], and the
    line [Invalid input. Please choose from {options}], kept with its list
    of options rather than formatted. *)
Inductive output : Type :=
| Prompt (text : string)
| InvalidInput (options : list string).

(** How a call ends: with the value returned, or with the [EOFError] that
    [input] raises once the standard input is exhausted. *)
Inductive outcome : Type :=
| Returned (user_input : string)
| EOFError.

(** [x in options] *)
Definition list_mem (x : string) (options : list string) : bool :=
  existsb (String.eqb x) options.

(** [get_user_input(prompt, options)] run on the lines that the standard
    input still holds: the outcome, the lines left unread, and what was
    written. Each turn of the loop reads one line. [options] is [None] or a
    list; [None] and the empty list are both false in [if options and ...]. *)
Fixpoint get_user_input (prompt : string) (options : option (list string))
    (stdin : list string) : outcome * list string * list output :=
  match stdin with
  | [] => (EOFError, [], [Prompt prompt])
  | user_input :: rest =>
      match options with
      | Some (o :: os) =>
          if negb (list_mem user_input (o :: os)) then
            let '(r, unread, written) := get_user_input prompt options rest in
            (r, unread, Prompt prompt :: InvalidInput (o :: os) :: written)
          else (Returned user_input, rest, [Prompt prompt])
      | _ => (Returned user_input, rest, [Prompt prompt])
      end
  end.

(** * Notions used to state the properties *)

Definition not_KeyError (e : exn) : Prop :=
  match e with KeyError _ => False | _ => True end.

(** [raises P r]: every exception of [r] satisfies [P]. *)
Definition raises {A : Type} (P : exn -> Prop) (r : result A) : Prop :=
  forall e, r = Err e -> P e.

(** Whether the argument of [generate_palette] gives a [primary] role. *)
Definition supplies_primary (colors : colors_arg) : bool :=
  match colors with
  | Seed _ => true
  | Roles d => dict_mem d "primary"
  end.

(** The keys of a dictionary, in insertion order. *)
Definition keys {V : Type} (d : dict V) : list string := map fst d.

Definition is_hex_digit (c : ascii) : bool :=
  match Str.hex_digit c with Some _ => true | None => false end.

Definition is_lower_hex_digit (c : ascii) : bool :=
  let n := Z.of_nat (nat_of_ascii c) in
  ((48 <=? n) && (n <=? 57)) || ((97 <=? n) && (n <=? 102)).

(** HexColor: [#] and exactly six hexadecimal digits. *)
Definition is_hex_color (s : string) : bool :=
  match s with
  | String "#" d =>
      (String.length d =? 6)%nat && forallb is_hex_digit (list_ascii_of_string d)
  | _ => false
  end.

(** A HexColor as [rgb_to_hex] writes it: the digits in lower case. *)
Definition is_lower_hex_color (s : string) : bool :=
  match s with
  | String "#" d =>
      (String.length d =? 6)%nat && forallb is_lower_hex_digit (list_ascii_of_string d)
  | _ => false
  end.

(** The byte written by two hexadecimal digits. *)
Definition hex_pair (a b : ascii) : option Z :=
  match Str.hex_digit a, Str.hex_digit b with
  | Some x, Some y => Some (16 * x + y)
  | _, _ => None
  end.

(** A character that is no part of any base-16 literal of two characters:
    neither a digit, nor a sign, nor white space. *)
Definition is_junk (c : ascii) : bool :=
  negb (is_hex_digit c || Str.is_space c || Ascii.eqb c "+" || Ascii.eqb c "-").

Definition in_byte_range (v : Z) : Prop := 0 <= v <= 255.

Definition all_ascii : list ascii := map ascii_of_nat (seq 0 256).

Definition all_bytes : list Z := map Z.of_nat (seq 0 256).

Definition result_is {A : Type} (eqb : A -> A -> bool) (r : result A) (a : A) : bool :=
  match r with Ok x => eqb x a | Err _ => false end.

Definition fails_with_ValueError {A : Type} (r : result A) : bool :=
  match r with Err ValueError => true | _ => false end.

Definition pair_checks (a b : ascii) : bool :=
  let s := String a (String b "") in
  match hex_pair a b with
  | Some v => result_is Z.eqb (Str.int16 s) v && (0 <=? v) && (v <=? 255)
  | None => true
  end
  && (if is_junk a || is_junk b then fails_with_ValueError (Str.int16 s) else true)
  && (if is_junk a then fails_with_ValueError (Str.int16 (String a "")) else true).

Definition byte_checks (v : Z) : bool :=
  match Str.fmt02x v with
  | String a (String b "") =>
      is_lower_hex_digit a && is_lower_hex_digit b
      && match hex_pair a b with Some w => w =? v | None => false end
  | _ => false
  end.

(** A delta that [float + int] can coerce: within the range of a double. *)
Definition fits_float (z : Z) : bool := is_ok (int_to_float z).

(** The hues of a scheme, as lines 40-43 list them. *)
Definition scheme_hues (base_hue : num) (harmony_type : string) : result (list num) :=
  if String.eqb harmony_type "1" then
    a <- wrap_plus base_hue 180 ;; Ok [base_hue; a]
  else if String.eqb harmony_type "2" then
    a <- wrap_plus base_hue 30 ;; b <- wrap_minus base_hue 30 ;; Ok [base_hue; a; b]
  else if String.eqb harmony_type "3" then
    a <- wrap_plus base_hue 120 ;; b <- wrap_minus base_hue 120 ;; Ok [base_hue; a; b]
  else if String.eqb harmony_type "4" then
    a <- wrap_plus base_hue 90 ;; b <- wrap_plus base_hue 180 ;;
    c <- wrap_plus base_hue 270 ;; Ok [base_hue; a; b; c]
  else Err (KeyError (StrKey harmony_type)).

Definition known_scheme (harmony_type : string) : bool :=
  String.eqb harmony_type "1" || String.eqb harmony_type "2"
  || String.eqb harmony_type "3" || String.eqb harmony_type "4".

(** The achromatic colour of a given lightness: hue 0, saturation 0. *)
Definition achromatic (lightness : Z) : hsl := (Int 0, Int 0, Int lightness).

Definition light_surface : dict string :=
  [ ("background", "#f2f2f2"); ("onSurface", "#191919");
    ("onSurfaceVariant", "#7f7f7f"); ("inverseOnSurface", "#e5e5e5") ].

Definition dark_surface : dict string :=
  [ ("background", "#333333"); ("onSurface", "#e5e5e5");
    ("onSurfaceVariant", "#7f7f7f"); ("inverseOnSurface", "#191919") ].

Definition pow2 (e : Z) : R := powerRZ 2 e.

(** Magnitude and value of a finite or zero float; 0 on the others. *)
Definition SFabsval (x : spec_float) : R :=
  match x with
  | S754_finite _ m e => (IZR (Zpos m) * pow2 e)%R
  | _ => 0%R
  end.

Definition SFsign (x : spec_float) : bool :=
  match x with
  | S754_finite s _ _ | S754_zero s | S754_infinity s => s
  | S754_nan => false
  end.

Definition SFval (x : spec_float) : R :=
  if SFsign x then (- SFabsval x)%R else SFabsval x.

Definition SFfin (x : spec_float) : bool :=
  match x with
  | S754_zero _ | S754_finite _ _ _ => true
  | _ => false
  end.

Definition fexp64 (e : Z) : Z := fexp prec emax e.

Definition cmp_holds (c : option comparison) (a b : R) : Prop :=
  match c with
  | Some Lt => (a < b)%R
  | Some Eq => a = b
  | Some Gt => (b < a)%R
  | None => False
  end.

Definition Fin (f : float) : Prop := SFfin (Prim2SF f) = true.

Definition val (f : float) : R := SFval (Prim2SF f).

Definition small_int_checks (z : Z) : bool :=
  match int_to_float z with
  | Ok f =>
      match Prim2SF f with
      | S754_finite false m e => (e <? 0) && (Zpos m =? z * 2 ^ (- e))
      | _ => false
      end
  | Err _ => false
  end.

(** A float that is not negative and at most 100, as a clamp leaves it. *)
Definition percent (f : float) : Prop :=
  Fin f /\ SFsign (Prim2SF f) = false /\ (0 <= val f <= 100)%R.

(** A fraction in [0,1], up to the rounding of the division. *)
Definition fraction (f : float) : Prop :=
  Fin f /\ (0 <= val f <= 1 + pow2 (-29))%R.

(** The two anchors [m1] and [m2], and a channel computed from them. *)
Definition near_unit (f : float) : Prop :=
  Fin f /\ (- (1 / 1000000) <= val f <= 1 + 1 / 1000000)%R.

Definition channel (f : float) : Prop :=
  Fin f /\ (- (1 / 1000) <= val f <= 1 + 1 / 1000)%R.

(** The final colours held by a palette value, and by a whole palette. *)
Definition entry_colors (e : entry) : list string :=
  match e with
  | Shades ramp => ramp
  | Group g => map snd g
  end.

Definition palette_colors (p : palette) : list string :=
  flat_map (fun kv => entry_colors (snd kv)) p.

Definition hex_entry (e : entry) : Prop :=
  forall c, In c (entry_colors e) -> is_lower_hex_color c = true.

(** [P] holds of every value of a dictionary. *)
Definition all_values {V : Type} (P : V -> Prop) (d : dict V) : Prop :=
  forall k v, In (k, v) d -> P v.

(** Lower-casing of the ASCII letters; every other character is kept. On
    a HexColor this is what [str.lower] does. *)
Definition ascii_lower (c : ascii) : ascii :=
  let n := nat_of_ascii c in
  if ((65 <=? n) && (n <=? 90))%nat then ascii_of_nat (n + 32) else c.

Fixpoint string_lower (s : string) : string :=
  match s with
  | EmptyString => EmptyString
  | String c s' => String (ascii_lower c) (string_lower s')
  end.

Definition result_eqb (x y : result Z) : bool :=
  match x, y with
  | Ok a, Ok b => a =? b
  | Err ValueError, Err ValueError => true
  | _, _ => false
  end.

(** What one literal of at most two characters is checked for: its value
    lies in [-15, 255]; lower-casing it changes nothing; and when both
    characters are digits, the [02x] format writes them back in lower case. *)
Definition literal_checks (s : string) : bool :=
  match Str.int16 s with
  | Ok v => (-15 <=? v) && (v <=? 255)
  | Err _ => true
  end
  && result_eqb (Str.int16 (string_lower s)) (Str.int16 s).

Definition codec_checks (a b : ascii) : bool :=
  literal_checks (String a (String b ""))
  && match hex_pair a b with
     | Some v => String.eqb (Str.fmt02x v) (String (ascii_lower a) (String (ascii_lower b) ""))
     | None => true
     end.

(** A saturation or lightness within [0,100]: an integer of that range, or
    a finite float (no NaN, no infinity) of a value in that range. *)
Definition within_percent (x : num) : Prop :=
  match x with
  | Int z => 0 <= z <= 100
  | Flt f => Fin f /\ (0 <= val f <= 100)%R
  end.

Definition byte_float_checks (z : Z) : bool :=
  match int_to_float z with
  | Ok f =>
      match Prim2SF f with
      | S754_zero false => z =? 0
      | S754_finite false m e => (e <? 0) && (Zpos m =? z * 2 ^ (- e))
      | _ => false
      end
  | Err _ => false
  end.

(** A channel as [rgb_to_hsl] passes it to [colorsys]: the float [z / 255.0]
    of a byte [z]. *)
Definition byte_fraction (z : Z) (f : float) : Prop :=
  in_byte_range z /\ div (Int z) 255 = Ok f.

(** A colour ready to be rendered: its hue converts to a float, and its
    saturation and lightness come out of a clamp. *)
Definition renderable (c : hsl) : Prop :=
  exists h s0 l0, c = (h, clamp s0, clamp l0) /\ is_ok (to_float h) = true.

(** The colours of the first argument are all HexColors, [primary] among
    the roles. *)
Definition valid_colors (colors : colors_arg) : bool :=
  match colors with
  | Seed c => is_hex_color c
  | Roles d => dict_mem d "primary" && forallb (fun kv => is_hex_color (snd kv)) d
  end.

(** The roles a single seed yields: the complementary scheme has no third
    colour, the other three give a tertiary role. *)
Definition seed_roles (harmony : string) : list string :=
  if String.eqb harmony "1" then ["primary"; "secondary"]
  else ["primary"; "secondary"; "tertiary"].

Definition plain_semantic : dict string :=
  [ ("error", "#ff0000"); ("success", "#00ff00"); ("info", "#00a9ff"); ("warning", "#ffaa00") ].

Definition grey_checks (v : Z) : bool :=
  match rgb_to_hsl (v, v, v) with
  | Ok (Flt h, Flt s, Flt l) =>
      (h =? 0)%float && (s =? 0)%float
      && match hsl_to_rgb (Flt h, Flt s, Flt l) with
         | Ok (r, g, b) => (r =? g) && (g =? b) && (v - 1 <=? r) && (r <=? v)
         | Err _ => false
         end
  | _ => false
  end.

(** A line that ends the loop: any line when there are no options (or an
    empty list of them), one of the options otherwise. *)
Definition accepted (options : option (list string)) (line : string) : Prop :=
  match options with
  | Some (o :: os) => In line (o :: os)
  | _ => True
  end.

(** What is written while the lines [rejected] are refused, up to the
    prompt of the next read. *)
Definition refusals (prompt : string) (options : option (list string))
    (rejected : list string) : list output :=
  (flat_map (fun _ => [Prompt prompt;
                       InvalidInput (match options with Some l => l | None => [] end)])
            rejected ++ [Prompt prompt])%list.

(** A mantissa [c] of at most 53 bits at an exponent [t >= -1074]: the
    magnitude of a binary64 number. *)
Definition grid (c t : Z) : Prop := 0 <= c < 2 ^ 53 /\ -1074 <= t.

(** A derived hue of a float base hue: a finite float within [0, 360] that
    is the real [base + k] less a multiple of 360, up to [2^-29]. *)
Definition wrapped_hue (base : float) (k : Z) (c : num) : Prop :=
  exists a, c = Flt a /\ Fin a /\ (0 <= val a <= 360)%R
    /\ exists q : Z, (Rabs (val a - (val base + IZR k - 360 * IZR q)) <= pow2 (-29))%R.

(** The colours of the first argument are all HexColors, whatever the
    roles. *)
Definition hex_colors (colors : colors_arg) : bool :=
  match colors with
  | Seed c => is_hex_color c
  | Roles d => forallb (fun kv => is_hex_color (snd kv)) d
  end.

(** * Properties *)

(** ** Finite enumerations used for checking by evaluation *)

Lemma in_all_ascii (a : ascii) : In a all_ascii.
Proof.
  unfold all_ascii. rewrite <- (ascii_nat_embedding a).
  apply in_map, in_seq. pose proof (nat_ascii_bounded a). lia.
Qed.

Lemma in_all_bytes (v : Z) : in_byte_range v -> In v all_bytes.
Proof.
  intros [Hlo Hhi]. unfold all_bytes. rewrite <- (Z2Nat.id v) by assumption.
  apply in_map, in_seq. lia.
Qed.

Lemma result_is_Z (r : result Z) (v : Z) : result_is Z.eqb r v = true -> r = Ok v.
Proof.
  destruct r as [x|e]; simpl; [|discriminate].
  intros H. apply Z.eqb_eq in H. now subst.
Qed.


(** *** Two-character literals *)

Lemma pair_checks_all :
  forallb (fun a => forallb (pair_checks a) all_ascii) all_ascii = true.
Proof. vm_compute. reflexivity. Qed.

Lemma pair_checks_true (a b : ascii) : pair_checks a b = true.
Proof.
  pose proof pair_checks_all as H.
  rewrite forallb_forall in H. specialize (H a (in_all_ascii a)).
  rewrite forallb_forall in H. exact (H b (in_all_ascii b)).
Qed.

Lemma int16_hex_pair (a b : ascii) (v : Z) :
  hex_pair a b = Some v ->
  Str.int16 (String a (String b "")) = Ok v /\ in_byte_range v.
Proof.
  intros Hv. pose proof (pair_checks_true a b) as H. unfold pair_checks in H.
  rewrite Hv in H. repeat rewrite andb_true_iff in H.
  destruct H as [[[[H1 H2] H3] _] _].
  split; [now apply result_is_Z | unfold in_byte_range; lia].
Qed.



(** *** The [02x] format on bytes *)

Lemma byte_checks_all : forallb byte_checks all_bytes = true.
Proof. vm_compute. reflexivity. Qed.

Lemma fmt02x_byte (v : Z) :
  in_byte_range v ->
  exists a b, Str.fmt02x v = String a (String b "")
              /\ is_lower_hex_digit a = true /\ is_lower_hex_digit b = true
              /\ hex_pair a b = Some v.
Proof.
  intros Hv. pose proof byte_checks_all as H. rewrite forallb_forall in H.
  specialize (H v (in_all_bytes v Hv)). unfold byte_checks in H.
  destruct (Str.fmt02x v) as [|a [|b [|c s]]]; try discriminate.
  exists a, b. repeat rewrite andb_true_iff in H. destruct H as [[Ha Hb] Hp].
  repeat split; try assumption.
  destruct (hex_pair a b) as [w|]; [|discriminate].
  apply Z.eqb_eq in Hp. now subst.
Qed.

(** ** ColorSpace: [hex_to_rgb] and [rgb_to_hex] *)

Lemma hex_to_rgb_six (c0 c1 c2 c3 c4 c5 c6 : ascii) (tail : string) :
  hex_to_rgb (String c0 (String c1 (String c2 (String c3 (String c4
               (String c5 (String c6 tail))))))) =
  (r <- Str.int16 (String c1 (String c2 "")) ;;
   g <- Str.int16 (String c3 (String c4 "")) ;;
   b <- Str.int16 (String c5 (String c6 "")) ;;
   Ok (r, g, b)).
Proof. reflexivity. Qed.

Lemma hex_to_rgb_pairs (c0 c1 c2 c3 c4 c5 c6 : ascii) (tail : string) (r g b : Z) :
  hex_pair c1 c2 = Some r -> hex_pair c3 c4 = Some g -> hex_pair c5 c6 = Some b ->
  hex_to_rgb (String c0 (String c1 (String c2 (String c3 (String c4
               (String c5 (String c6 tail))))))) = Ok (r, g, b).
Proof.
  intros Hr Hg Hb. rewrite hex_to_rgb_six.
  destruct (int16_hex_pair _ _ _ Hr) as [-> _].
  destruct (int16_hex_pair _ _ _ Hg) as [-> _].
  destruct (int16_hex_pair _ _ _ Hb) as [-> _]. reflexivity.
Qed.

Lemma rgb_to_hex_bytes (r g b : Z) :
  in_byte_range r -> in_byte_range g -> in_byte_range b ->
  exists c1 c2 c3 c4 c5 c6,
    rgb_to_hex (r, g, b) =
      String "#" (String c1 (String c2 (String c3 (String c4 (String c5 (String c6 ""))))))
    /\ hex_pair c1 c2 = Some r /\ hex_pair c3 c4 = Some g /\ hex_pair c5 c6 = Some b
    /\ forallb is_lower_hex_digit [c1; c2; c3; c4; c5; c6] = true.
Proof.
  intros Hr Hg Hb.
  destruct (fmt02x_byte r Hr) as (c1 & c2 & Er & L1 & L2 & Pr).
  destruct (fmt02x_byte g Hg) as (c3 & c4 & Eg & L3 & L4 & Pg).
  destruct (fmt02x_byte b Hb) as (c5 & c6 & Eb & L5 & L6 & Pb).
  exists c1, c2, c3, c4, c5, c6. unfold rgb_to_hex. rewrite Er, Eg, Eb.
  repeat split; try assumption. simpl. rewrite L1, L2, L3, L4, L5, L6. reflexivity.
Qed.

(** The rendering of an in-range triple is a lower-case HexColor. *)
Lemma rgb_to_hex_is_hex_color (r g b : Z) :
  in_byte_range r -> in_byte_range g -> in_byte_range b ->
  is_lower_hex_color (rgb_to_hex (r, g, b)) = true.
Proof.
  intros Hr Hg Hb.
  destruct (rgb_to_hex_bytes r g b Hr Hg Hb) as (c1 & c2 & c3 & c4 & c5 & c6 & E & _ & _ & _ & L).
  rewrite E. exact L.
Qed.

(** C8. For every RGB triple with all three channels in [0,255],
    [hex_to_rgb (rgb_to_hex r)] returns the same triple: the hex rendering
    round-trips without loss. *)
Theorem hex_rgb_roundtrip (r g b : Z) :
  in_byte_range r -> in_byte_range g -> in_byte_range b ->
  hex_to_rgb (rgb_to_hex (r, g, b)) = Ok (r, g, b).
Proof.
  intros Hr Hg Hb.
  destruct (rgb_to_hex_bytes r g b Hr Hg Hb) as (c1 & c2 & c3 & c4 & c5 & c6 & E & Pr & Pg & Pb & _).
  rewrite E. now apply hex_to_rgb_pairs.
Qed.

Lemma hex_rgb_roundtrip_witness :
  hex_to_rgb (rgb_to_hex (66, 135, 245)) = Ok (66, 135, 245).
Proof. apply hex_rgb_roundtrip; unfold in_byte_range; lia. Defined.



Lemma int16_raises_ValueError (s : string) (e : exn) :
  Str.int16 s = Err e -> e = ValueError.
Proof.
  unfold Str.int16.
  destruct (match Str.skip_space s with
            | String "+" r => (false, r)
            | String "-" r => (true, r)
            | _ => (false, Str.skip_space s)
            end) as [neg s2].
  destruct (Str.digits16 _ _ _ _) as [[v rest]|]; [|congruence].
  destruct (Str.skip_space rest); congruence.
Qed.



Lemma hex_to_rgb_raises_ValueError (s : string) (e : exn) :
  hex_to_rgb s = Err e -> e = ValueError.
Proof.
  unfold hex_to_rgb.
  destruct (Str.int16 (Str.slice s 1 3)) eqn:E1; simpl;
    [|intros [= <-]; eapply int16_raises_ValueError; eassumption].
  destruct (Str.int16 (Str.slice s 3 5)) eqn:E2; simpl;
    [|intros [= <-]; eapply int16_raises_ValueError; eassumption].
  destruct (Str.int16 (Str.slice s 5 7)) eqn:E3; simpl;
    [discriminate|intros [= <-]; eapply int16_raises_ValueError; eassumption].
Qed.


Lemma is_hex_color_inv (s : string) :
  is_hex_color s = true ->
  exists c1 c2 c3 c4 c5 c6 r g b,
    s = String "#" (String c1 (String c2 (String c3 (String c4 (String c5 (String c6 ""))))))
    /\ hex_pair c1 c2 = Some r /\ hex_pair c3 c4 = Some g /\ hex_pair c5 c6 = Some b.
Proof.
  unfold is_hex_color. destruct s as [|c0 d]; [discriminate|].
  destruct (Ascii.eqb c0 "#") eqn:E0.
  2:{ destruct c0 as [[] [] [] [] [] [] [] []]; try discriminate. }
  apply Ascii.eqb_eq in E0. subst c0.
  destruct d as [|c1 [|c2 [|c3 [|c4 [|c5 [|c6 [|c7 d]]]]]]]; try discriminate.
  simpl. unfold is_hex_digit, hex_pair. intros H.
  repeat rewrite andb_true_iff in H.
  destruct H as (H1 & H2 & H3 & H4 & H5 & H6 & _).
  destruct (Str.hex_digit c1) as [d1|] eqn:E1; [|discriminate].
  destruct (Str.hex_digit c2) as [d2|] eqn:E2; [|discriminate].
  destruct (Str.hex_digit c3) as [d3|] eqn:E3; [|discriminate].
  destruct (Str.hex_digit c4) as [d4|] eqn:E4; [|discriminate].
  destruct (Str.hex_digit c5) as [d5|] eqn:E5; [|discriminate].
  destruct (Str.hex_digit c6) as [d6|] eqn:E6; [|discriminate].
  exists c1, c2, c3, c4, c5, c6, (16 * d1 + d2), (16 * d3 + d4), (16 * d5 + d6).
  rewrite E1, E2, E3, E4, E5, E6. repeat split; reflexivity.
Qed.



(** ** Adjuster *)

Lemma clamp_Int (x : Z) : clamp (Int x) = Int (Z.max 0 (Z.min 100 x)).
Proof.
  unfold clamp, max2, min2, gt, lt.
  destruct (x <? 100) eqn:E1.
  - apply Z.ltb_lt in E1. destruct (0 <? x) eqn:E2.
    + apply Z.ltb_lt in E2. f_equal. lia.
    + apply Z.ltb_ge in E2. f_equal. lia.
  - apply Z.ltb_ge in E1. simpl. f_equal. lia.
Qed.

Lemma adjust_hsl_Int (h s l hs sa la : Z) :
  adjust_hsl (Int h, Int s, Int l) hs sa la =
  Ok (Int ((h + hs) mod 360),
      Int (Z.max 0 (Z.min 100 (s + sa))),
      Int (Z.max 0 (Z.min 100 (l + la)))).
Proof. unfold adjust_hsl. simpl. now rewrite !clamp_Int. Qed.

Lemma add_Int_ok (a : num) (z : Z) :
  fits_float z = true -> exists b, add a (Int z) = Ok b.
Proof.
  unfold fits_float. intros Hz. destruct a as [x|f]; simpl.
  - eexists; reflexivity.
  - destruct (int_to_float z) as [y|]; [|discriminate]. simpl. eexists; reflexivity.
Qed.

Lemma rem_360_ok (a : num) : exists b, rem a (Int 360) = Ok b.
Proof.
  destruct a as [x|f].
  - eexists; reflexivity.
  - unfold rem, to_float, bind.
    change (int_to_float 360) with (Ok 360%float).
    unfold float_rem. change (360 =? 0)%float with false. cbv iota.
    destruct (fmod f 360 =? 0)%float; [eexists; reflexivity|].
    destruct (xorb _ _); eexists; reflexivity.
Qed.

Lemma adjust_hsl_ok (c : hsl) (hs sa la : Z) :
  fits_float hs = true -> fits_float sa = true -> fits_float la = true ->
  exists c', adjust_hsl c hs sa la = Ok c'.
Proof.
  intros Hh Hs Hl. destruct c as [[h s] l]. unfold adjust_hsl.
  destruct (add_Int_ok h hs Hh) as [h0 ->]. simpl.
  destruct (rem_360_ok h0) as [h' ->]. simpl.
  destruct (add_Int_ok s sa Hs) as [s0 ->]. simpl.
  destruct (add_Int_ok l la Hl) as [l0 ->]. simpl.
  eexists; reflexivity.
Qed.

(** C7, as stated, fails on the float triples the pipeline works with:
    on the HSL of [#4287f5] a hue shift of 370 and a hue shift of 10 give
    two different hues, and a delta beyond the range of a double makes
    [adjust_hsl] raise [OverflowError]. *)
Lemma adjust_hsl_float_wrap_differs :
  let c := (Flt 216.8715083798883, Flt 89.9497487437186, Flt 60.98039215686275) in
  (x <- hex_to_rgb "#4287f5" ;; rgb_to_hsl x) = Ok c
  /\ (exists s l, adjust_hsl c 370 0 0 = Ok (Flt 226.87150837988827, s, l))
  /\ (exists s l, adjust_hsl c 10 0 0 = Ok (Flt 226.8715083798883, s, l))
  /\ (226.87150837988827 =? 226.8715083798883)%float = false
  /\ adjust_hsl c (2 ^ 1024) 0 0 = Err OverflowError.
Proof.
  split; [vm_compute; reflexivity|].
  split; [eexists _, _; vm_compute; reflexivity|].
  split; [eexists _, _; vm_compute; reflexivity|].
  split; vm_compute; reflexivity.
Qed.

(** ** HarmonyGenerator *)

Lemma wrap_plus_Int (h k : Z) : wrap_plus (Int h) k = Ok (Int ((h + k) mod 360)).
Proof. reflexivity. Qed.

Lemma wrap_minus_Int (h k : Z) : wrap_minus (Int h) k = Ok (Int ((h - k) mod 360)).
Proof. reflexivity. Qed.

Lemma arith_small_ok (fz : Z -> Z -> Z) (ff : float -> float -> float) (a : num) (k : Z) :
  fits_float k = true -> exists b, arith fz ff a (Int k) = Ok b.
Proof.
  unfold fits_float. intros Hk. destruct a as [x|f]; simpl.
  - eexists; reflexivity.
  - destruct (int_to_float k); [|discriminate]. eexists; reflexivity.
Qed.

Lemma wrap_plus_ok (h : num) (k : Z) :
  fits_float k = true -> exists h', wrap_plus h k = Ok h'.
Proof.
  intros Hk. unfold wrap_plus, add.
  destruct (arith_small_ok Z.add PrimFloat.add h k Hk) as [x ->]. simpl.
  apply rem_360_ok.
Qed.

Lemma wrap_minus_ok (h : num) (k : Z) :
  fits_float k = true -> exists h', wrap_minus h k = Ok h'.
Proof.
  intros Hk. unfold wrap_minus, sub.
  destruct (arith_small_ok Z.sub PrimFloat.sub h k Hk) as [x ->]. simpl.
  apply rem_360_ok.
Qed.

Lemma generate_harmony_colors_hues (h s l : num) (harmony_type : string) :
  generate_harmony_colors (h, s, l) harmony_type =
  (hues <- scheme_hues h harmony_type ;; Ok (map (fun x => (x, s, l)) hues)).
Proof.
  unfold generate_harmony_colors, scheme_hues.
  destruct (wrap_plus_ok h 180 eq_refl) as [c180 ->].
  destruct (wrap_plus_ok h 30 eq_refl) as [a30 ->].
  destruct (wrap_minus_ok h 30 eq_refl) as [a330 ->].
  destruct (wrap_plus_ok h 120 eq_refl) as [t120 ->].
  destruct (wrap_minus_ok h 120 eq_refl) as [t240 ->].
  destruct (wrap_plus_ok h 90 eq_refl) as [q90 ->].
  destruct (wrap_plus_ok h 270 eq_refl) as [q270 ->].
  cbn [bind]. unfold dict_get. cbn [dict_find].
  rewrite (String.eqb_sym harmony_type "1"), (String.eqb_sym harmony_type "2"),
          (String.eqb_sym harmony_type "3"), (String.eqb_sym harmony_type "4").
  destruct ("1" =? harmony_type)%string; [reflexivity|].
  destruct ("2" =? harmony_type)%string; [reflexivity|].
  destruct ("3" =? harmony_type)%string; [reflexivity|].
  destruct ("4" =? harmony_type)%string; reflexivity.
Qed.

(** C6, as stated, fails on float hues: the hue of [#211101] is just
    below 30 degrees, and its third Analogous hue, [(hue - 30) % 360], is
    the float 360.0, outside [0,360). *)
Lemma harmony_hue_reaches_360 :
  let base := (Flt 29.999999999999993, Flt 94.11764705882351, Flt 6.666666666666668) in
  (x <- hex_to_rgb "#211101" ;; rgb_to_hsl x) = Ok base
  /\ generate_harmony_colors base "2" =
       Ok [ base;
            (Flt 59.99999999999999, Flt 94.11764705882351, Flt 6.666666666666668);
            (Flt 360, Flt 94.11764705882351, Flt 6.666666666666668) ]
  /\ lt (Flt 360) (Int 360) = false.
Proof. repeat split; vm_compute; reflexivity. Qed.

Lemma harmony_any (h s l : num) :
  (exists a, wrap_plus h 180 = Ok a
     /\ generate_harmony_colors (h, s, l) "1" = Ok [(h, s, l); (a, s, l)])
  /\ (exists a b, wrap_plus h 30 = Ok a /\ wrap_minus h 30 = Ok b
        /\ generate_harmony_colors (h, s, l) "2" = Ok [(h, s, l); (a, s, l); (b, s, l)])
  /\ (exists a b, wrap_plus h 120 = Ok a /\ wrap_minus h 120 = Ok b
        /\ generate_harmony_colors (h, s, l) "3" = Ok [(h, s, l); (a, s, l); (b, s, l)])
  /\ (exists a b c, wrap_plus h 90 = Ok a /\ wrap_plus h 180 = Ok b /\ wrap_plus h 270 = Ok c
        /\ generate_harmony_colors (h, s, l) "4" =
             Ok [(h, s, l); (a, s, l); (b, s, l); (c, s, l)]).
Proof.
  rewrite !generate_harmony_colors_hues. unfold scheme_hues. cbn [String.eqb Ascii.eqb Bool.eqb].
  destruct (wrap_plus_ok h 180 eq_refl) as [c180 E180].
  destruct (wrap_plus_ok h 30 eq_refl) as [a30 E30].
  destruct (wrap_minus_ok h 30 eq_refl) as [a330 E330].
  destruct (wrap_plus_ok h 120 eq_refl) as [t120 E120].
  destruct (wrap_minus_ok h 120 eq_refl) as [t240 E240].
  destruct (wrap_plus_ok h 90 eq_refl) as [q90 E90].
  destruct (wrap_plus_ok h 270 eq_refl) as [q270 E270].
  rewrite E180, E30, E330, E120, E240, E90, E270.
  split; [|split; [|split]].
  - exists c180. split; reflexivity.
  - exists a30, a330. repeat split; reflexivity.
  - exists t120, t240. repeat split; reflexivity.
  - exists q90, c180, q270. repeat split; reflexivity.
Qed.

(** ** Dictionaries *)

Section DictFacts.
Context {V : Type}.
Implicit Types (d : dict V) (k : string) (v : V).

Lemma dict_find_set_eq d k v : dict_find (dict_set d k v) k = Some v.
Proof.
  induction d as [|[k' v'] d IH]; simpl.
  - now rewrite String.eqb_refl.
  - destruct (String.eqb k k') eqn:E; simpl.
    + now rewrite String.eqb_refl.
    + now rewrite E.
Qed.

Lemma dict_find_set_ne d k k' v :
  k <> k' -> dict_find (dict_set d k v) k' = dict_find d k'.
Proof.
  intros Hne. induction d as [|[k0 v0] d IH]; simpl.
  - destruct (String.eqb k' k) eqn:E; [|reflexivity].
    apply String.eqb_eq in E. congruence.
  - destruct (String.eqb k k0) eqn:E; simpl.
    + apply String.eqb_eq in E. subst k0.
      destruct (String.eqb k' k) eqn:E'; [|reflexivity].
      apply String.eqb_eq in E'. congruence.
    + now rewrite IH.
Qed.

Lemma dict_mem_set d k k' v :
  dict_mem (dict_set d k v) k' = String.eqb k k' || dict_mem d k'.
Proof.
  unfold dict_mem. destruct (String.eqb k k') eqn:E.
  - apply String.eqb_eq in E. subst. now rewrite dict_find_set_eq.
  - rewrite dict_find_set_ne; [reflexivity|].
    intros ->. now rewrite String.eqb_refl in E.
Qed.

Lemma dict_find_None_keys d k : dict_find d k = None <-> ~ In k (keys d).
Proof.
  induction d as [|[k' v'] d IH]; simpl; [tauto|].
  destruct (String.eqb k k') eqn:E.
  - apply String.eqb_eq in E. subst. split; [discriminate|tauto].
  - rewrite IH. split; [|tauto].
    intros H [->|Hin]; [now rewrite String.eqb_refl in E|tauto].
Qed.

Lemma keys_dict_set d k v :
  keys (dict_set d k v) = if dict_mem d k then keys d else (keys d ++ [k])%list.
Proof.
  unfold dict_mem. induction d as [|[k' v'] d IH]; simpl; [reflexivity|].
  destruct (String.eqb k k') eqn:E; simpl.
  - apply String.eqb_eq in E. now subst.
  - rewrite IH. now destruct (dict_find d k).
Qed.

Lemma NoDup_keys_set d k v : NoDup (keys d) -> NoDup (keys (dict_set d k v)).
Proof.
  intros Hnd. rewrite keys_dict_set. destruct (dict_mem d k) eqn:E; [assumption|].
  unfold dict_mem in E. destruct (dict_find d k) eqn:F; [discriminate|].
  apply dict_find_None_keys in F.
  apply NoDup_rev in Hnd. rewrite <- (rev_involutive (keys d ++ [k])%list).
  apply NoDup_rev. rewrite rev_app_distr. simpl. constructor; [|assumption].
  now rewrite <- in_rev.
Qed.

Lemma dict_get_Ok d k v : dict_get d k = Ok v <-> dict_find d k = Some v.
Proof. unfold dict_get. destruct (dict_find d k); split; congruence. Qed.
End DictFacts.

Section DictComp.
Context {A B : Type} (f : A -> result B).

Lemma dict_comp_mem (items : dict A) :
  forall (acc d : dict B) (k : string),
    dict_comp f items acc = Ok d ->
    dict_mem d k = dict_mem acc k || dict_mem items k.
Proof.
  induction items as [|[k0 v0] items IH]; intros acc d k; simpl.
  - intros [= ->]. now rewrite orb_false_r.
  - destruct (f v0) as [b|e]; simpl; [|discriminate].
    intros H. rewrite (IH _ _ k H), dict_mem_set.
    replace (dict_mem ((k0, v0) :: items) k)
      with (String.eqb k0 k || dict_mem items k).
    * destruct (String.eqb k0 k), (dict_mem acc k); reflexivity.
    * unfold dict_mem. simpl. rewrite (String.eqb_sym k k0).
      now destruct (String.eqb k0 k).
Qed.

Lemma dict_comp_NoDup (items : dict A) :
  forall (acc d : dict B),
    dict_comp f items acc = Ok d -> NoDup (keys acc) -> NoDup (keys d).
Proof.
  induction items as [|[k0 v0] items IH]; intros acc d; simpl.
  - now intros [= ->].
  - destruct (f v0) as [b|e]; simpl; [|discriminate].
    intros H Hnd. eapply IH; [eassumption|]. now apply NoDup_keys_set.
Qed.

(** On a dictionary (unique keys), a comprehension maps the value of
    every key and adds no key. *)
Lemma dict_comp_find (items : dict A) :
  NoDup (keys items) ->
  forall (acc d : dict B) (k : string),
    dict_comp f items acc = Ok d ->
    match dict_find items k with
    | Some a => exists b, f a = Ok b /\ dict_find d k = Some b
    | None => dict_find d k = dict_find acc k
    end.
Proof.
  induction items as [|[k0 v0] items IH]; intros Hnd acc d k; simpl.
  - now intros [= ->].
  - inversion Hnd as [|? ? Hnotin Hnd']; subst.
    destruct (f v0) as [b|e] eqn:Ef; simpl; [|discriminate].
    intros H. specialize (IH Hnd' _ _ k H).
    destruct (String.eqb k k0) eqn:E.
    + apply String.eqb_eq in E. subst k0.
      apply dict_find_None_keys in Hnotin. rewrite Hnotin in IH.
      exists b. split; [assumption|]. now rewrite IH, dict_find_set_eq.
    + destruct (dict_find items k); [assumption|].
      rewrite IH. apply dict_find_set_ne.
      intros ->. now rewrite String.eqb_refl in E.
Qed.

Lemma dict_comp_raises (P : exn -> Prop) (items : dict A) :
  (forall a e, f a = Err e -> P e) ->
  forall (acc : dict B) (e : exn), dict_comp f items acc = Err e -> P e.
Proof.
  intros Hf. induction items as [|[k0 v0] items IH]; intros acc e; simpl.
  - discriminate.
  - destruct (f v0) as [b|e'] eqn:Ef; simpl.
    + apply IH.
    + intros [= <-]. eapply Hf; eassumption.
Qed.
End DictComp.

(** ** PaletteBuilder *)

(** What a successful call went through. *)
Lemma generate_palette_inv (colors : colors_arg) (mode harmony : string)
    (hs sa la : Z) (p : palette) :
  generate_palette colors mode harmony hs sa la = Ok p ->
  exists hsl_colors ramps semantic surface brand,
    role_colors colors harmony hs sa la = Ok hsl_colors
    /\ dict_comp (fun v => ramp <- shade_ramp v ;; Ok (Shades ramp)) hsl_colors [] = Ok ramps
    /\ semantic_colors hs sa la = Ok semantic
    /\ surface_colors mode = Ok surface
    /\ brand_colors hsl_colors
         (dict_set (dict_set ramps "semantic" (Group semantic)) "surface" (Group surface))
       = Ok brand
    /\ p = dict_set (dict_set (dict_set ramps "semantic" (Group semantic))
                              "surface" (Group surface))
                    "brand" (Group brand).
Proof.
  unfold generate_palette, palette_groups.
  destruct (role_colors colors harmony hs sa la) as [hsl_colors|] eqn:E1; [|discriminate].
  cbn [bind].
  destruct (dict_comp _ hsl_colors []) as [ramps|] eqn:E2; [|discriminate]. cbn [bind].
  destruct (semantic_colors hs sa la) as [semantic|] eqn:E3; [|discriminate]. cbn [bind].
  destruct (surface_colors mode) as [surface|] eqn:E4; [|discriminate]. cbn [bind].
  destruct (brand_colors _ _) as [brand|] eqn:E5; [|discriminate]. cbn [bind].
  intros [= <-]. exists hsl_colors, ramps, semantic, surface, brand.
  repeat split; assumption.
Qed.

Ltac str_ne := let H := fresh in intros H; discriminate H.

Lemma built_find_surface (ramps : palette) (semantic surface brand : dict string) :
  dict_find (dict_set (dict_set (dict_set ramps "semantic" (Group semantic))
                                "surface" (Group surface))
                      "brand" (Group brand)) "surface" = Some (Group surface).
Proof. rewrite dict_find_set_ne by str_ne. apply dict_find_set_eq. Qed.

Lemma built_find_brand (pal : palette) (brand : dict string) :
  dict_find (dict_set pal "brand" (Group brand)) "brand" = Some (Group brand).
Proof. apply dict_find_set_eq. Qed.

Lemma built_find_role (ramps : palette) (semantic surface brand : dict string) (k : string) :
  k <> "semantic" -> k <> "surface" -> k <> "brand" ->
  dict_find (dict_set (dict_set (dict_set ramps "semantic" (Group semantic))
                                "surface" (Group surface))
                      "brand" (Group brand)) k = dict_find ramps k.
Proof.
  intros H1 H2 H3. rewrite !dict_find_set_ne by congruence. reflexivity.
Qed.

(** *** Surface colours *)

Lemma render_achromatic :
  render (achromatic 95) = Ok "#f2f2f2" /\ render (achromatic 10) = Ok "#191919"
  /\ render (achromatic 50) = Ok "#7f7f7f" /\ render (achromatic 90) = Ok "#e5e5e5"
  /\ render (achromatic 20) = Ok "#333333".
Proof. repeat split; vm_compute; reflexivity. Qed.

Lemma surface_colors_light : surface_colors "light" = Ok light_surface.
Proof. vm_compute. reflexivity. Qed.

Lemma surface_colors_not_light (mode : string) :
  String.eqb mode "light" = false -> surface_colors mode = Ok dark_surface.
Proof. intros E. unfold surface_colors. rewrite E. vm_compute. reflexivity. Qed.

(** C9. The surface group of every built palette is fixed by the mode
    alone: the four entries are the renderings of the achromatic colours
    (hue 0, saturation 0) of lightness 95 (background) and 10 (onSurface)
    in light mode, 20 and 90 otherwise, 50 for onSurfaceVariant and 100
    minus onSurface's lightness for inverseOnSurface; the light-mode
    background is "#f2f2f2". *)
Theorem surface_group_fixed_by_mode (colors : colors_arg) (mode harmony : string)
    (hs sa la : Z) (p : palette) :
  generate_palette colors mode harmony hs sa la = Ok p ->
  exists bg os c_bg c_os c_var c_inv,
    (if String.eqb mode "light" then bg = 95 /\ os = 10 else bg = 20 /\ os = 90)
    /\ render (achromatic bg) = Ok c_bg
    /\ render (achromatic os) = Ok c_os
    /\ render (achromatic 50) = Ok c_var
    /\ render (achromatic (100 - os)) = Ok c_inv
    /\ dict_find p "surface" =
         Some (Group [ ("background", c_bg); ("onSurface", c_os);
                       ("onSurfaceVariant", c_var); ("inverseOnSurface", c_inv) ])
    /\ (mode = "light" -> c_bg = "#f2f2f2").
Proof.
  intros H.
  destruct (generate_palette_inv _ _ _ _ _ _ _ H)
    as (hsl_colors & ramps & semantic & surface & brand & _ & _ & _ & Hs & _ & ->).
  rewrite built_find_surface.
  destruct render_achromatic as (R95 & R10 & R50 & R90 & R20).
  destruct (String.eqb mode "light") eqn:E.
  - apply String.eqb_eq in E. subst mode.
    rewrite surface_colors_light in Hs. injection Hs as <-.
    exists 95, 10, "#f2f2f2", "#191919", "#7f7f7f", "#e5e5e5".
    repeat split; assumption.
  - rewrite (surface_colors_not_light mode E) in Hs. injection Hs as <-.
    exists 20, 90, "#333333", "#e5e5e5", "#7f7f7f", "#191919".
    repeat split; try assumption.
    intros ->. discriminate E.
Qed.

Lemma surface_group_fixed_by_mode_witness :
  exists p, generate_palette (Seed "#4287f5") "light" "1" 0 0 0 = Ok p
            /\ dict_find p "surface" = Some (Group light_surface).
Proof.
  destruct (generate_palette (Seed "#4287f5") "light" "1" 0 0 0) as [p|] eqn:E;
    [|vm_compute in E; discriminate E].
  exists p. split; [reflexivity|].
  destruct (surface_group_fixed_by_mode _ _ _ _ _ _ _ E)
    as (bg & os & c_bg & c_os & c_var & c_inv & Hl & Hbg & Hos & Hvar & Hinv & Hfind & _).
  simpl in Hl. destruct Hl as [-> ->]. rewrite Hfind.
  destruct render_achromatic as (R95 & R10 & R50 & R90 & R20).
  change (100 - 10) with 90 in Hinv.
  rewrite R95 in Hbg. rewrite R10 in Hos. rewrite R50 in Hvar. rewrite R90 in Hinv.
  injection Hbg as <-. injection Hos as <-. injection Hvar as <-. injection Hinv as <-.
  reflexivity.
Defined.



(** *** Clamped values are stable under a zero adjustment *)

Lemma float_add_zero (f : float) :
  (match Prim2SF f with S754_zero _ => False | _ => True end) ->
  (f + 0)%float = f.
Proof.
  intros Hf. apply Prim2SF_inj. rewrite add_spec.
  change (Prim2SF 0%float) with (S754_zero false).
  unfold SF64add, SFadd. destruct (Prim2SF f); try reflexivity. contradiction.
Qed.

Lemma add_zero_positive (x : num) : lt (Int 0) x = true -> add x (Int 0) = Ok x.
Proof.
  destruct x as [z|f]; simpl.
  - intros _. now rewrite Z.add_0_r.
  - intros Hpos. change (int_to_float 0) with (Ok 0%float). cbn [bind].
    rewrite float_add_zero; [reflexivity|].
    unfold cmp_float_int in Hpos. destruct (Prim2SF f); try exact I. discriminate Hpos.
Qed.

Lemma clamp_cases (x : num) :
  clamp x = Int 0 \/ clamp x = Int 100
  \/ (clamp x = x /\ lt (Int 0) x = true /\ lt x (Int 100) = true).
Proof.
  unfold clamp, max2, min2, gt.
  destruct (lt x (Int 100)) eqn:E1.
  - destruct (lt (Int 0) x) eqn:E2; [right; right; auto | left; reflexivity].
  - right; left. reflexivity.
Qed.

Lemma clamp_stable (x : num) :
  add (clamp x) (Int 0) = Ok (clamp x) /\ clamp (clamp x) = clamp x.
Proof.
  destruct (clamp_cases x) as [-> | [-> | (-> & Hpos & Hlt)]].
  - split; reflexivity.
  - split; reflexivity.
  - split; [now apply add_zero_positive|].
    unfold clamp, max2, min2, gt. now rewrite Hlt, Hpos.
Qed.

Lemma adjust_hsl_inv (c c' : hsl) (hs sa la : Z) :
  adjust_hsl c hs sa la = Ok c' ->
  exists h' s0 l0, c' = (h', clamp s0, clamp l0).
Proof.
  destruct c as [[h s] l]. unfold adjust_hsl.
  destruct (add h (Int hs)) as [h0|]; [|discriminate]. cbn [bind].
  destruct (rem h0 (Int 360)) as [h'|]; [|discriminate]. cbn [bind].
  destruct (add s (Int sa)) as [s0|]; [|discriminate]. cbn [bind].
  destruct (add l (Int la)) as [l0|]; [|discriminate]. cbn [bind].
  intros [= <-]. now exists h', s0, l0.
Qed.

(** A further hue shift on an adjusted colour moves the hue only. *)
Lemma adjust_hsl_hue_only (h s0 l0 : num) (k : Z) :
  adjust_hsl (h, clamp s0, clamp l0) k 0 0 =
  (h' <- wrap_plus h k ;; Ok (h', clamp s0, clamp l0)).
Proof.
  unfold adjust_hsl, wrap_plus.
  destruct (add h (Int k)) as [h0|]; [|reflexivity]. cbn [bind].
  destruct (rem h0 (Int 360)) as [h'|]; [|reflexivity]. cbn [bind].
  destruct (clamp_stable s0) as [Es Es'], (clamp_stable l0) as [El El'].
  rewrite Es. cbn [bind]. rewrite El. cbn [bind]. now rewrite Es', El'.
Qed.

(** *** Shade ramps and the brand group *)

Lemma shade_ramp_inv (c : hsl) (ramp : list string) :
  shade_ramp c = Ok ramp ->
  exists dk lt d b l,
    adjust_hsl c 0 0 (-30) = Ok dk /\ adjust_hsl c 0 0 30 = Ok lt
    /\ render dk = Ok d /\ render c = Ok b /\ render lt = Ok l
    /\ ramp = [d; b; l].
Proof.
  unfold shade_ramp, generate_shades.
  destruct (adjust_hsl c 0 0 (-30)) as [dk|] eqn:E1; [|discriminate]. cbn [bind].
  destruct (adjust_hsl c 0 0 30) as [lt|] eqn:E2; [|discriminate]. cbn [bind list_comp].
  destruct (render dk) as [d|] eqn:E3; [|discriminate]. cbn [bind].
  destruct (render c) as [b|] eqn:E4; [|discriminate]. cbn [bind].
  destruct (render lt) as [l|] eqn:E5; [|discriminate]. cbn [bind].
  intros [= <-]. exists dk, lt, d, b, l. repeat split; assumption.
Qed.

Lemma brand_colors_inv (hsl_colors : dict hsl) (pal : palette) (brand : dict string) :
  brand_colors hsl_colors pal = Ok brand ->
  exists p newPrimary c inv inversePrimary newAccent,
    dict_find pal "primary" = Some p /\ entry_index p 1 = Ok newPrimary
    /\ dict_find hsl_colors "primary" = Some c
    /\ adjust_hsl c 180 0 0 = Ok inv /\ render inv = Ok inversePrimary
    /\ (if dict_mem pal "secondary"
        then exists e, dict_find pal "secondary" = Some e /\ entry_index e 1 = Ok newAccent
        else entry_index p 2 = Ok newAccent)
    /\ brand = [ ("newPrimary", newPrimary); ("inversePrimary", inversePrimary);
                 ("newAccent", newAccent) ].
Proof.
  unfold brand_colors.
  destruct (dict_get pal "primary") as [p|] eqn:Ep; [|discriminate]. cbn [bind].
  destruct (entry_index p 1) as [np|] eqn:Enp; [|discriminate]. cbn [bind].
  destruct (dict_get hsl_colors "primary") as [c|] eqn:Ec; [|discriminate]. cbn [bind].
  destruct (adjust_hsl c 180 0 0) as [inv|] eqn:Einv; [|discriminate]. cbn [bind].
  destruct (render inv) as [ip|] eqn:Eip; [|discriminate]. cbn [bind].
  apply dict_get_Ok in Ep. apply dict_get_Ok in Ec.
  destruct (dict_mem pal "secondary") eqn:Emem.
  - destruct (dict_get pal "secondary") as [e|] eqn:Ee; [|discriminate]. cbn [bind].
    destruct (entry_index e 1) as [na|] eqn:Ena; [|discriminate]. cbn [bind].
    intros [= <-]. exists p, np, c, inv, ip, na.
    apply dict_get_Ok in Ee. repeat split; try assumption. now exists e.
  - rewrite Ep. cbn [bind].
    destruct (entry_index p 2) as [na|] eqn:Ena; [|discriminate]. cbn [bind].
    intros [= <-]. exists p, np, c, inv, ip, na.
    repeat split; assumption.
Qed.

Lemma role_colors_inv (colors : colors_arg) (harmony : string) (hs sa la : Z)
    (hsl_colors : dict hsl) :
  role_colors colors harmony hs sa la = Ok hsl_colors ->
  exists pre, base_roles colors harmony = Ok pre
              /\ adjust_all pre hs sa la = Ok hsl_colors.
Proof.
  unfold role_colors. destruct (base_roles colors harmony) as [pre|]; [|discriminate].
  cbn [bind]. intros H. now exists pre.
Qed.

Lemma derive_roles_NoDup (d d' : dict hsl) (harmony : string) :
  derive_roles d harmony = Ok d' -> NoDup (keys d) -> NoDup (keys d').
Proof.
  unfold derive_roles. intros H Hnd.
  destruct (dict_mem d "primary" && (List.length d <? 3)%nat); [|now injection H as <-].
  destruct (dict_get d "primary") as [p|]; [|discriminate]. cbn [bind] in H.
  destruct (generate_harmony_colors p harmony) as [hc|]; [|discriminate]. cbn [bind] in H.
  assert (Hmid : forall d1 : dict hsl,
             (if negb (dict_mem d "secondary")
              then c <- list_get hc 1 ;; Ok (dict_set d "secondary" c)
              else Ok d) = Ok d1 -> NoDup (keys d1)).
  { intros d1. destruct (negb (dict_mem d "secondary")).
    - destruct (list_get hc 1) as [c|]; [|discriminate]. cbn [bind].
      intros [= <-]. now apply NoDup_keys_set.
    - now intros [= <-]. }
  destruct (if negb (dict_mem d "secondary") then _ else _) as [d1|]; [|discriminate].
  cbn [bind] in H. specialize (Hmid d1 eq_refl).
  destruct (negb (dict_mem d1 "tertiary") && (2 <? List.length hc)%nat).
  - destruct (list_get hc 2) as [c|]; [|discriminate]. cbn [bind] in H.
    injection H as <-. now apply NoDup_keys_set.
  - now injection H as <-.
Qed.

Lemma base_roles_NoDup (colors : colors_arg) (harmony : string) (d : dict hsl) :
  base_roles colors harmony = Ok d -> NoDup (keys d).
Proof.
  unfold base_roles, input_hsl.
  destruct (dict_comp _ _ []) as [d0|] eqn:E; [|discriminate]. cbn [bind].
  intros H. eapply derive_roles_NoDup; [eassumption|].
  eapply dict_comp_NoDup; [eassumption|constructor].
Qed.

Lemma adjust_all_NoDup (pre d : dict hsl) (hs sa la : Z) :
  adjust_all pre hs sa la = Ok d -> NoDup (keys d).
Proof. intros H. eapply dict_comp_NoDup; [exact H|constructor]. Qed.

Lemma ramps_find (hsl_colors : dict hsl) (ramps : palette) (k : string) :
  NoDup (keys hsl_colors) ->
  dict_comp (fun v => ramp <- shade_ramp v ;; Ok (Shades ramp)) hsl_colors [] = Ok ramps ->
  match dict_find hsl_colors k with
  | Some c => exists ramp, shade_ramp c = Ok ramp /\ dict_find ramps k = Some (Shades ramp)
  | None => dict_find ramps k = None
  end.
Proof.
  intros Hnd H. pose proof (dict_comp_find _ _ Hnd _ _ k H) as F.
  destruct (dict_find hsl_colors k) as [c|]; [|exact F].
  destruct F as (b & Hb & Hfind).
  destruct (shade_ramp c) as [ramp|]; [|discriminate]. cbn [bind] in Hb.
  injection Hb as <-. now exists ramp.
Qed.

(** C2, as stated, fails on both branches. From the seed [#4287f5] the
    secondary ramp is (#965f07, #f4b042, #fcecd3) and newAccent is its
    middle shade #f4b042, not the lightest. With primary, tertiary and a
    third role but no secondary, the primary ramp is
    (#660000, #ff0000, #ff9999) and newAccent is its lightest shade
    #ff9999, not the darkest. *)
Lemma new_accent_is_not_as_claimed :
  (exists p brand,
     generate_palette (Seed "#4287f5") "light" "1" 0 0 0 = Ok p
     /\ dict_find p "secondary" = Some (Shades ["#965f07"; "#f4b042"; "#fcecd3"])
     /\ dict_find p "brand" = Some (Group brand)
     /\ dict_find brand "newAccent" = Some "#f4b042"
     /\ "#f4b042" <> "#fcecd3")
  /\ (exists p brand,
        generate_palette
          (Roles [("primary", "#ff0000"); ("tertiary", "#00ff00"); ("accent", "#0000ff")])
          "light" "1" 0 0 0 = Ok p
        /\ dict_find p "secondary" = None
        /\ dict_find p "primary" = Some (Shades ["#660000"; "#ff0000"; "#ff9999"])
        /\ dict_find p "brand" = Some (Group brand)
        /\ dict_find brand "newAccent" = Some "#ff9999"
        /\ "#ff9999" <> "#660000").
Proof.
  split.
  - eexists _, _. split; [vm_compute; reflexivity|].
    repeat split; try reflexivity. discriminate.
  - eexists _, _. split; [vm_compute; reflexivity|].
    repeat split; try reflexivity. discriminate.
Qed.

(** C2 (amended). In the brand group of every built palette, newAccent is
    the middle (base) shade of secondary's ramp - the rendering of the
    adjusted secondary colour itself - when the palette has a secondary
    role, and otherwise the last (lightest) shade of primary's ramp - the
    rendering of the adjusted primary colour with lightness +30; a ramp
    being ordered (darker, base, lighter). *)
Theorem new_accent_source (colors : colors_arg) (mode harmony : string)
    (hs sa la : Z) (p : palette) :
  generate_palette colors mode harmony hs sa la = Ok p ->
  exists hsl_colors brand accent,
    role_colors colors harmony hs sa la = Ok hsl_colors
    /\ dict_find p "brand" = Some (Group brand)
    /\ dict_find brand "newAccent" = Some accent
    /\ match dict_find hsl_colors "secondary" with
       | Some c =>
           render c = Ok accent
           /\ exists d l, dict_find p "secondary" = Some (Shades [d; accent; l])
       | None =>
           dict_find p "secondary" = None
           /\ exists c lighter d b,
                dict_find hsl_colors "primary" = Some c
                /\ adjust_hsl c 0 0 30 = Ok lighter
                /\ render lighter = Ok accent
                /\ dict_find p "primary" = Some (Shades [d; b; accent])
       end.
Proof.
  intros H.
  destruct (generate_palette_inv _ _ _ _ _ _ _ H)
    as (hsl_colors & ramps & semantic & surface & brand & Hroles & Hramps & _ & _ & Hbrand & ->).
  destruct (role_colors_inv _ _ _ _ _ _ Hroles) as (pre & _ & Hadj).
  pose proof (adjust_all_NoDup _ _ _ _ _ Hadj) as Hnd.
  destruct (brand_colors_inv _ _ _ Hbrand)
    as (e1 & np & c1 & inv & ip & na & Hp & Hnp & Hc1 & _ & _ & Hna & ->).
  exists hsl_colors, [("newPrimary", np); ("inversePrimary", ip); ("newAccent", na)], na.
  split; [assumption|]. split; [apply built_find_brand|]. split; [reflexivity|].
  rewrite !built_find_role by str_ne.
  unfold dict_mem in Hna. rewrite !dict_find_set_ne in Hna, Hp by str_ne.
  pose proof (ramps_find _ _ "secondary" Hnd Hramps) as F2.
  pose proof (ramps_find _ _ "primary" Hnd Hramps) as F1.
  destruct (dict_find hsl_colors "secondary") as [c2|].
  - destruct F2 as (ramp & Hramp & Hfind). rewrite Hfind in Hna.
    destruct Hna as (e & [= <-] & Hidx).
    destruct (shade_ramp_inv _ _ Hramp) as (dk & lt & d & b & l & _ & _ & _ & Hb & _ & ->).
    rewrite Hfind. injection Hidx as <-. split; [assumption|]. now exists d, l.
  - rewrite F2 in Hna. split; [assumption|].
    rewrite Hc1 in F1. destruct F1 as (ramp & Hramp & Hfind).
    rewrite Hfind in Hp. injection Hp as <-.
    destruct (shade_ramp_inv _ _ Hramp) as (dk & lt & d & b & l & _ & Hlt & _ & _ & Hl & ->).
    injection Hna as <-. exists c1, lt, d, b. repeat split; assumption.
Qed.

Lemma new_accent_source_witness :
  exists p brand,
    generate_palette (Seed "#4287f5") "light" "1" 0 0 0 = Ok p
    /\ dict_find p "brand" = Some (Group brand)
    /\ dict_find brand "newAccent" = Some "#f4b042".
Proof.
  destruct (generate_palette (Seed "#4287f5") "light" "1" 0 0 0) as [p|] eqn:E;
    [|vm_compute in E; discriminate E].
  destruct (new_accent_source _ _ _ _ _ _ _ E)
    as (hsl_colors & brand & accent & Hroles & Hbrand & Hacc & Hsrc).
  exists p, brand. split; [reflexivity|]. split; [assumption|].
  rewrite Hacc. f_equal.
  vm_compute in Hroles. injection Hroles as <-.
  cbn [dict_find String.eqb Ascii.eqb Bool.eqb] in Hsrc.
  destruct Hsrc as [Hr _]. vm_compute in Hr. now injection Hr as <-.
Defined.

(** C3. In every built palette, brand.inversePrimary is the rendering of
    the primary colour after the global adjustment, with the hue moved a
    further 180 degrees (wrapped by [% 360]) on top of the adjusted hue, and
    with the adjusted saturation and lightness as they are. *)
Theorem inverse_primary_stacks_on_adjusted (colors : colors_arg) (mode harmony : string)
    (hs sa la : Z) (p : palette) :
  generate_palette colors mode harmony hs sa la = Ok p ->
  exists pre c h s l h180 inv brand,
    base_roles colors harmony = Ok pre
    /\ dict_find pre "primary" = Some c
    /\ adjust_hsl c hs sa la = Ok (h, s, l)
    /\ wrap_plus h 180 = Ok h180
    /\ render (h180, s, l) = Ok inv
    /\ dict_find p "brand" = Some (Group brand)
    /\ dict_find brand "inversePrimary" = Some inv.
Proof.
  intros H.
  destruct (generate_palette_inv _ _ _ _ _ _ _ H)
    as (hsl_colors & ramps & semantic & surface & brand & Hroles & _ & _ & _ & Hbrand & ->).
  destruct (role_colors_inv _ _ _ _ _ _ Hroles) as (pre & Hpre & Hadj).
  pose proof (base_roles_NoDup _ _ _ Hpre) as Hnd.
  destruct (brand_colors_inv _ _ _ Hbrand)
    as (e1 & np & c1 & inv & ip & na & _ & _ & Hc1 & Hinv & Hip & _ & ->).
  pose proof (dict_comp_find _ _ Hnd _ _ "primary" Hadj) as F.
  destruct (dict_find pre "primary") as [c|] eqn:Ec.
  2:{ rewrite Hc1 in F. discriminate F. }
  destruct F as (c1' & Hc & Hfind). rewrite Hc1 in Hfind. injection Hfind as <-.
  destruct (adjust_hsl_inv _ _ _ _ _ Hc) as (h & s0 & l0 & ->).
  rewrite adjust_hsl_hue_only in Hinv.
  destruct (wrap_plus h 180) as [h180|] eqn:E180; [|discriminate]. cbn [bind] in Hinv.
  injection Hinv as <-.
  exists pre, c, h, (clamp s0), (clamp l0), h180, ip,
    [("newPrimary", np); ("inversePrimary", ip); ("newAccent", na)].
  repeat split; try assumption; try reflexivity.
  apply built_find_brand.
Qed.

Lemma inverse_primary_stacks_on_adjusted_witness :
  exists p brand inv,
    generate_palette (Seed "#4287f5") "light" "1" 25 (-10) 7 = Ok p
    /\ dict_find p "brand" = Some (Group brand)
    /\ dict_find brand "inversePrimary" = Some inv.
Proof.
  destruct (generate_palette (Seed "#4287f5") "light" "1" 25 (-10) 7) as [p|] eqn:E;
    [|vm_compute in E; discriminate E].
  destruct (inverse_primary_stacks_on_adjusted _ _ _ _ _ _ _ E)
    as (pre & c & h & s & l & h180 & inv & brand & _ & _ & _ & _ & _ & Hb & Hi).
  exists p, brand, inv. split; [reflexivity|]. split; assumption.
Defined.

(** *** Which exceptions a call can raise *)

Lemma raises_Ok {A : Type} (P : exn -> Prop) (a : A) : raises P (Ok a).
Proof. intros e. discriminate. Qed.

Lemma raises_Err {A : Type} (P : exn -> Prop) (e : exn) : P e -> raises P (@Err A e).
Proof. intros He e' [= <-]. exact He. Qed.

Lemma raises_bind {A B : Type} (P : exn -> Prop) (m : result A) (k : A -> result B) :
  raises P m -> (forall a, m = Ok a -> raises P (k a)) -> raises P (bind m k).
Proof.
  intros Hm Hk e. destruct m as [a|e']; simpl.
  - now apply Hk.
  - intros [= <-]. now apply Hm.
Qed.

Ltac raises_step :=
  match goal with
  | |- raises _ (Ok _) => apply raises_Ok
  | |- raises _ (Err _) => apply raises_Err; exact I
  | |- raises _ (bind _ _) => apply raises_bind; [|intros ? ?]
  | |- raises _ (if ?b then _ else _) => destruct b
  | |- raises _ (match ?x with _ => _ end) => destruct x
  | |- raises _ _ => solve [eauto with raises]
  end.

Ltac raises_auto := repeat raises_step.

Create HintDb raises.

Lemma int_to_float_raises (z : Z) : raises not_KeyError (int_to_float z).
Proof. unfold int_to_float. raises_auto. Qed.
#[local] Hint Resolve int_to_float_raises : raises.

Lemma to_float_raises (a : num) : raises not_KeyError (to_float a).
Proof. unfold to_float. raises_auto. Qed.
#[local] Hint Resolve to_float_raises : raises.

Lemma float_rem_raises (x y : float) : raises not_KeyError (float_rem x y).
Proof. unfold float_rem. raises_auto. Qed.
#[local] Hint Resolve float_rem_raises : raises.

Lemma float_div_raises (x y : float) : raises not_KeyError (float_div x y).
Proof. unfold float_div. raises_auto. Qed.
#[local] Hint Resolve float_div_raises : raises.

Lemma float_to_int_raises (x : float) : raises not_KeyError (float_to_int x).
Proof. unfold float_to_int. raises_auto. Qed.
#[local] Hint Resolve float_to_int_raises : raises.

Lemma arith_raises (fz : Z -> Z -> Z) (ff : float -> float -> float) (a b : num) :
  raises not_KeyError (arith fz ff a b).
Proof. unfold arith. raises_auto. Qed.
#[local] Hint Resolve arith_raises : raises.

Lemma add_raises (a b : num) : raises not_KeyError (add a b).
Proof. apply arith_raises. Qed.

Lemma sub_raises (a b : num) : raises not_KeyError (sub a b).
Proof. apply arith_raises. Qed.
#[local] Hint Resolve add_raises sub_raises : raises.

Lemma rem_raises (a b : num) : raises not_KeyError (rem a b).
Proof. unfold rem. raises_auto. Qed.
#[local] Hint Resolve rem_raises : raises.

Lemma div_raises (a : num) (b : float) : raises not_KeyError (div a b).
Proof. unfold div. raises_auto. Qed.
#[local] Hint Resolve div_raises : raises.

Lemma hex_to_rgb_raises (s : string) : raises not_KeyError (hex_to_rgb s).
Proof. intros e He. now rewrite (hex_to_rgb_raises_ValueError s e He). Qed.
#[local] Hint Resolve hex_to_rgb_raises : raises.

Lemma rgb_to_hls_raises (r g b : float) : raises not_KeyError (Colorsys.rgb_to_hls r g b).
Proof. unfold Colorsys.rgb_to_hls. raises_auto. Qed.
#[local] Hint Resolve rgb_to_hls_raises : raises.

Lemma _v_raises (m1 m2 hue : float) : raises not_KeyError (Colorsys._v m1 m2 hue).
Proof. unfold Colorsys._v. raises_auto. Qed.
#[local] Hint Resolve _v_raises : raises.

Lemma hls_to_rgb_raises (h l s : float) : raises not_KeyError (Colorsys.hls_to_rgb h l s).
Proof. unfold Colorsys.hls_to_rgb. raises_auto. Qed.
#[local] Hint Resolve hls_to_rgb_raises : raises.

Lemma rgb_to_hsl_raises (c : rgb) : raises not_KeyError (rgb_to_hsl c).
Proof. destruct c as [[r g] b]. unfold rgb_to_hsl. raises_auto. Qed.
#[local] Hint Resolve rgb_to_hsl_raises : raises.

Lemma hsl_to_rgb_raises (c : hsl) : raises not_KeyError (hsl_to_rgb c).
Proof. destruct c as [[h s] l]. unfold hsl_to_rgb. raises_auto. Qed.
#[local] Hint Resolve hsl_to_rgb_raises : raises.

Lemma render_raises (c : hsl) : raises not_KeyError (render c).
Proof. unfold render. raises_auto. Qed.
#[local] Hint Resolve render_raises : raises.

Lemma adjust_hsl_raises (c : hsl) (hs sa la : Z) :
  raises not_KeyError (adjust_hsl c hs sa la).
Proof. destruct c as [[h s] l]. unfold adjust_hsl. raises_auto. Qed.
#[local] Hint Resolve adjust_hsl_raises : raises.

Lemma list_get_raises {A : Type} (l : list A) (i : nat) : raises not_KeyError (list_get l i).
Proof. unfold list_get. raises_auto. Qed.
#[local] Hint Resolve list_get_raises : raises.

Lemma list_comp_raises {A B : Type} (f : A -> result B) (l : list A) :
  (forall a, raises not_KeyError (f a)) -> raises not_KeyError (list_comp f l).
Proof.
  intros Hf. induction l as [|x l IH]; simpl; raises_auto.
Qed.

Lemma shade_ramp_raises (c : hsl) : raises not_KeyError (shade_ramp c).
Proof.
  unfold shade_ramp, generate_shades. raises_auto.
  apply list_comp_raises. intros. apply render_raises.
Qed.
#[local] Hint Resolve shade_ramp_raises : raises.

Lemma dict_comp_raises_not_KeyError {A B : Type} (f : A -> result B)
    (items : dict A) (acc : dict B) :
  (forall a, raises not_KeyError (f a)) -> raises not_KeyError (dict_comp f items acc).
Proof. intros Hf e He. eapply dict_comp_raises; [|exact He]. intros a e'. apply Hf. Qed.

Lemma input_hsl_raises (colors : colors_arg) : raises not_KeyError (input_hsl colors).
Proof.
  unfold input_hsl. apply dict_comp_raises_not_KeyError. intros v. raises_auto.
Qed.

Lemma adjust_all_raises (d : dict hsl) (hs sa la : Z) :
  raises not_KeyError (adjust_all d hs sa la).
Proof. unfold adjust_all. apply dict_comp_raises_not_KeyError. intros v. raises_auto. Qed.

Lemma semantic_colors_raises (hs sa la : Z) : raises not_KeyError (semantic_colors hs sa la).
Proof.
  unfold semantic_colors. apply dict_comp_raises_not_KeyError. intros v. raises_auto.
Qed.

Lemma surface_colors_raises (mode : string) : raises not_KeyError (surface_colors mode).
Proof. unfold surface_colors. raises_auto. Qed.

Lemma wrap_plus_raises (h : num) (k : Z) : raises not_KeyError (wrap_plus h k).
Proof. unfold wrap_plus. raises_auto. Qed.

Lemma wrap_minus_raises (h : num) (k : Z) : raises not_KeyError (wrap_minus h k).
Proof. unfold wrap_minus. raises_auto. Qed.
#[local] Hint Resolve wrap_plus_raises wrap_minus_raises : raises.

Lemma harmony_raises (c : hsl) (harmony : string) :
  known_scheme harmony = true -> raises not_KeyError (generate_harmony_colors c harmony).
Proof.
  intros Hk. destruct c as [[h s] l]. rewrite generate_harmony_colors_hues.
  unfold known_scheme in Hk. unfold scheme_hues.
  destruct (String.eqb harmony "1"); [raises_auto|].
  destruct (String.eqb harmony "2"); [raises_auto|].
  destruct (String.eqb harmony "3"); [raises_auto|].
  destruct (String.eqb harmony "4"); [raises_auto|discriminate].
Qed.

Lemma derive_roles_raises (d : dict hsl) (harmony : string) :
  known_scheme harmony = true -> raises not_KeyError (derive_roles d harmony).
Proof.
  intros Hk. unfold derive_roles.
  destruct (dict_mem d "primary") eqn:Em; cbn [andb]; [|raises_auto].
  destruct (List.length d <? 3)%nat; [|raises_auto].
  unfold dict_mem in Em. unfold dict_get at 1.
  destruct (dict_find d "primary") as [p|]; [|discriminate]. cbn [bind].
  apply raises_bind; [now apply harmony_raises|]. intros hc _. raises_auto.
Qed.

(** *** The primary role and [KeyError] *)

Lemma palette_groups_inv (colors : colors_arg) (mode harmony : string)
    (hs sa la : Z) (hsl_colors : dict hsl) (pal : palette) :
  palette_groups colors mode harmony hs sa la = Ok (hsl_colors, pal) ->
  exists ramps semantic surface,
    role_colors colors harmony hs sa la = Ok hsl_colors
    /\ dict_comp (fun v => ramp <- shade_ramp v ;; Ok (Shades ramp)) hsl_colors [] = Ok ramps
    /\ pal = dict_set (dict_set ramps "semantic" (Group semantic)) "surface" (Group surface).
Proof.
  unfold palette_groups.
  destruct (role_colors colors harmony hs sa la) as [h|] eqn:E1; [|discriminate].
  cbn [bind].
  destruct (dict_comp _ h []) as [ramps|] eqn:E2; [|discriminate]. cbn [bind].
  destruct (semantic_colors hs sa la) as [semantic|]; [|discriminate]. cbn [bind].
  destruct (surface_colors mode) as [surface|]; [|discriminate]. cbn [bind].
  intros [= <- <-]. now exists ramps, semantic, surface.
Qed.

Lemma input_hsl_mem_primary (colors : colors_arg) (d : dict hsl) :
  input_hsl colors = Ok d -> dict_mem d "primary" = supplies_primary colors.
Proof.
  unfold input_hsl. intros H. rewrite (dict_comp_mem _ _ _ _ "primary" H).
  destruct colors; reflexivity.
Qed.

Lemma derive_roles_mem_primary (d d' : dict hsl) (harmony : string) :
  derive_roles d harmony = Ok d' -> dict_mem d' "primary" = dict_mem d "primary".
Proof.
  unfold derive_roles.
  destruct (dict_mem d "primary" && (List.length d <? 3)%nat); [|now intros [= <-]].
  destruct (dict_get d "primary") as [p|]; [|discriminate]. cbn [bind].
  destruct (generate_harmony_colors p harmony) as [hc|]; [|discriminate]. cbn [bind].
  assert (Hmid : forall d1 : dict hsl,
             (if negb (dict_mem d "secondary")
              then c <- list_get hc 1 ;; Ok (dict_set d "secondary" c)
              else Ok d) = Ok d1 -> dict_mem d1 "primary" = dict_mem d "primary").
  { intros d1. destruct (negb (dict_mem d "secondary")).
    - destruct (list_get hc 1) as [c|]; [|discriminate]. cbn [bind].
      intros [= <-]. now rewrite dict_mem_set.
    - now intros [= <-]. }
  destruct (if negb (dict_mem d "secondary") then _ else _) as [d1|]; [|discriminate].
  cbn [bind]. specialize (Hmid d1 eq_refl).
  destruct (negb (dict_mem d1 "tertiary") && (2 <? List.length hc)%nat).
  - destruct (list_get hc 2) as [c|]; [|discriminate]. cbn [bind].
    intros [= <-]. now rewrite dict_mem_set.
  - now intros [= <-].
Qed.

Lemma role_colors_mem_primary (colors : colors_arg) (harmony : string) (hs sa la : Z)
    (d : dict hsl) :
  role_colors colors harmony hs sa la = Ok d ->
  dict_mem d "primary" = supplies_primary colors.
Proof.
  unfold role_colors, base_roles.
  destruct (input_hsl colors) as [d0|] eqn:E0; [|discriminate]. cbn [bind].
  destruct (derive_roles d0 harmony) as [d1|] eqn:E1; [|discriminate]. cbn [bind].
  intros H. unfold adjust_all in H. rewrite (dict_comp_mem _ _ _ _ "primary" H).
  rewrite (derive_roles_mem_primary _ _ _ E1). now apply input_hsl_mem_primary.
Qed.

Lemma role_colors_NoDup (colors : colors_arg) (harmony : string) (hs sa la : Z)
    (d : dict hsl) :
  role_colors colors harmony hs sa la = Ok d -> NoDup (keys d).
Proof.
  intros H. destruct (role_colors_inv _ _ _ _ _ _ H) as (pre & _ & Hadj).
  now apply adjust_all_NoDup in Hadj.
Qed.

Lemma missing_primary_raises (colors : colors_arg) (mode harmony : string) (hs sa la : Z) :
  supplies_primary colors = false ->
  generate_palette colors mode harmony hs sa la =
  (x <- palette_groups colors mode harmony hs sa la ;; Err (KeyError (StrKey "primary"))).
Proof.
  intros Hno. unfold generate_palette.
  destruct (palette_groups colors mode harmony hs sa la) as [[hsl_colors pal]|] eqn:E;
    [|reflexivity].
  cbn [bind].
  destruct (palette_groups_inv _ _ _ _ _ _ _ _ E) as (ramps & semantic & surface & Hr & Hramps & ->).
  pose proof (role_colors_mem_primary _ _ _ _ _ _ Hr) as Hmem. rewrite Hno in Hmem.
  pose proof (ramps_find _ _ "primary" (role_colors_NoDup _ _ _ _ _ _ Hr) Hramps) as F.
  unfold dict_mem in Hmem. destruct (dict_find hsl_colors "primary"); [discriminate|].
  unfold brand_colors, dict_get. rewrite !dict_find_set_ne by str_ne.
  now rewrite F.
Qed.

Lemma palette_groups_raises (colors : colors_arg) (mode harmony : string) (hs sa la : Z) :
  known_scheme harmony = true ->
  raises not_KeyError (palette_groups colors mode harmony hs sa la).
Proof.
  intros Hk. unfold palette_groups, role_colors, base_roles.
  pose proof input_hsl_raises. pose proof adjust_all_raises.
  pose proof semantic_colors_raises. pose proof surface_colors_raises.
  pose proof (fun d => derive_roles_raises d harmony Hk).
  raises_auto.
  apply dict_comp_raises_not_KeyError. intros v. raises_auto.
Qed.

Lemma brand_colors_raises (hsl_colors : dict hsl) (ramps : palette)
    (semantic surface : dict string) :
  NoDup (keys hsl_colors) ->
  dict_comp (fun v => ramp <- shade_ramp v ;; Ok (Shades ramp)) hsl_colors [] = Ok ramps ->
  dict_mem hsl_colors "primary" = true ->
  raises not_KeyError
    (brand_colors hsl_colors
       (dict_set (dict_set ramps "semantic" (Group semantic)) "surface" (Group surface))).
Proof.
  intros Hnd Hramps Hmem.
  pose proof (ramps_find _ _ "primary" Hnd Hramps) as F1.
  pose proof (ramps_find _ _ "secondary" Hnd Hramps) as F2.
  unfold dict_mem in Hmem.
  destruct (dict_find hsl_colors "primary") as [c|] eqn:Ec; [|discriminate].
  destruct F1 as (ramp & _ & Hp).
  unfold brand_colors, dict_mem, dict_get.
  rewrite !dict_find_set_ne by str_ne. rewrite Hp, Ec. cbn [bind entry_index].
  destruct (dict_find hsl_colors "secondary") as [c2|].
  - destruct F2 as (ramp2 & _ & ->). cbn [bind entry_index]. raises_auto.
  - rewrite F2. cbn [bind entry_index]. raises_auto.
Qed.

Lemma with_primary_no_KeyError (colors : colors_arg) (mode harmony : string) (hs sa la : Z) :
  supplies_primary colors = true -> known_scheme harmony = true ->
  raises not_KeyError (generate_palette colors mode harmony hs sa la).
Proof.
  intros Hp Hk. unfold generate_palette.
  apply raises_bind; [now apply palette_groups_raises|].
  intros [hsl_colors pal] E.
  destruct (palette_groups_inv _ _ _ _ _ _ _ _ E) as (ramps & semantic & surface & Hr & Hramps & ->).
  apply raises_bind; [|intros; raises_auto].
  apply brand_colors_raises.
  - eapply role_colors_NoDup; eassumption.
  - assumption.
  - now rewrite (role_colors_mem_primary _ _ _ _ _ _ Hr).
Qed.

(** C1, as stated, fails: three roles given explicitly, none of them
    [primary], all valid colours. The call does not return a palette; the
    look-up of the primary role for the brand group raises
    [KeyError('primary')]. *)
Lemma three_roles_without_primary_fail :
  generate_palette
    (Roles [("secondary", "#00ff00"); ("tertiary", "#0000ff"); ("accent", "#ff0000")])
    "light" "1" 0 0 0
  = Err (KeyError (StrKey "primary")).
Proof. vm_compute. reflexivity. Qed.

(** ** Binary64 values as reals *)

Lemma pow2_pos (e : Z) : (0 < pow2 e)%R.
Proof. apply powerRZ_lt. lra. Qed.

Lemma pow2_add (a b : Z) : pow2 (a + b) = (pow2 a * pow2 b)%R.
Proof. apply powerRZ_add. lra. Qed.

Lemma pow2_IZR (e : Z) : 0 <= e -> pow2 e = IZR (2 ^ e).
Proof.
  intros He. unfold pow2. rewrite <- (Z2Nat.id e He).
  rewrite <- pow_powerRZ. apply pow_IZR.
Qed.

Lemma pow2_le (a b : Z) : a <= b -> (pow2 a <= pow2 b)%R.
Proof.
  intros H. replace b with (a + (b - a)) by lia. rewrite pow2_add.
  rewrite (pow2_IZR (b - a)) by lia.
  assert (1 <= IZR (2 ^ (b - a)))%R.
  { apply IZR_le. assert (0 < 2 ^ (b - a)) by (apply Z.pow_pos_nonneg; lia). lia. }
  pose proof (pow2_pos a). nra.
Qed.

Lemma pow2_0 : pow2 0 = 1%R.
Proof. reflexivity. Qed.

Lemma pow2_succ (e : Z) : pow2 (e + 1) = (2 * pow2 e)%R.
Proof. rewrite pow2_add. change (pow2 1) with (2 * 1)%R. lra. Qed.

(** ** Digits *)

Lemma digits2_pos_bounds (p : positive) :
  2 ^ (Zpos (digits2_pos p) - 1) <= Zpos p < 2 ^ Zpos (digits2_pos p).
Proof.
  induction p as [p IH|p IH|]; cbn [digits2_pos].
  - rewrite Pos2Z.inj_succ.
    replace (Z.succ (Zpos (digits2_pos p)) - 1) with ((Zpos (digits2_pos p) - 1) + 1) by lia.
    rewrite Z.pow_succ_r by lia.
    assert (0 <= Zpos (digits2_pos p) - 1) by lia.
    rewrite Z.pow_add_r by lia. change (2 ^ 1) with 2. lia.
  - rewrite Pos2Z.inj_succ.
    replace (Z.succ (Zpos (digits2_pos p)) - 1) with ((Zpos (digits2_pos p) - 1) + 1) by lia.
    rewrite Z.pow_succ_r by lia.
    assert (0 <= Zpos (digits2_pos p) - 1) by lia.
    rewrite Z.pow_add_r by lia. change (2 ^ 1) with 2. lia.
  - simpl. lia.
Qed.

Lemma Zdigits2_nonneg (m : Z) : 0 <= Zdigits2 m.
Proof. destruct m; simpl; lia. Qed.

Lemma Zdigits2_lt (m : Z) : 0 <= m -> m < 2 ^ Zdigits2 m.
Proof.
  destruct m as [|p|p]; simpl; try lia. intros _. apply digits2_pos_bounds.
Qed.

(** A number below [2^k] has at most [k] digits. *)
Lemma Zdigits2_le (m k : Z) : 0 <= m -> 0 <= k -> m < 2 ^ k -> Zdigits2 m <= k.
Proof.
  intros Hm Hk Hlt. destruct m as [|p|p]; simpl; try lia.
  pose proof (digits2_pos_bounds p) as [Hlo _].
  destruct (Z_le_gt_dec (Zpos (digits2_pos p)) k) as [|Hgt]; [assumption|].
  exfalso. assert (2 ^ k <= 2 ^ (Zpos (digits2_pos p) - 1)) by (apply Z.pow_le_mono_r; lia).
  lia.
Qed.

(** ** Right shifts of a mantissa *)

Lemma shr_1_m (r : shr_record) : 0 <= shr_m r -> shr_m (shr_1 r) = Z.div2 (shr_m r).
Proof. destruct r as [[|[p|p|]|p] rb sb]; simpl; intros H; try reflexivity; lia. Qed.

Lemma iter_shr_1_m (p : positive) :
  forall r : shr_record,
    0 <= shr_m r -> shr_m (SpecFloat.iter_pos shr_1 p r) = shr_m r / 2 ^ Zpos p.
Proof.
  induction p as [p IH|p IH|]; intros r Hr; cbn [SpecFloat.iter_pos].
  - assert (H1 : 0 <= shr_m (shr_1 r)).
    { rewrite shr_1_m by assumption. rewrite Z.div2_div. apply Z.div_pos; lia. }
    assert (H2 : 0 <= shr_m (SpecFloat.iter_pos shr_1 p (shr_1 r))).
    { rewrite IH by assumption. apply Z.div_pos; [assumption|]. apply Z.pow_pos_nonneg; lia. }
    rewrite IH, IH by assumption. rewrite shr_1_m, Z.div2_div by assumption.
    rewrite !Z.div_div by (try apply Z.pow_pos_nonneg; lia).
    f_equal. rewrite Pos2Z.inj_xI. rewrite <- Z.pow_add_r, <- Z.pow_succ_r by lia.
    f_equal. lia.
  - assert (H2 : 0 <= shr_m (SpecFloat.iter_pos shr_1 p r)).
    { rewrite IH by assumption. apply Z.div_pos; [assumption|]. apply Z.pow_pos_nonneg; lia. }
    rewrite IH, IH by assumption.
    rewrite !Z.div_div by (try apply Z.pow_pos_nonneg; lia).
    f_equal. rewrite Pos2Z.inj_xO. rewrite <- Z.pow_add_r by lia. f_equal. lia.
  - rewrite shr_1_m, Z.div2_div by assumption. reflexivity.
Qed.

Lemma shr_m_of_loc (m : Z) (l : location) : shr_m (shr_record_of_loc m l) = m.
Proof. destruct l as [|[]]; reflexivity. Qed.

(** One call of [shr]: the mantissa is divided by a power of two and the
    value is kept up to one unit of the new exponent. *)
Lemma shr_spec (m e n : Z) (l : location) :
  0 <= m ->
  exists q e1,
    shr (shr_record_of_loc m l) e n = (q, e1)
    /\ 0 <= shr_m q /\ e1 = Z.max e (e + n)
    /\ shr_m q * 2 ^ (e1 - e) <= m < (shr_m q + 1) * 2 ^ (e1 - e).
Proof.
  intros Hm. unfold shr. destruct n as [|p|p].
  - exists (shr_record_of_loc m l), e. rewrite shr_m_of_loc.
    replace (Z.max e (e + 0)) with e by lia. rewrite Z.sub_diag. simpl.
    repeat split; lia.
  - exists (SpecFloat.iter_pos shr_1 p (shr_record_of_loc m l)), (e + Zpos p).
    rewrite iter_shr_1_m by (rewrite shr_m_of_loc; assumption). rewrite shr_m_of_loc.
    replace (Z.max e (e + Zpos p)) with (e + Zpos p) by lia.
    replace (e + Zpos p - e) with (Zpos p) by lia.
    assert (Hpow : 0 < 2 ^ Zpos p) by (apply Z.pow_pos_nonneg; lia).
    split; [reflexivity|]. split; [apply Z.div_pos; lia|]. split; [reflexivity|].
    pose proof (Z.div_mod m (2 ^ Zpos p) ltac:(lia)) as Hdm.
    pose proof (Z.mod_pos_bound m (2 ^ Zpos p) Hpow) as Hmod.
    split; nia.
  - exists (shr_record_of_loc m l), e. rewrite shr_m_of_loc.
    replace (Z.max e (e + Zneg p)) with e by lia. rewrite Z.sub_diag. simpl.
    repeat split; lia.
Qed.

Lemma round_nearest_even_bounds (m : Z) (l : location) :
  m <= round_nearest_even m l <= m + 1.
Proof. destruct l as [|[]]; simpl; try lia. destruct (Z.even m); lia. Qed.

(** ** Rounding to binary64, up to two units in the last place *)

Lemma fexp64_eq (e : Z) : fexp64 e = Z.max (e - 53) (-1074).
Proof. reflexivity. Qed.

Lemma fexp64_mono (a b : Z) : a <= b -> fexp64 a <= fexp64 b.
Proof. rewrite !fexp64_eq. lia. Qed.

Lemma Zscale_le (a b e e1 : Z) :
  e <= e1 -> a * 2 ^ (e1 - e) <= b -> (IZR a * pow2 e1 <= IZR b * pow2 e)%R.
Proof.
  intros He H. replace e1 with ((e1 - e) + e) at 1 by lia.
  rewrite pow2_add, (pow2_IZR (e1 - e)) by lia. rewrite <- Rmult_assoc, <- mult_IZR.
  apply Rmult_le_compat_r; [left; apply pow2_pos|]. now apply IZR_le.
Qed.

Lemma Zscale_lt (a b e e1 : Z) :
  e <= e1 -> b < a * 2 ^ (e1 - e) -> (IZR b * pow2 e < IZR a * pow2 e1)%R.
Proof.
  intros He H. replace e1 with ((e1 - e) + e) at 1 by lia.
  rewrite pow2_add, (pow2_IZR (e1 - e)) by lia. rewrite <- Rmult_assoc, <- mult_IZR.
  apply Rmult_lt_compat_r; [apply pow2_pos|]. now apply IZR_lt.
Qed.

(** [binary_round_aux] on a mantissa of at most [B - ex] digits returns
    zero or a finite float of the given sign, whose magnitude is within
    two units of exponent [fexp64 (B + 1)] of the input. *)
Lemma binary_round_aux_coarse (sx : bool) (mx ex : Z) (lx : location) (B : Z) :
  0 <= mx -> Zdigits2 mx + ex <= B -> ex <= fexp64 (B + 1) -> -1074 <= B < 1024 ->
  let r := binary_round_aux prec emax sx mx ex lx in
  SFfin r = true /\ SFsign r = sx
  /\ (IZR mx * pow2 ex - 2 * pow2 (fexp64 (B + 1)) <= SFabsval r
      <= IZR mx * pow2 ex + pow2 (fexp64 (B + 1)))%R.
Proof.
  intros Hmx Hd Hex HB. unfold binary_round_aux, shr_fexp.
  set (F := fexp64 (B + 1)) in *.
  assert (HF : F <= B /\ F <= 971) by (unfold F; rewrite fexp64_eq; lia).
  destruct (shr_spec mx ex (fexp prec emax (Zdigits2 mx + ex) - ex) lx Hmx)
    as (q1 & e1 & -> & Hq1 & He1 & Hb1).
  set (m' := round_nearest_even (shr_m q1) (loc_of_shr_record q1)).
  pose proof (round_nearest_even_bounds (shr_m q1) (loc_of_shr_record q1)) as Hm'.
  fold m' in Hm'. assert (Hm'0 : 0 <= m') by lia.
  destruct (shr_spec m' e1 (fexp prec emax (Zdigits2 m' + e1) - e1) loc_Exact Hm'0)
    as (q2 & e2 & -> & Hq2 & He2 & Hb2).
  (* exponents *)
  assert (He1F : ex <= e1 <= F).
  { split; [lia|]. pose proof (fexp64_mono _ _ (Z.le_trans _ _ _ Hd (Z.le_succ_diag_r B))).
    unfold fexp64 in *. replace (Z.succ B) with (B + 1) in * by lia. fold F in H. lia. }
  assert (Hq1B : shr_m q1 + 1 <= 2 ^ (B - e1)).
  { pose proof (Zdigits2_lt mx Hmx) as Hlt.
    assert (2 ^ Zdigits2 mx <= 2 ^ (B - ex))
      by (apply Z.pow_le_mono_r; [lia|]; pose proof (Zdigits2_nonneg mx); lia).
    assert (Hsplit : 2 ^ (B - ex) = 2 ^ (B - e1) * 2 ^ (e1 - ex))
      by (rewrite <- Z.pow_add_r by lia; f_equal; lia).
    assert (0 < 2 ^ (e1 - ex)) by (apply Z.pow_pos_nonneg; lia).
    assert (0 < 2 ^ (B - e1)) by (apply Z.pow_pos_nonneg; lia).
    nia. }
  assert (Hd' : Zdigits2 m' + e1 <= B + 1).
  { assert (Zdigits2 m' <= B - e1 + 1); [|lia].
    apply Zdigits2_le; [lia|lia|].
    rewrite Z.pow_add_r by lia. change (2 ^ 1) with 2.
    assert (0 < 2 ^ (B - e1)) by (apply Z.pow_pos_nonneg; lia). lia. }
  assert (He2F : e1 <= e2 <= F).
  { split; [lia|]. pose proof (fexp64_mono _ _ Hd') as Hmono. unfold fexp64 in Hmono.
    fold F in Hmono. fold (fexp64 (B + 1)) in Hmono. lia. }
  (* values *)
  pose proof (Zscale_le _ _ _ _ (proj1 He1F) (proj1 Hb1)) as R1lo.
  pose proof (Zscale_lt _ _ _ _ (proj1 He1F) (proj2 Hb1)) as R1hi.
  pose proof (Zscale_le _ _ _ _ (proj1 He2F) (proj1 Hb2)) as R2lo.
  pose proof (Zscale_lt _ _ _ _ (proj1 He2F) (proj2 Hb2)) as R2hi.
  rewrite plus_IZR in R1hi, R2hi.
  assert (Rm' : (IZR (shr_m q1) <= IZR m' <= IZR (shr_m q1) + 1)%R).
  { split; [apply IZR_le; lia|]. rewrite <- plus_IZR. apply IZR_le; lia. }
  pose proof (pow2_pos e1) as P1. pose proof (pow2_pos e2) as P2.
  pose proof (pow2_le _ _ (proj2 He1F)) as L1. pose proof (pow2_le _ _ (proj2 He2F)) as L2.
  fold F in L1, L2.
  assert (Hval : (IZR mx * pow2 ex - 2 * pow2 F <= IZR (shr_m q2) * pow2 e2
                  <= IZR mx * pow2 ex + pow2 F)%R) by (split; nra).
  destruct (shr_m q2) as [|m|m] eqn:Em.
  - simpl. repeat split; try reflexivity; lra.
  - replace (e2 <=? emax - prec) with true
      by (symmetry; apply Z.leb_le; change (emax - prec) with 971; lia).
    simpl. repeat split; try reflexivity; lra.
  - lia.
Qed.

Lemma Pos_iter_xO (m d : positive) : Zpos (Pos.iter xO m d) = Zpos m * 2 ^ Zpos d.
Proof.
  induction d as [|d IH] using Pos.peano_ind.
  - simpl. lia.
  - rewrite Pos.iter_succ, Pos2Z.inj_xO, IH, Pos2Z.inj_succ, Z.pow_succ_r by lia. lia.
Qed.

Lemma shl_align_spec (mx : positive) (ex ex' : Z) :
  exists mz ez,
    shl_align mx ex ex' = (mz, ez)
    /\ ez = Z.min ex ex' /\ Zpos mz = Zpos mx * 2 ^ (ex - ez).
Proof.
  unfold shl_align. destruct (ex' - ex) as [|d|d] eqn:E.
  - exists mx, ex. replace (Z.min ex ex') with ex by lia. rewrite Z.sub_diag. simpl.
    repeat split; lia.
  - exists mx, ex. replace (Z.min ex ex') with ex by lia. rewrite Z.sub_diag. simpl.
    repeat split; lia.
  - exists (Pos.iter xO mx d), ex'. replace (Z.min ex ex') with ex' by lia.
    replace (ex - ex') with (Zpos d) by lia. rewrite Pos_iter_xO. repeat split; lia.
Qed.

Lemma IZR_scale (m e ez : Z) :
  ez <= e -> (IZR (m * 2 ^ (e - ez)) * pow2 ez = IZR m * pow2 e)%R.
Proof.
  intros H. rewrite mult_IZR, <- pow2_IZR by lia. rewrite Rmult_assoc, <- pow2_add.
  do 2 f_equal. lia.
Qed.

(** A positive integer whose value [m * 2^e] is below [2^B] has at most
    [B - e] digits. *)
Lemma digits_of_value (m e B : Z) :
  0 < m -> (IZR m * pow2 e < pow2 B)%R -> Zdigits2 m + e <= B.
Proof.
  intros Hm Hlt.
  assert (He : e < B).
  { destruct (Z_lt_ge_dec e B) as [|Hge]; [assumption|]. exfalso.
    pose proof (pow2_le B e ltac:(lia)). pose proof (pow2_pos e).
    assert (1 <= IZR m)%R by (apply IZR_le; lia). nra. }
  assert (m < 2 ^ (B - e)).
  { apply lt_IZR. rewrite <- pow2_IZR by lia.
    replace B with ((B - e) + e) in Hlt at 1 by lia. rewrite pow2_add in Hlt.
    pose proof (pow2_pos e). nra. }
  assert (Zdigits2 m <= B - e) by (apply Zdigits2_le; lia). lia.
Qed.

Lemma binary_round_coarse (sx : bool) (mx : positive) (ex B : Z) :
  (IZR (Zpos mx) * pow2 ex < pow2 B)%R -> -1074 <= B < 1024 ->
  let r := binary_round prec emax sx mx ex in
  SFfin r = true /\ SFsign r = sx
  /\ (IZR (Zpos mx) * pow2 ex - 2 * pow2 (fexp64 (B + 1)) <= SFabsval r
      <= IZR (Zpos mx) * pow2 ex + pow2 (fexp64 (B + 1)))%R.
Proof.
  intros Hv HB. unfold binary_round.
  destruct (shl_align_spec mx ex (fexp prec emax (Zpos (digits2_pos mx) + ex)))
    as (mz & ez & -> & Hez & Hmz).
  assert (Hd : Zdigits2 (Zpos mx) + ex <= B) by (apply digits_of_value; [lia|assumption]).
  assert (Hval : (IZR (Zpos mz) * pow2 ez = IZR (Zpos mx) * pow2 ex)%R).
  { rewrite Hmz. apply IZR_scale. lia. }
  rewrite <- Hval. apply binary_round_aux_coarse; try lia.
  - apply digits_of_value; [lia|]. now rewrite Hval.
  - change (Zdigits2 (Zpos mx)) with (Zpos (digits2_pos mx)) in Hd.
    pose proof (fexp64_mono _ _ (Z.le_trans _ _ _ Hd (Z.le_succ_diag_r B))) as Hm.
    unfold fexp64 in *. replace (Z.succ B) with (B + 1) in Hm by lia. lia.
Qed.

Lemma binary_normalize_coarse (m e B : Z) (szero : bool) :
  (Rabs (IZR m * pow2 e) < pow2 B)%R -> -1074 <= B < 1024 ->
  let r := binary_normalize prec emax m e szero in
  SFfin r = true
  /\ (Rabs (SFval r - IZR m * pow2 e) <= 2 * pow2 (fexp64 (B + 1)))%R.
Proof.
  intros Hv HB. pose proof (pow2_pos (fexp64 (B + 1))) as PF. pose proof (pow2_pos e) as Pe.
  destruct m as [|p|p]; cbn [binary_normalize].
  - split; [reflexivity|]. unfold SFval. apply Rabs_le. destruct szero; simpl; lra.
  - rewrite Rabs_pos_eq in Hv by (apply Rmult_le_pos; [apply IZR_le; lia | lra]).
    destruct (binary_round_coarse false p e B Hv HB) as (Hfin & Hs & Hlo & Hhi).
    split; [assumption|]. unfold SFval. rewrite Hs. apply Rabs_le. lra.
  - assert (Hneg : (IZR (Zneg p) = - IZR (Zpos p))%R) by (rewrite <- opp_IZR; reflexivity).
    rewrite Hneg in *. rewrite Ropp_mult_distr_l_reverse, Rabs_Ropp in Hv.
    rewrite Rabs_pos_eq in Hv by (apply Rmult_le_pos; [apply IZR_le; lia | lra]).
    destruct (binary_round_coarse true p e B Hv HB) as (Hfin & Hs & Hlo & Hhi).
    split; [assumption|]. unfold SFval. rewrite Hs. apply Rabs_le. lra.
Qed.

(** ** The arithmetic of binary64 on small values

    For operands and results below [2^21] in magnitude, an operation
    returns a finite float within [2^-29] of the exact result. *)

Lemma SFval_finite (s : bool) (m : positive) (e : Z) :
  SFval (S754_finite s m e) = (IZR (cond_Zopp s (Zpos m)) * pow2 e)%R.
Proof.
  unfold SFval. destruct s; simpl; [|reflexivity].
  change (Zneg m) with (- Zpos m). rewrite opp_IZR. lra.
Qed.

Lemma pow2_lt_inv (a b : Z) : (pow2 a < pow2 b)%R -> a < b.
Proof.
  intros H. destruct (Z_lt_ge_dec a b) as [|Hge]; [assumption|].
  pose proof (pow2_le b a ltac:(lia)). lra.
Qed.

Lemma fexp64_22 : fexp64 22 = -31.
Proof. reflexivity. Qed.

Lemma pow2_m30 : (2 * pow2 (-31) = pow2 (-30))%R.
Proof. replace (-30) with (-31 + 1) by lia. rewrite pow2_succ. reflexivity. Qed.

Lemma SFadd_coarse (x y : spec_float) :
  SFfin x = true -> SFfin y = true ->
  (Rabs (SFval x + SFval y) < pow2 21)%R ->
  SFfin (SFadd prec emax x y) = true
  /\ (Rabs (SFval (SFadd prec emax x y) - (SFval x + SFval y)) <= pow2 (-30))%R.
Proof.
  pose proof (pow2_pos (-30)) as P30.
  assert (Hexact : forall (z : spec_float) (w : R), SFfin z = true -> SFval z = w ->
            SFfin z = true /\ (Rabs (SFval z - w) <= pow2 (-30))%R).
  { intros z w Hz <-. split; [assumption|]. rewrite Rminus_diag, Rabs_R0. lra. }
  intros Hx Hy Hb.
  destruct x as [sx| | |sx mx ex]; try discriminate;
    destruct y as [sy| | |sy my ey]; try discriminate.
  - destruct sx, sy; apply Hexact; try reflexivity; unfold SFval; simpl; lra.
  - apply Hexact; [reflexivity|]. unfold SFval at 2. simpl. destruct sx; simpl; lra.
  - apply Hexact; [reflexivity|]. unfold SFval at 3. simpl. destruct sy; simpl; lra.
  - cbn [SFadd].
    destruct (shl_align_spec mx ex (Z.min ex ey)) as (ax & ez1 & -> & Hez1 & Hax).
    destruct (shl_align_spec my ey (Z.min ex ey)) as (ay & ez2 & -> & Hez2 & Hay).
    cbn [fst].
    assert (Hsum : (IZR (cond_Zopp sx (Zpos ax) + cond_Zopp sy (Zpos ay)) * pow2 (Z.min ex ey)
                    = SFval (S754_finite sx mx ex) + SFval (S754_finite sy my ey))%R).
    { rewrite !SFval_finite, plus_IZR, Rmult_plus_distr_r. f_equal.
      - rewrite Hax. replace ez1 with (Z.min ex ey) by lia.
        rewrite <- (IZR_scale _ ex (Z.min ex ey)) by lia. f_equal. f_equal. destruct sx; unfold cond_Zopp; lia.
      - rewrite Hay. replace ez2 with (Z.min ex ey) by lia.
        rewrite <- (IZR_scale _ ey (Z.min ex ey)) by lia. f_equal. f_equal. destruct sy; unfold cond_Zopp; lia. }
    rewrite <- Hsum in Hb |- *.
    destruct (binary_normalize_coarse _ _ 21 false Hb ltac:(lia)) as [Hfin Herr].
    split; [assumption|]. change (fexp64 (21 + 1)) with (-31) in Herr. rewrite pow2_m30 in Herr. exact Herr.
Qed.

Lemma SFsub_coarse (x y : spec_float) :
  SFfin x = true -> SFfin y = true ->
  (Rabs (SFval x - SFval y) < pow2 21)%R ->
  SFfin (SFsub prec emax x y) = true
  /\ (Rabs (SFval (SFsub prec emax x y) - (SFval x - SFval y)) <= pow2 (-30))%R.
Proof.
  pose proof (pow2_pos (-30)) as P30.
  assert (Hexact : forall (z : spec_float) (w : R), SFfin z = true -> SFval z = w ->
            SFfin z = true /\ (Rabs (SFval z - w) <= pow2 (-30))%R).
  { intros z w Hz <-. split; [assumption|]. rewrite Rminus_diag, Rabs_R0. lra. }
  intros Hx Hy Hb.
  destruct x as [sx| | |sx mx ex]; try discriminate;
    destruct y as [sy| | |sy my ey]; try discriminate.
  - destruct sx, sy; apply Hexact; try reflexivity; unfold SFval; simpl; lra.
  - apply Hexact; [reflexivity|]. unfold SFval. simpl. destruct sx, sy; simpl; lra.
  - apply Hexact; [reflexivity|]. unfold SFval at 3. simpl. destruct sy; simpl; lra.
  - cbn [SFsub].
    destruct (shl_align_spec mx ex (Z.min ex ey)) as (ax & ez1 & -> & Hez1 & Hax).
    destruct (shl_align_spec my ey (Z.min ex ey)) as (ay & ez2 & -> & Hez2 & Hay).
    cbn [fst].
    assert (Hsum : (IZR (cond_Zopp sx (Zpos ax) - cond_Zopp sy (Zpos ay)) * pow2 (Z.min ex ey)
                    = SFval (S754_finite sx mx ex) - SFval (S754_finite sy my ey))%R).
    { rewrite !SFval_finite, minus_IZR, Rmult_minus_distr_r. f_equal.
      - rewrite Hax. replace ez1 with (Z.min ex ey) by lia.
        rewrite <- (IZR_scale _ ex (Z.min ex ey)) by lia. f_equal. f_equal. destruct sx; unfold cond_Zopp; lia.
      - rewrite Hay. replace ez2 with (Z.min ex ey) by lia.
        rewrite <- (IZR_scale _ ey (Z.min ex ey)) by lia. f_equal. f_equal. destruct sy; unfold cond_Zopp; lia. }
    rewrite <- Hsum in Hb |- *.
    destruct (binary_normalize_coarse _ _ 21 false Hb ltac:(lia)) as [Hfin Herr].
    split; [assumption|]. change (fexp64 (21 + 1)) with (-31) in Herr. rewrite pow2_m30 in Herr. exact Herr.
Qed.

Lemma valid_finite_inv (s : bool) (m : positive) (e : Z) :
  valid_binary (S754_finite s m e) = true ->
  -1074 <= e <= 971 /\ Zpos (digits2_pos m) <= 53
  /\ (e = -1074 \/ Zpos (digits2_pos m) = 53).
Proof.
  cbv beta delta [SpecFloat.valid_binary bounded canonical_mantissa] iota.
  intros H. apply andb_true_iff in H. destruct H as [Hc Hb]. apply Z.eqb_eq in Hc. apply Z.leb_le in Hb.
  change (emax - prec) with 971 in Hb. fold (fexp64 (Zpos (digits2_pos m) + e)) in Hc.
  rewrite fexp64_eq in Hc. lia.
Qed.

(** The exponent of a valid float below [2^21] is at most -32. *)
Lemma valid_small_exp (s : bool) (m : positive) (e : Z) :
  valid_binary (S754_finite s m e) = true ->
  (IZR (Zpos m) * pow2 e < pow2 21)%R -> e <= -32.
Proof.
  intros Hv Hlt. destruct (valid_finite_inv s m e Hv) as (He & Hd & [->|Hn]); [lia|].
  pose proof (digits2_pos_bounds m) as [Hlo _]. rewrite Hn in Hlo.
  assert (pow2 (52 + e) <= IZR (Zpos m) * pow2 e)%R.
  { rewrite pow2_add. apply Rmult_le_compat_r; [left; apply pow2_pos|].
    rewrite pow2_IZR by lia. now apply IZR_le. }
  assert (52 + e < 21) by (apply pow2_lt_inv; lra). lia.
Qed.

Lemma Rabs_SFval (x : spec_float) : Rabs (SFval x) = SFabsval x.
Proof.
  assert (0 <= SFabsval x)%R.
  { destruct x; simpl; try lra. apply Rmult_le_pos; [apply IZR_le; lia|left; apply pow2_pos]. }
  unfold SFval. destruct (SFsign x); [rewrite Rabs_Ropp|]; now apply Rabs_pos_eq.
Qed.

Lemma SFmul_coarse (x y : spec_float) :
  SFfin x = true -> SFfin y = true ->
  valid_binary x = true -> valid_binary y = true ->
  (Rabs (SFval x) < pow2 21)%R -> (Rabs (SFval y) < pow2 21)%R ->
  (Rabs (SFval x * SFval y) < pow2 21)%R ->
  SFfin (SFmul prec emax x y) = true
  /\ (Rabs (SFval (SFmul prec emax x y) - SFval x * SFval y) <= pow2 (-30))%R.
Proof.
  pose proof (pow2_pos (-30)) as P30.
  assert (Hzero : forall (z : spec_float) (w : R), SFfin z = true -> SFabsval z = 0%R -> w = 0%R ->
            SFfin z = true /\ (Rabs (SFval z - w) <= pow2 (-30))%R).
  { intros z w Hz Ha ->. split; [assumption|]. rewrite Rminus_0_r, Rabs_SFval, Ha. lra. }
  intros Hx Hy Vx Vy Bx By Hb.
  destruct x as [sx| | |sx mx ex]; try discriminate;
    destruct y as [sy| | |sy my ey]; try discriminate;
    try (apply Hzero; [reflexivity|reflexivity|]; unfold SFval; simpl;
         repeat match goal with |- context [if ?b then _ else _] => destruct b end; lra).
  cbn [SFmul]. rewrite Rabs_SFval in Bx, By. cbn [SFabsval] in Bx, By.
  pose proof (valid_small_exp _ _ _ Vx Bx) as Ex.
  pose proof (valid_small_exp _ _ _ Vy By) as Ey.
  assert (Hprod : (IZR (Zpos (mx * my)) * pow2 (ex + ey)
                   = (IZR (Zpos mx) * pow2 ex) * (IZR (Zpos my) * pow2 ey))%R).
  { rewrite Pos2Z.inj_mul, mult_IZR, pow2_add. ring. }
  assert (Habs : (Rabs (SFval (S754_finite sx mx ex) * SFval (S754_finite sy my ey))
                  = IZR (Zpos (mx * my)) * pow2 (ex + ey))%R).
  { rewrite Rabs_mult, !Rabs_SFval. cbn [SFabsval]. now rewrite Hprod. }
  rewrite Habs in Hb.
  destruct (binary_round_aux_coarse (xorb sx sy) (Zpos (mx * my)) (ex + ey) loc_Exact 21)
    as (Hfin & Hs & Hlo & Hhi); try lia.
  - apply digits_of_value; [lia|assumption].
  - change (fexp64 (21 + 1)) with (-31). lia.
  - split; [assumption|].
    change (fexp64 (21 + 1)) with (-31) in Hlo, Hhi. rewrite pow2_m30 in Hlo.
    pose proof (pow2_le (-31) (-30) ltac:(lia)).
    unfold SFval. rewrite Hs. cbn [SFsign SFabsval].
    set (A := (IZR (Zpos mx) * pow2 ex)%R) in *.
    set (C := (IZR (Zpos my) * pow2 ey)%R) in *.
    set (V := SFabsval (binary_round_aux prec emax (xorb sx sy) (Zpos (mx * my))
                          (ex + ey) loc_Exact)) in *.
    set (P := (A * C)%R) in *.
    apply Rabs_le.
    destruct sx, sy; cbn [xorb];
      [ replace (- A * - C)%R with P by (unfold P; ring)
      | replace (- A * C)%R with (- P)%R by (unfold P; ring)
      | replace (A * - C)%R with (- P)%R by (unfold P; ring)
      | fold P ]; lra.
Qed.

Lemma SFdiv_core_spec (mx my : positive) (ex ey : Z) :
  exists q e' l,
    SFdiv_core_binary prec emax (Zpos mx) ex (Zpos my) ey = (q, e', l)
    /\ 0 <= q
    /\ e' <= fexp64 (Zpos (digits2_pos mx) + ex - (Zpos (digits2_pos my) + ey))
    /\ (IZR q * pow2 e' <= IZR (Zpos mx) * pow2 ex / (IZR (Zpos my) * pow2 ey)
        < (IZR q + 1) * pow2 e')%R.
Proof.
  unfold SFdiv_core_binary. cbn [Zdigits2].
  set (D := Zpos (digits2_pos mx) + ex - (Zpos (digits2_pos my) + ey)).
  set (e' := Z.min (fexp prec emax D) (ex - ey)).
  set (s := ex - ey - e').
  assert (Hs : 0 <= s) by (unfold s, e'; lia).
  set (m' := match s with Zpos _ => Z.shiftl (Zpos mx) s | 0 => Zpos mx | Zneg _ => 0 end).
  assert (Hm' : m' = Zpos mx * 2 ^ s).
  { unfold m'. destruct s as [|p|p] eqn:Es; [simpl; lia | | lia].
    apply Z.shiftl_mul_pow2. lia. }
  pose proof (Z_div_mod m' (Zpos my) ltac:(lia)) as Hdiv.
  destruct (Z.div_eucl m' (Zpos my)) as [q r]. destruct Hdiv as [Hqr Hr].
  assert (Hm'0 : 0 <= m') by (rewrite Hm'; apply Z.mul_nonneg_nonneg; [lia|apply Z.pow_nonneg; lia]).
  assert (Hq : 0 <= q) by nia.
  exists q, e', (new_location (Zpos my) r).
  split; [reflexivity|]. split; [assumption|]. split; [unfold e', fexp64; lia|].
  pose proof (pow2_pos e') as Pe'. pose proof (pow2_pos ey) as Pey.
  assert (Hmy : (0 < IZR (Zpos my))%R) by (apply IZR_lt; lia).
  assert (HX : (IZR (Zpos mx) * pow2 ex / (IZR (Zpos my) * pow2 ey)
                = IZR m' * pow2 e' / IZR (Zpos my))%R).
  { rewrite Hm', mult_IZR, <- pow2_IZR by lia.
    replace ex with (s + e' + ey) at 1 by (unfold s; lia).
    rewrite !pow2_add. field. split; lra. }
  rewrite HX.
  assert (Hlo : (IZR q * IZR (Zpos my) <= IZR m')%R).
  { rewrite <- mult_IZR. apply IZR_le. lia. }
  assert (Hhi : (IZR m' < (IZR q + 1) * IZR (Zpos my))%R).
  { rewrite <- plus_IZR, <- mult_IZR. apply IZR_lt. lia. }
  split.
  - apply Rmult_le_reg_r with (IZR (Zpos my)); [assumption|].
    replace (IZR m' * pow2 e' / IZR (Zpos my) * IZR (Zpos my))%R with (IZR m' * pow2 e')%R
      by (field; lra).
    nra.
  - apply Rmult_lt_reg_r with (IZR (Zpos my)); [assumption|].
    replace (IZR m' * pow2 e' / IZR (Zpos my) * IZR (Zpos my))%R with (IZR m' * pow2 e')%R
      by (field; lra).
    nra.
Qed.

(** Division of a non-negative float by a positive one. *)
Lemma SFdiv_coarse (x : spec_float) (my : positive) (ey : Z) :
  SFfin x = true -> SFsign x = false ->
  (SFval x / SFval (S754_finite false my ey) < pow2 21)%R ->
  let r := SFdiv prec emax x (S754_finite false my ey) in
  SFfin r = true /\ SFsign r = false
  /\ (Rabs (SFval r - SFval x / SFval (S754_finite false my ey)) <= pow2 (-29))%R.
Proof.
  intros Hx Hsx Hb. pose proof (pow2_pos (-29)) as P29.
  destruct x as [sx| | |sx mx ex]; try discriminate; simpl in Hsx; subst sx.
  - cbn. repeat split. unfold SFval. simpl.
    replace (0 - 0 / _)%R with 0%R by (unfold Rdiv; ring). rewrite Rabs_R0. lra.
  - cbn [SFdiv]. unfold SFval in Hb |- *. cbn [SFsign SFabsval] in Hb |- *.
    destruct (SFdiv_core_spec mx my ex ey) as (q & e' & l & -> & Hq & He' & Hlo & Hhi).
    set (X := (IZR (Zpos mx) * pow2 ex / (IZR (Zpos my) * pow2 ey))%R) in *.
    set (D := Zpos (digits2_pos mx) + ex - (Zpos (digits2_pos my) + ey)) in *.
    pose proof (pow2_pos e') as Pe'. pose proof (pow2_pos ex) as Pex.
    pose proof (pow2_pos ey) as Pey.
    assert (Hmx : (0 < IZR (Zpos mx))%R) by (apply IZR_lt; lia).
    assert (Hmy : (0 < IZR (Zpos my))%R) by (apply IZR_lt; lia).
    assert (HD : D <= 21).
    { assert (pow2 (D - 1) < pow2 21)%R; [|apply pow2_lt_inv in H; lia].
      apply Rle_lt_trans with X; [|assumption].
      pose proof (digits2_pos_bounds mx) as [Hlox _].
      pose proof (digits2_pos_bounds my) as [_ Hhiy].
      assert (N : (pow2 (Zpos (digits2_pos mx) - 1 + ex) <= IZR (Zpos mx) * pow2 ex)%R).
      { rewrite pow2_add. apply Rmult_le_compat_r; [lra|].
        rewrite pow2_IZR by lia. now apply IZR_le. }
      assert (M : (IZR (Zpos my) * pow2 ey <= pow2 (Zpos (digits2_pos my) + ey))%R).
      { rewrite pow2_add. apply Rmult_le_compat_r; [lra|].
        rewrite pow2_IZR by lia. apply IZR_le. lia. }
      assert (Hden : (0 < IZR (Zpos my) * pow2 ey)%R) by nra.
      apply Rmult_le_reg_r with (IZR (Zpos my) * pow2 ey)%R; [assumption|].
      replace (X * (IZR (Zpos my) * pow2 ey))%R with (IZR (Zpos mx) * pow2 ex)%R
        by (unfold X; field; lra).
      apply Rle_trans with (pow2 (D - 1) * pow2 (Zpos (digits2_pos my) + ey))%R.
      - apply Rmult_le_compat_l; [left; apply pow2_pos|assumption].
      - rewrite <- pow2_add. replace (D - 1 + (Zpos (digits2_pos my) + ey))
          with (Zpos (digits2_pos mx) - 1 + ex) by (unfold D; lia). assumption. }
    assert (He31 : e' <= -32).
    { pose proof (fexp64_mono _ _ HD) as Hm. change (fexp64 21) with (-32) in Hm. lia. }
    destruct (binary_round_aux_coarse false q e' l 21) as (Hfin & Hs & Hrlo & Hrhi); try lia.
    + destruct (Z.eq_dec q 0) as [->|Hq0]; [simpl; lia|].
      apply digits_of_value; [lia|]. lra.
    + change (fexp64 (21 + 1)) with (-31). lia.
    + cbn [xorb]. split; [assumption|]. split; [assumption|].
      rewrite Hs. change (fexp64 (21 + 1)) with (-31) in Hrlo, Hrhi.
      pose proof (pow2_le e' (-31) ltac:(lia)) as L1.
      assert (L2 : (pow2 (-29) = 4 * pow2 (-31))%R).
      { replace (-29) with (-31 + 1 + 1) by lia. rewrite !pow2_succ. ring. }
      pose proof (pow2_pos (-31)). apply Rabs_le. split; nra.
Qed.

(** ** Comparison of valid floats *)

Lemma canonical_exp_lt (s1 s2 : bool) (m1 m2 : positive) (e1 e2 : Z) :
  valid_binary (S754_finite s1 m1 e1) = true ->
  valid_binary (S754_finite s2 m2 e2) = true ->
  e1 < e2 -> (IZR (Zpos m1) * pow2 e1 < IZR (Zpos m2) * pow2 e2)%R.
Proof.
  intros V1 V2 Hlt.
  destruct (valid_finite_inv _ _ _ V1) as (He1 & Hd1 & _).
  destruct (valid_finite_inv _ _ _ V2) as (He2 & Hd2 & [->|Hn2]); [lia|].
  pose proof (digits2_pos_bounds m1) as [_ Hhi1].
  pose proof (digits2_pos_bounds m2) as [Hlo2 _]. rewrite Hn2 in Hlo2.
  assert (2 ^ Zpos (digits2_pos m1) <= 2 ^ 53) by (apply Z.pow_le_mono_r; lia).
  apply Rlt_le_trans with (pow2 (53 + e1)).
  - rewrite pow2_add. apply Rmult_lt_compat_r; [apply pow2_pos|].
    rewrite pow2_IZR by lia. apply IZR_lt. lia.
  - apply Rle_trans with (pow2 (52 + e2)); [apply pow2_le; lia|].
    rewrite pow2_add. apply Rmult_le_compat_r; [left; apply pow2_pos|].
    rewrite pow2_IZR by lia. now apply IZR_le.
Qed.

Lemma SFcompare_spec (x y : spec_float) :
  SFfin x = true -> SFfin y = true ->
  valid_binary x = true -> valid_binary y = true ->
  cmp_holds (SFcompare x y) (SFval x) (SFval y).
Proof.
  intros Hx Hy Vx Vy.
  destruct x as [sx| | |sx mx ex]; try discriminate;
    destruct y as [sy| | |sy my ey]; try discriminate.
  - unfold SFval. destruct sx, sy; simpl; lra.
  - assert (0 < IZR (Zpos my) * pow2 ey)%R
      by (apply Rmult_lt_0_compat; [apply IZR_lt; lia|apply pow2_pos]).
    unfold SFval. destruct sx, sy; simpl; lra.
  - assert (0 < IZR (Zpos mx) * pow2 ex)%R
      by (apply Rmult_lt_0_compat; [apply IZR_lt; lia|apply pow2_pos]).
    unfold SFval. destruct sx, sy; simpl; lra.
  - assert (Px : (0 < IZR (Zpos mx) * pow2 ex)%R)
      by (apply Rmult_lt_0_compat; [apply IZR_lt; lia|apply pow2_pos]).
    assert (Py : (0 < IZR (Zpos my) * pow2 ey)%R)
      by (apply Rmult_lt_0_compat; [apply IZR_lt; lia|apply pow2_pos]).
    assert (Hmag : cmp_holds (Some match ex ?= ey with
                                   | Lt => Lt | Gt => Gt
                                   | Eq => Pos.compare_cont Eq mx my end)
                     (IZR (Zpos mx) * pow2 ex) (IZR (Zpos my) * pow2 ey)).
    { destruct (Z.compare_spec ex ey) as [->|Hlt|Hgt].
      - change (Pos.compare_cont Eq mx my) with (Pos.compare mx my).
        destruct (Pos.compare_spec mx my) as [->|Hl|Hg]; simpl.
        + reflexivity.
        + apply Rmult_lt_compat_r; [apply pow2_pos|]. apply IZR_lt. lia.
        + apply Rmult_lt_compat_r; [apply pow2_pos|]. apply IZR_lt. lia.
      - simpl. eapply canonical_exp_lt; eassumption.
      - simpl. eapply canonical_exp_lt; eassumption. }
    unfold SFval. cbn [SFcompare SFsign SFabsval].
    destruct sx, sy; cbn [cmp_holds]; try lra.
    + destruct (ex ?= ey); [destruct (Pos.compare_cont Eq mx my)| |];
        cbn [CompOpp cmp_holds] in *; lra.
    + exact Hmag.
Qed.

(** ** Primitive floats with a finite value *)

Lemma add_small (x y : float) :
  Fin x -> Fin y -> (Rabs (val x + val y) < pow2 21)%R ->
  Fin (x + y) /\ (Rabs (val (x + y) - (val x + val y)) <= pow2 (-30))%R.
Proof. unfold Fin, val. rewrite add_spec. apply SFadd_coarse. Qed.

Lemma sub_small (x y : float) :
  Fin x -> Fin y -> (Rabs (val x - val y) < pow2 21)%R ->
  Fin (x - y) /\ (Rabs (val (x - y) - (val x - val y)) <= pow2 (-30))%R.
Proof. unfold Fin, val. rewrite sub_spec. apply SFsub_coarse. Qed.

Lemma mul_small (x y : float) :
  Fin x -> Fin y ->
  (Rabs (val x) < pow2 21)%R -> (Rabs (val y) < pow2 21)%R ->
  (Rabs (val x * val y) < pow2 21)%R ->
  Fin (x * y) /\ (Rabs (val (x * y) - val x * val y) <= pow2 (-30))%R.
Proof.
  unfold Fin, val. rewrite mul_spec. intros Hx Hy.
  apply SFmul_coarse; try assumption; apply Prim2SF_valid.
Qed.

Lemma ltb_true (x y : float) :
  Fin x -> Fin y -> (x <? y)%float = true -> (val x < val y)%R.
Proof.
  unfold Fin, val. rewrite ltb_spec. unfold SFltb. intros Hx Hy H.
  pose proof (SFcompare_spec _ _ Hx Hy (Prim2SF_valid x) (Prim2SF_valid y)) as C.
  destruct (SFcompare (Prim2SF x) (Prim2SF y)) as [[]|]; try discriminate. exact C.
Qed.

Lemma ltb_false (x y : float) :
  Fin x -> Fin y -> (x <? y)%float = false -> (val y <= val x)%R.
Proof.
  unfold Fin, val. rewrite ltb_spec. unfold SFltb. intros Hx Hy H.
  pose proof (SFcompare_spec _ _ Hx Hy (Prim2SF_valid x) (Prim2SF_valid y)) as C.
  destruct (SFcompare (Prim2SF x) (Prim2SF y)) as [[]|]; try discriminate;
    simpl in C; first [lra | contradiction].
Qed.

Lemma leb_true (x y : float) :
  Fin x -> Fin y -> (x <=? y)%float = true -> (val x <= val y)%R.
Proof.
  unfold Fin, val. rewrite leb_spec. unfold SFleb. intros Hx Hy H.
  pose proof (SFcompare_spec _ _ Hx Hy (Prim2SF_valid x) (Prim2SF_valid y)) as C.
  destruct (SFcompare (Prim2SF x) (Prim2SF y)) as [[]|]; try discriminate;
    simpl in C; lra.
Qed.

Lemma leb_false (x y : float) :
  Fin x -> Fin y -> (x <=? y)%float = false -> (val y < val x)%R.
Proof.
  unfold Fin, val. rewrite leb_spec. unfold SFleb. intros Hx Hy H.
  pose proof (SFcompare_spec _ _ Hx Hy (Prim2SF_valid x) (Prim2SF_valid y)) as C.
  destruct (SFcompare (Prim2SF x) (Prim2SF y)) as [[]|]; try discriminate;
    simpl in C; first [lra | contradiction].
Qed.

Lemma ltb_nan_l (x y : float) : Prim2SF x = S754_nan -> (x <? y)%float = false.
Proof. intros H. rewrite ltb_spec, H. reflexivity. Qed.

(** A comparison that holds tells that its left operand is not a NaN, and
    not plus infinity when the right one is finite. *)
Lemma ltb_true_fin_l (x y : float) :
  Fin y -> (x <? y)%float = true ->
  Fin x \/ Prim2SF x = S754_infinity true.
Proof.
  unfold Fin. rewrite ltb_spec. unfold SFltb. intros Hy H.
  destruct (Prim2SF x) as [sx|sx| |sx mx ex].
  - now left.
  - destruct sx; [now right|].
    destruct (Prim2SF y) as [sy|sy| |sy my ey]; discriminate.
  - discriminate.
  - now left.
Qed.

(** ** Values of float literals *)

Lemma pow2_neg (e : Z) : pow2 (- e) = (/ pow2 e)%R.
Proof. apply powerRZ_neg'. Qed.

Lemma val_of_finite (f : float) (m : positive) (k : Z) :
  Prim2SF f = S754_finite false m (- k) -> 0 <= k ->
  Fin f /\ val f = (IZR (Zpos m) / IZR (2 ^ k))%R.
Proof.
  intros H Hk. unfold Fin, val. rewrite H. split; [reflexivity|].
  unfold SFval. cbn [SFsign SFabsval]. rewrite pow2_neg, pow2_IZR by assumption. reflexivity.
Qed.

Lemma val_of_zero (f : float) (s : bool) : Prim2SF f = S754_zero s -> Fin f /\ val f = 0%R.
Proof.
  intros H. unfold Fin, val. rewrite H. split; [reflexivity|].
  unfold SFval. destruct s; simpl; lra.
Qed.

Lemma val_0 : Fin 0 /\ val 0 = 0%R.
Proof. apply (val_of_zero 0%float false). reflexivity. Qed.

Lemma val_1 : Fin 1 /\ val 1 = 1%R.
Proof.
  destruct (val_of_finite 1%float 4503599627370496 52 eq_refl ltac:(lia)) as [F V].
  split; [exact F|]. rewrite V. change (2 ^ 52) with 4503599627370496. field.
Qed.

Lemma val_2 : Fin 2 /\ val 2 = 2%R.
Proof.
  destruct (val_of_finite 2%float 4503599627370496 51 eq_refl ltac:(lia)) as [F V].
  split; [exact F|]. rewrite V. change (2 ^ 51) with 2251799813685248. lra.
Qed.

Lemma val_6 : Fin 6 /\ val 6 = 6%R.
Proof.
  destruct (val_of_finite 6%float 6755399441055744 50 eq_refl ltac:(lia)) as [F V].
  split; [exact F|]. rewrite V. change (2 ^ 50) with 1125899906842624. lra.
Qed.

Lemma val_255 : Fin 255 /\ val 255 = 255%R.
Proof.
  destruct (val_of_finite 255%float 8972014882652160 45 eq_refl ltac:(lia)) as [F V].
  split; [exact F|]. rewrite V. change (2 ^ 45) with 35184372088832. lra.
Qed.

Lemma val_half : Fin 0.5 /\ val 0.5 = (1 / 2)%R.
Proof.
  destruct (val_of_finite 0.5%float 4503599627370496 53 eq_refl ltac:(lia)) as [F V].
  split; [exact F|]. rewrite V. change (2 ^ 53) with 9007199254740992. lra.
Qed.

Lemma val_ONE_SIXTH :
  Fin Colorsys.ONE_SIXTH /\ (val Colorsys.ONE_SIXTH <= 1 / 6)%R.
Proof.
  destruct (val_of_finite Colorsys.ONE_SIXTH 6004799503160661 55 eq_refl ltac:(lia)) as [F V].
  split; [exact F|]. rewrite V. change (2 ^ 55) with 36028797018963968. lra.
Qed.

Lemma val_TWO_THIRD :
  Fin Colorsys.TWO_THIRD
  /\ (2 / 3 - 1 / 1000000 <= val Colorsys.TWO_THIRD <= 2 / 3)%R.
Proof.
  destruct (val_of_finite Colorsys.TWO_THIRD 6004799503160661 53 eq_refl ltac:(lia)) as [F V].
  split; [exact F|]. rewrite V. change (2 ^ 53) with 9007199254740992. lra.
Qed.

Lemma pow2_m29_small : (0 < pow2 (-29) <= 1 / 500000000)%R.
Proof.
  split; [apply pow2_pos|]. change (-29) with (- (29)). rewrite pow2_neg, pow2_IZR by lia.
  change (2 ^ 29) with 536870912. lra.
Qed.

Lemma pow2_21_val : pow2 21 = 2097152%R.
Proof. rewrite pow2_IZR by lia. reflexivity. Qed.

Lemma Rabs_bound_inv (x a : R) : (Rabs x <= a)%R -> (- a <= x <= a)%R.
Proof. unfold Rabs. destruct (Rcase_abs x); lra. Qed.

Lemma Rabs_bound_lt (x a : R) : (- a < x < a)%R -> (Rabs x < a)%R.
Proof. unfold Rabs. destruct (Rcase_abs x); lra. Qed.

(** ** The remainder modulo 1.0 *)

Lemma ldexp_of_Z_below_one (r e : Z) :
  0 < r < 2 ^ 53 -> e <= -52 -> (IZR r * pow2 e < 1)%R ->
  let f := Z.ldexp (of_uint63 (Uint63Axioms.of_Z r)) e in
  Fin f /\ (Rabs (val f) <= 1 + pow2 (-29))%R.
Proof.
  intros Hr He Hv f. unfold Fin, val, f.
  rewrite Z_ldexp_spec, of_uint63_spec, Uint63.of_Z_spec.
  rewrite Z.mod_small by (change Uint63.wB with (2 ^ 63); split; [lia|];
                          assert (2 ^ 53 < 2 ^ 63) by (apply Z.pow_lt_mono_r; lia); lia).
  destruct r as [|p|p]; try lia. cbn [binary_normalize].
  assert (Hp : (IZR (Zpos p) * pow2 0 < pow2 53)%R).
  { rewrite pow2_0, Rmult_1_r, pow2_IZR by lia. apply IZR_lt. lia. }
  destruct (binary_round_coarse false p 0 53 Hp ltac:(lia)) as (Hfin & Hs & _ & Hhi).
  change (fexp64 (53 + 1)) with 1 in Hhi. change (pow2 1) with (2 * 1)%R in Hhi.
  rewrite pow2_0, Rmult_1_r in Hhi.
  pose proof pow2_m29_small as [P29 P29'].
  pose proof (pow2_pos e) as Pe.
  pose proof (pow2_le e (-52) He) as L52.
  pose proof (pow2_le (-52) (-29) ltac:(lia)) as L5229.
  pose proof (pow2_pos (-51)) as P51.
  assert (L51 : (pow2 (-52) + pow2 (-52) + pow2 (-51) + pow2 (-51) <= pow2 (-29))%R).
  { pose proof (pow2_le (-52) (-32) ltac:(lia)). pose proof (pow2_le (-51) (-32) ltac:(lia)).
    assert (pow2 (-29) = 8 * pow2 (-32))%R
      by (replace (-29) with (-32 + 1 + 1 + 1) by lia; rewrite !pow2_succ; ring).
    pose proof (pow2_pos (-32)). lra. }
  destruct (binary_round prec emax false p 0) as [s1| | |s1 m1 e1]; try discriminate.
  - cbn [SFldexp]. split; [reflexivity|]. rewrite Rabs_SFval. simpl. lra.
  - cbn [SFldexp]. cbn [SFabsval] in Hhi.
    assert (Hv2 : (IZR (Zpos m1) * pow2 (e1 + e) < pow2 1)%R).
    { rewrite pow2_add, <- Rmult_assoc. change (pow2 1) with (2 * 1)%R.
      assert (IZR (Zpos m1) * pow2 e1 * pow2 e <= (IZR (Zpos p) + 2) * pow2 e)%R
        by (apply Rmult_le_compat_r; lra).
      lra. }
    destruct (binary_round_coarse s1 m1 (e1 + e) 1 Hv2 ltac:(lia)) as (Hfin2 & Hs2 & _ & Hhi2).
    split; [assumption|]. rewrite Rabs_SFval.
    change (fexp64 (1 + 1)) with (-51) in Hhi2.
    rewrite pow2_add, <- Rmult_assoc in Hhi2.
    assert (IZR (Zpos m1) * pow2 e1 * pow2 e <= (IZR (Zpos p) + 2) * pow2 e)%R
      by (apply Rmult_le_compat_r; lra).
    lra.
Qed.

Lemma Fin_opp (f : float) : Fin f -> Fin (- f) /\ val (- f) = (- val f)%R.
Proof.
  unfold Fin, val. rewrite FloatAxioms.opp_spec.
  destruct (Prim2SF f) as [s| | |s m e]; try discriminate; intros _;
    (split; [reflexivity|]); unfold SFval; destruct s; simpl; lra.
Qed.

Lemma fmod_one_cases (x : float) :
  Prim2SF (fmod x 1) = S754_nan
  \/ (Fin (fmod x 1) /\ (Rabs (val (fmod x 1)) <= 1 + pow2 (-29))%R).
Proof.
  pose proof pow2_m29_small as [P29 _].
  unfold fmod. change (Prim2SF 1) with (S754_finite false 4503599627370496 (-52)).
  pose proof (Prim2SF_valid x) as Vx.
  destruct (Prim2SF x) as [sx|sx| |sx mx ex] eqn:Ex.
  - right. destruct (val_of_zero x sx Ex) as [F V]. split; [exact F|].
    rewrite V, Rabs_R0. lra.
  - left. reflexivity.
  - left. reflexivity.
  - set (e := Z.min ex (-52)).
    set (r := (Zpos mx * 2 ^ (ex - e)) mod (4503599627370496 * 2 ^ (-52 - e))).
    destruct (r =? 0) eqn:Er.
    + right. destruct sx.
      * destruct (val_of_zero neg_zero true eq_refl) as [F V]. split; [exact F|].
        rewrite V, Rabs_R0. lra.
      * destruct (val_of_zero zero false eq_refl) as [F V]. split; [exact F|].
        rewrite V, Rabs_R0. lra.
    + apply Z.eqb_neq in Er. right.
      assert (HY : 4503599627370496 * 2 ^ (-52 - e) = 2 ^ (- e)).
      { change 4503599627370496 with (2 ^ 52). rewrite <- Z.pow_add_r by (unfold e; lia).
        f_equal. lia. }
      assert (HYpos : 0 < 2 ^ (- e)) by (apply Z.pow_pos_nonneg; unfold e; lia).
      assert (Hmod : 0 <= r < 2 ^ (- e)).
      { unfold r. rewrite HY. apply Z.mod_pos_bound. exact HYpos. }
      assert (Hr53 : r < 2 ^ 53).
      { destruct (valid_finite_inv _ _ _ Vx) as (_ & Hd & _).
        pose proof (digits2_pos_bounds mx) as [_ Hhi].
        assert (2 ^ Zpos (digits2_pos mx) <= 2 ^ 53) by (apply Z.pow_le_mono_r; lia).
        destruct (Z_le_gt_dec ex (-52)) as [Hle|Hgt].
        - assert (Hle' : r <= Zpos mx * 2 ^ (ex - e)).
          { unfold r. apply Z.mod_le; [|rewrite HY; assumption].
            apply Z.mul_nonneg_nonneg; [lia|apply Z.pow_nonneg; lia]. }
          replace (ex - e) with 0 in Hle' by (unfold e; lia). simpl in Hle'. lia.
        - assert (2 ^ (- e) <= 2 ^ 53) by (apply Z.pow_le_mono_r; unfold e; lia). lia. }
      assert (Hval : (IZR r * pow2 e < 1)%R).
      { apply Rmult_lt_reg_r with (pow2 (- e)); [apply pow2_pos|].
        rewrite Rmult_assoc, <- pow2_add. replace (e + - e) with 0 by lia.
        rewrite pow2_0, Rmult_1_r, Rmult_1_l, pow2_IZR by (unfold e; lia).
        apply IZR_lt. lia. }
      destruct (ldexp_of_Z_below_one r e ltac:(lia) ltac:(unfold e; lia) Hval) as [F B].
      destruct sx; [|split; assumption].
      destruct (Fin_opp _ F) as [F' V']. split; [exact F'|]. now rewrite V', Rabs_Ropp.
Qed.

Lemma float_rem_one (x t : float) :
  float_rem x 1 = Ok t ->
  Prim2SF t = S754_nan
  \/ (Fin t /\ (- (2 * pow2 (-29)) <= val t <= 1 + 2 * pow2 (-29))%R).
Proof.
  pose proof pow2_m29_small as [P29 P29'].
  destruct val_0 as [F0 V0]. destruct val_1 as [F1 V1].
  unfold float_rem. change (1 =? 0)%float with false.
  change (get_sign 1) with false. change (1 <? 0)%float with false. cbn [xorb].
  destruct (fmod x 1 =? 0)%float.
  - intros [= <-]. right. destruct (val_of_zero zero false eq_refl) as [F V].
    split; [exact F|]. rewrite V. lra.
  - destruct (fmod x 1 <? 0)%float eqn:Elt.
    + intros [= <-]. right.
      destruct (fmod_one_cases x) as [N|[F B]];
        [rewrite (ltb_nan_l _ _ N) in Elt; discriminate|].
      pose proof (ltb_true _ _ F F0 Elt) as Hneg. rewrite V0 in Hneg.
      apply Rabs_bound_inv in B.
      destruct (add_small (fmod x 1) 1 F F1) as [Ft Et].
      { rewrite V1, pow2_21_val. apply Rabs_bound_lt. lra. }
      split; [exact Ft|]. rewrite V1 in Et. apply Rabs_bound_inv in Et.
      pose proof (pow2_le (-30) (-29) ltac:(lia)). lra.
    + intros [= <-]. destruct (fmod_one_cases x) as [N|[F B]]; [now left|right].
      split; [exact F|]. pose proof (ltb_false _ _ F F0 Elt) as Hpos. rewrite V0 in Hpos.
      apply Rabs_bound_inv in B. lra.
Qed.

(** ** Saturation and lightness as fractions *)

Lemma small_int_checks_all :
  forallb small_int_checks (map Z.of_nat (seq 1 100)) = true.
Proof. vm_compute. reflexivity. Qed.

Lemma int_to_float_small (z : Z) :
  0 < z <= 100 ->
  exists f, int_to_float z = Ok f /\ Fin f /\ SFsign (Prim2SF f) = false /\ val f = IZR z.
Proof.
  intros Hz. pose proof small_int_checks_all as H. rewrite forallb_forall in H.
  assert (Hin : In z (map Z.of_nat (seq 1 100))).
  { rewrite <- (Z2Nat.id z) by lia. apply in_map, in_seq. lia. }
  specialize (H z Hin). unfold small_int_checks in H.
  destruct (int_to_float z) as [f|]; [|discriminate]. exists f. split; [reflexivity|].
  unfold Fin, val. destruct (Prim2SF f) as [| | |[] m e]; try discriminate.
  apply andb_true_iff in H. destruct H as [He Hm].
  apply Z.ltb_lt in He. apply Z.eqb_eq in Hm.
  repeat split. unfold SFval. cbn [SFsign SFabsval]. rewrite Hm.
  replace (- e) with (0 - e) by lia. rewrite (IZR_scale z 0 e) by lia.
  rewrite pow2_0. lra.
Qed.

Lemma cmp_float_int_Gt_0 (y : float) :
  cmp_float_int y 0 = Some Gt ->
  (exists m e, Prim2SF y = S754_finite false m e) \/ Prim2SF y = S754_infinity false.
Proof.
  unfold cmp_float_int. destruct (Prim2SF y) as [s|s| |s m e]; try discriminate.
  - destruct s; [discriminate|]. now right.
  - intros H. left. exists m, e. destruct s; [|reflexivity]. exfalso.
    injection H as H. destruct (Z.leb_spec 0 e) as [He|He].
    + apply Z.compare_gt_iff in H. pose proof (Z.pow_pos_nonneg 2 e ltac:(lia) He).
      destruct (2 ^ e); lia.
    + discriminate H.
Qed.

Lemma cmp_float_int_Lt_100 (y : float) (m : positive) (e : Z) :
  Prim2SF y = S754_finite false m e ->
  cmp_float_int y 100 = Some Lt -> (val y < 100)%R.
Proof.
  intros Hy. unfold cmp_float_int, val. rewrite Hy. unfold SFval. cbn [SFsign SFabsval].
  intros H0.
  assert (H : (if 0 <=? e then Z.pos m * 2 ^ e ?= 100 else Z.pos m ?= 100 * 2 ^ (- e)) = Lt)
    by congruence.
  clear H0. destruct (Z.leb_spec 0 e) as [He|He].
  - apply Z.compare_lt_iff in H. rewrite pow2_IZR, <- mult_IZR by lia. now apply IZR_lt.
  - apply Z.compare_lt_iff in H.
    apply Rmult_lt_reg_r with (pow2 (- e)); [apply pow2_pos|].
    rewrite Rmult_assoc, <- pow2_add. replace (e + - e) with 0 by lia.
    rewrite pow2_0, Rmult_1_r, pow2_IZR, <- mult_IZR by lia. now apply IZR_lt.
Qed.

Lemma val_100 : Fin 100 /\ val 100 = 100%R.
Proof.
  destruct (val_of_finite 100%float 7036874417766400 46 eq_refl ltac:(lia)) as [F V].
  split; [exact F|]. rewrite V. change (2 ^ 46) with 70368744177664. lra.
Qed.

Lemma clamp_percent (x : num) (f : float) :
  to_float (clamp x) = Ok f -> percent f.
Proof.
  destruct (clamp_cases x) as [-> | [-> | (-> & Hpos & Hlt)]].
  - change (to_float (Int 0)) with (Ok zero). intros [= <-].
    destruct (val_of_zero zero false eq_refl) as [F V].
    repeat split; try assumption; rewrite V; lra.
  - change (to_float (Int 100)) with (Ok 100%float). intros [= <-].
    destruct val_100 as [F V]. repeat split; try assumption; rewrite V; lra.
  - destruct x as [z|y]; cbn [to_float].
    + simpl in Hpos, Hlt. apply Z.ltb_lt in Hpos. apply Z.ltb_lt in Hlt.
      destruct (int_to_float_small z ltac:(lia)) as (g & -> & F & S & V).
      intros [= <-]. repeat split; try assumption; rewrite V.
      * apply IZR_le. lia.
      * apply IZR_le. lia.
    + intros [= ->]. cbn [lt] in Hpos, Hlt.
      destruct (cmp_float_int f 0) as [[]|] eqn:C0; try discriminate.
      destruct (cmp_float_int f 100) as [[]|] eqn:C100; try discriminate.
      destruct (cmp_float_int_Gt_0 f C0) as [(m & e & Hf)|Hinf].
      * pose proof (cmp_float_int_Lt_100 f m e Hf C100) as Hv.
        unfold percent, Fin. rewrite Hf. repeat split; [|lra].
        unfold val. rewrite Hf. unfold SFval. cbn [SFsign SFabsval].
        apply Rmult_le_pos; [apply IZR_le; lia|left; apply pow2_pos].
      * unfold cmp_float_int in C100. rewrite Hinf in C100. discriminate.
Qed.

Lemma SFval_nonneg (x : spec_float) : SFsign x = false -> (0 <= SFval x)%R.
Proof.
  intros H. unfold SFval. rewrite H. destruct x; simpl; try lra.
  apply Rmult_le_pos; [apply IZR_le; lia|left; apply pow2_pos].
Qed.

Lemma div_100_fraction (f g : float) :
  percent f -> float_div f 100 = Ok g -> fraction g.
Proof.
  intros (F & S & V). unfold float_div. change (100 =? 0)%float with false.
  intros [= <-]. unfold fraction, Fin, val. rewrite div_spec.
  change (Prim2SF 100) with (S754_finite false 7036874417766400 (-46)).
  destruct val_100 as [_ V100]. unfold val in V100.
  change (Prim2SF 100) with (S754_finite false 7036874417766400 (-46)) in V100.
  destruct (SFdiv_coarse (Prim2SF f) 7036874417766400 (-46) F S) as (Hfin & Hs & Herr).
  - rewrite V100, pow2_21_val. unfold val in V. lra.
  - unfold SF64div. split; [assumption|]. rewrite V100 in Herr.
    apply Rabs_bound_inv in Herr. pose proof (SFval_nonneg _ Hs). unfold val in V.
    pose proof pow2_m29_small. lra.
Qed.

(** ** Operations on floats of moderate size *)

Lemma pow2_m30_small : (0 < pow2 (-30) <= 1 / 1000000000)%R.
Proof.
  split; [apply pow2_pos|]. change (-30) with (- (30)). rewrite pow2_neg, pow2_IZR by lia.
  change (2 ^ 30) with 1073741824. lra.
Qed.

Lemma Rabs_mul_16 (x y : R) :
  (-16 <= x <= 16)%R -> (-16 <= y <= 16)%R -> (Rabs (x * y) < pow2 21)%R.
Proof.
  intros Hx Hy. rewrite pow2_21_val, Rabs_mult.
  assert (Rabs x <= 16)%R by (apply Rabs_le; lra).
  assert (Rabs y <= 16)%R by (apply Rabs_le; lra).
  pose proof (Rabs_pos x). pose proof (Rabs_pos y).
  apply Rle_lt_trans with (16 * 16)%R; [|lra].
  apply Rmult_le_compat; assumption.
Qed.

Lemma add_near (x y : float) :
  Fin x -> Fin y -> (-16 <= val x <= 16)%R -> (-16 <= val y <= 16)%R ->
  Fin (x + y)
  /\ (val x + val y - pow2 (-30) <= val (x + y) <= val x + val y + pow2 (-30))%R.
Proof.
  intros Fx Fy Hx Hy. destruct (add_small x y Fx Fy) as [F E].
  - apply Rabs_bound_lt. rewrite pow2_21_val. lra.
  - split; [exact F|]. apply Rabs_bound_inv in E. lra.
Qed.

Lemma sub_near (x y : float) :
  Fin x -> Fin y -> (-16 <= val x <= 16)%R -> (-16 <= val y <= 16)%R ->
  Fin (x - y)
  /\ (val x - val y - pow2 (-30) <= val (x - y) <= val x - val y + pow2 (-30))%R.
Proof.
  intros Fx Fy Hx Hy. destruct (sub_small x y Fx Fy) as [F E].
  - apply Rabs_bound_lt. rewrite pow2_21_val. lra.
  - split; [exact F|]. apply Rabs_bound_inv in E. lra.
Qed.

Lemma mul_near (x y : float) :
  Fin x -> Fin y -> (-16 <= val x <= 16)%R -> (-16 <= val y <= 16)%R ->
  Fin (x * y)
  /\ (val x * val y - pow2 (-30) <= val (x * y) <= val x * val y + pow2 (-30))%R.
Proof.
  intros Fx Fy Hx Hy. destruct (mul_small x y Fx Fy) as [F E].
  - apply Rabs_bound_lt. rewrite pow2_21_val. lra.
  - apply Rabs_bound_lt. rewrite pow2_21_val. lra.
  - now apply Rabs_mul_16.
  - split; [exact F|]. apply Rabs_bound_inv in E. lra.
Qed.

(** ** The range of [hls_to_rgb] *)

Lemma near_unit_channel (f : float) : near_unit f -> channel f.
Proof. intros [F B]. split; [exact F|lra]. Qed.

Lemma product_bound (x y a b : R) :
  (- a <= x <= a)%R -> (- b <= y <= b)%R -> (- (a * b) <= x * y <= a * b)%R.
Proof.
  intros Hx Hy.
  assert (Rabs x <= a)%R by (apply Rabs_le; lra).
  assert (Rabs y <= b)%R by (apply Rabs_le; lra).
  pose proof (Rabs_pos x). pose proof (Rabs_pos y).
  assert (Rabs (x * y) <= a * b)%R
    by (rewrite Rabs_mult; apply Rmult_le_compat; assumption).
  apply Rabs_bound_inv. assumption.
Qed.

(** The interpolation [m1 + (m2 - m1) * u * 6], for [u] within [0, 1/6] up to
    a small excess: computed with four rounded operations, it stays close
    to the interval spanned by [m1] and [m2]. *)
Lemma interpolate_channel (m1 m2 u : float) :
  near_unit m1 -> near_unit m2 -> Fin u ->
  (- (1 / 100000) <= val u <= 1 / 6 + 1 / 100000)%R ->
  channel (m1 + (m2 - m1) * u * 6).
Proof.
  intros [F1 B1] [F2 B2] Fu Bu.
  pose proof pow2_m30_small as [A0 A1]. destruct val_6 as [F6 V6].
  destruct (sub_near m2 m1 F2 F1 ltac:(lra) ltac:(lra)) as [Fd Bd].
  destruct (mul_near (m2 - m1) u Fd Fu ltac:(lra) ltac:(lra)) as [Fp Bp].
  pose proof (product_bound (val (m2 - m1)) (val u) 2 1 ltac:(lra) ltac:(lra)) as Pb.
  destruct (mul_near ((m2 - m1) * u) 6 Fp F6 ltac:(lra) ltac:(lra)) as [Fq Bq].
  rewrite V6 in Bq.
  destruct (add_near m1 ((m2 - m1) * u * 6) F1 Fq ltac:(lra) ltac:(lra)) as [Fc Bc].
  split; [exact Fc|].
  set (M1 := val m1) in *. set (M2 := val m2) in *. set (U := val u) in *.
  set (D := val (m2 - m1)) in *. set (P := val ((m2 - m1) * u)) in *.
  set (Q := val ((m2 - m1) * u * 6)) in *. set (C := val (m1 + (m2 - m1) * u * 6)) in *.
  assert (HD : (D * U <= (M2 - M1) * U + 2 / 1000000000
                /\ (M2 - M1) * U - 2 / 1000000000 <= D * U)%R).
  { destruct (Rle_dec 0 U); split; nra. }
  assert (HI : (- (2 / 10000) <= M1 + 6 * ((M2 - M1) * U) <= 1 + 2 / 10000)%R).
  { destruct (Rle_dec 0 U), (Rle_dec (6 * U) 1), (Rle_dec M1 M2); split; nra. }
  lra.
Qed.

Lemma _v_channel (m1 m2 hue c : float) :
  near_unit m1 -> near_unit m2 -> Colorsys._v m1 m2 hue = Ok c -> channel c.
Proof.
  intros N1 N2. unfold Colorsys._v.
  destruct (float_rem hue 1) as [t|] eqn:Et; [|discriminate]. cbn [bind].
  pose proof pow2_m29_small as [P0 P1]. pose proof pow2_m30_small as [A0 A1].
  destruct val_ONE_SIXTH as [F6 V6]. destruct val_half as [Fh Vh].
  destruct val_TWO_THIRD as [F23 V23].
  destruct (float_rem_one _ _ Et) as [Hnan | [Ft Bt]].
  - rewrite !(ltb_nan_l t _ Hnan). intros [= <-]. now apply near_unit_channel.
  - destruct (t <? Colorsys.ONE_SIXTH)%float eqn:E1.
    { intros [= <-]. apply (ltb_true _ _ Ft F6) in E1.
      apply interpolate_channel; try assumption. lra. }
    destruct (t <? 0.5)%float eqn:E2.
    { intros [= <-]. now apply near_unit_channel. }
    destruct (t <? Colorsys.TWO_THIRD)%float eqn:E3.
    { intros [= <-]. apply (ltb_false _ _ Ft Fh) in E2. apply (ltb_true _ _ Ft F23) in E3.
      destruct (sub_near Colorsys.TWO_THIRD t F23 Ft ltac:(lra) ltac:(lra)) as [Fu Bu].
      apply interpolate_channel; try assumption. lra. }
    intros [= <-]. now apply near_unit_channel.
Qed.

(** The anchors computed from a lightness and a saturation in [0,1]. *)
Lemma anchors_near_unit (l s : float) :
  fraction l -> fraction s ->
  let m2 := (if l <=? 0.5 then l * (1 + s) else l + s - l * s)%float in
  near_unit m2 /\ near_unit (2 * l - m2).
Proof.
  intros [Fl Bl] [Fs Bs].
  pose proof pow2_m29_small as [P0 P1]. pose proof pow2_m30_small as [A0 A1].
  destruct val_1 as [F1 V1]. destruct val_2 as [F2 V2]. destruct val_half as [Fh Vh].
  destruct (mul_near 2 l F2 Fl ltac:(lra) ltac:(lra)) as [Fw Bw]. rewrite V2 in Bw.
  destruct (l <=? 0.5)%float eqn:E; cbv zeta.
  - apply (leb_true _ _ Fl Fh) in E.
    destruct (add_near 1 s F1 Fs ltac:(lra) ltac:(lra)) as [Fu Bu]. rewrite V1 in Bu.
    destruct (mul_near l (1 + s) Fl Fu ltac:(lra) ltac:(lra)) as [Fm Bm].
    assert (HP : (0 <= val l * val (1 + s) <= 1 / 2 * (2 + 4 / 1000000000))%R)
      by (split; nra).
    destruct (sub_near (2 * l) (l * (1 + s)) Fw Fm ltac:(lra) ltac:(lra)) as [Fn Bn].
    assert (HQ : (val l * (1 - val s) - 1 / 100000000 <= 2 * val l - val l * val (1 + s)
                  <= val l * (1 - val s) + 1 / 100000000)%R) by (split; nra).
    assert (HR : (- (1 / 100000000) <= val l * (1 - val s) <= 1 / 2)%R) by (split; nra).
    split; (split; [assumption|lra]).
  - apply (leb_false _ _ Fl Fh) in E.
    destruct (add_near l s Fl Fs ltac:(lra) ltac:(lra)) as [Fp Bp].
    destruct (mul_near l s Fl Fs ltac:(lra) ltac:(lra)) as [Fq Bq].
    assert (HP : (- (1 / 100000000) <= (1 - val l) * (1 - val s) <= 1 / 2)%R)
      by (split; nra).
    assert (HQ : (- (1 / 100000000) <= val s * (1 - val l) <= 1 / 2 + 1 / 100000000)%R)
      by (split; nra).
    assert (HLS : (0 <= val l * val s <= 2)%R) by (split; nra).
    destruct (sub_near (l + s) (l * s) Fp Fq ltac:(lra) ltac:(lra)) as [Fm Bm].
    destruct (sub_near (2 * l) (l + s - l * s) Fw Fm ltac:(lra) ltac:(lra)) as [Fn Bn].
    split; (split; [assumption|lra]).
Qed.

Lemma hls_to_rgb_channels (h l s r g b : float) :
  fraction l -> fraction s ->
  Colorsys.hls_to_rgb h l s = Ok (r, g, b) ->
  channel r /\ channel g /\ channel b.
Proof.
  intros Hl Hs. unfold Colorsys.hls_to_rgb.
  destruct (s =? 0)%float.
  - intros [= <- <- <-]. destruct Hl as [Fl Bl]. pose proof pow2_m29_small.
    repeat split; try assumption; lra.
  - destruct (anchors_near_unit l s Hl Hs) as [N2 N1]. cbv zeta in N1, N2 |- *.
    set (m2 := (if l <=? 0.5 then l * (1 + s) else l + s - l * s)%float) in *.
    set (m1 := (2 * l - m2)%float) in *.
    destruct (Colorsys._v m1 m2 (h + Colorsys.ONE_THIRD)) as [r'|] eqn:Er; [|discriminate].
    cbn [bind].
    destruct (Colorsys._v m1 m2 h) as [g'|] eqn:Eg; [|discriminate]. cbn [bind].
    destruct (Colorsys._v m1 m2 (h - Colorsys.ONE_THIRD)) as [b'|] eqn:Eb; [|discriminate].
    cbn [bind]. intros [= <- <- <-].
    split; [|split].
    + exact (_v_channel m1 m2 _ r' N1 N2 Er).
    + exact (_v_channel m1 m2 _ g' N1 N2 Eg).
    + exact (_v_channel m1 m2 _ b' N1 N2 Eb).
Qed.

(** ** Channels as bytes *)

Lemma Ok_inj {A : Type} (x y : A) : Ok x = Ok y -> x = y.
Proof. intros H. now injection H. Qed.

Lemma float_to_int_bounds (x : float) (z : Z) :
  Fin x -> (-1 < val x < 256)%R -> float_to_int x = Ok z -> 0 <= z <= 255.
Proof.
  unfold Fin, val, float_to_int.
  destruct (Prim2SF x) as [s|s| |s m e]; try discriminate; intros _ B.
  - intros [= <-]. lia.
  - intros H. unfold SFval in B. cbn [SFabsval SFsign] in B.
    apply Ok_inj in H. cbv zeta in H. subst z.
    destruct (Z.leb_spec 0 e) as [He|He].
    + rewrite pow2_IZR, <- mult_IZR in B by assumption.
      pose proof (Z.pow_pos_nonneg 2 e ltac:(lia) He).
      assert (1 <= Z.pos m * 2 ^ e) by nia.
      destruct s.
      * exfalso. assert (IZR 1 <= IZR (Z.pos m * 2 ^ e))%R by (apply IZR_le; assumption).
        lra.
      * assert (Z.pos m * 2 ^ e < 256); [|lia]. apply lt_IZR. lra.
    + pose proof (Z.pow_pos_nonneg 2 (- e) ltac:(lia) ltac:(lia)) as Hp.
      assert (Hv : (IZR (Z.pos m) * pow2 e = IZR (Z.pos m) / IZR (2 ^ (- e)))%R).
      { replace e with (- (- e)) at 1 by lia. rewrite pow2_neg, pow2_IZR by lia. reflexivity. }
      rewrite Hv in B.
      assert (Hq : (0 < IZR (2 ^ (- e)))%R) by (apply IZR_lt; assumption).
      pose proof (Z.div_pos (Z.pos m) (2 ^ (- e)) ltac:(lia) Hp).
      destruct s.
      * assert (IZR (Z.pos m) < IZR (2 ^ (- e)))%R.
        { apply Rmult_lt_reg_r with (/ IZR (2 ^ (- e)))%R; [now apply Rinv_0_lt_compat|].
          rewrite Rinv_r by lra. unfold Rdiv in B. lra. }
        apply lt_IZR in H0. rewrite Z.div_small by lia. lia.
      * assert (IZR (Z.pos m) < 256 * IZR (2 ^ (- e)))%R.
        { apply Rmult_lt_reg_r with (/ IZR (2 ^ (- e)))%R; [now apply Rinv_0_lt_compat|].
          rewrite Rmult_assoc, Rinv_r by lra. unfold Rdiv in B. lra. }
        rewrite <- mult_IZR in H0. apply lt_IZR in H0.
        assert (Z.pos m / 2 ^ (- e) < 256) by (apply Z.div_lt_upper_bound; lia). lia.
Qed.

Lemma channel_byte (c : float) (z : Z) :
  channel c -> float_to_int (c * 255) = Ok z -> 0 <= z <= 255.
Proof.
  intros [F B]. destruct val_255 as [F255 V255]. pose proof pow2_m30_small as [A0 A1].
  destruct (mul_small c 255 F F255) as [Fm Bm].
  - apply Rabs_bound_lt. rewrite pow2_21_val. lra.
  - apply Rabs_bound_lt. rewrite pow2_21_val. lra.
  - apply Rabs_bound_lt. rewrite V255, pow2_21_val. lra.
  - apply Rabs_bound_inv in Bm. rewrite V255 in Bm.
    apply float_to_int_bounds; [exact Fm|lra].
Qed.

(** ** Rendering a colour with clamped saturation and lightness *)

Lemma div_100_clamp (x : num) (g : float) : div (clamp x) 100 = Ok g -> fraction g.
Proof.
  unfold div. destruct (to_float (clamp x)) as [f|] eqn:E; [|discriminate]. cbn [bind].
  apply div_100_fraction. exact (clamp_percent x f E).
Qed.

Lemma hsl_to_rgb_bytes (h s0 l0 : num) (r g b : Z) :
  hsl_to_rgb (h, clamp s0, clamp l0) = Ok (r, g, b) ->
  in_byte_range r /\ in_byte_range g /\ in_byte_range b.
Proof.
  unfold hsl_to_rgb.
  destruct (div h 360) as [hf|]; [|discriminate]. cbn [bind].
  destruct (div (clamp s0) 100) as [sf|] eqn:Es; [|discriminate]. cbn [bind].
  destruct (div (clamp l0) 100) as [lf|] eqn:El; [|discriminate]. cbn [bind].
  destruct (Colorsys.hls_to_rgb hf lf sf) as [[[r' g'] b']|] eqn:Eh; [|discriminate].
  cbn [bind].
  destruct (hls_to_rgb_channels hf lf sf r' g' b' (div_100_clamp _ _ El) (div_100_clamp _ _ Es) Eh)
    as (Cr & Cg & Cb).
  destruct (float_to_int (r' * 255)) as [zr|] eqn:Er; [|discriminate]. cbn [bind].
  destruct (float_to_int (g' * 255)) as [zg|] eqn:Eg; [|discriminate]. cbn [bind].
  destruct (float_to_int (b' * 255)) as [zb|] eqn:Eb; [|discriminate]. cbn [bind].
  intros [= <- <- <-]. unfold in_byte_range.
  split; [|split].
  - exact (channel_byte _ _ Cr Er).
  - exact (channel_byte _ _ Cg Eg).
  - exact (channel_byte _ _ Cb Eb).
Qed.

Lemma render_clamped (h s0 l0 : num) (str : string) :
  render (h, clamp s0, clamp l0) = Ok str -> is_lower_hex_color str = true.
Proof.
  unfold render.
  destruct (hsl_to_rgb (h, clamp s0, clamp l0)) as [[[r g] b]|] eqn:E; [|discriminate].
  cbn [bind]. intros [= <-].
  destruct (hsl_to_rgb_bytes _ _ _ _ _ _ E) as (Hr & Hg & Hb).
  now apply rgb_to_hex_is_hex_color.
Qed.

Lemma render_adjusted (c c' : hsl) (hs sa la : Z) (str : string) :
  adjust_hsl c hs sa la = Ok c' -> render c' = Ok str -> is_lower_hex_color str = true.
Proof.
  intros Ha Hr. destruct (adjust_hsl_inv _ _ _ _ _ Ha) as (h & s0 & l0 & ->).
  exact (render_clamped _ _ _ _ Hr).
Qed.

(** ** The colours of a palette *)

Lemma all_values_nil {V : Type} (P : V -> Prop) : all_values P [].
Proof. intros k v []. Qed.

Lemma all_values_set {V : Type} (P : V -> Prop) (d : dict V) (k : string) (v : V) :
  all_values P d -> P v -> all_values P (dict_set d k v).
Proof.
  intros Hd Hv. induction d as [|[k0 v0] d IH]; simpl.
  - intros k' v' [[= <- <-]|[]]. exact Hv.
  - destruct (String.eqb k k0).
    + intros k' v' [[= <- <-]|Hin]; [exact Hv|]. apply (Hd k' v'). now right.
    + intros k' v' [[= <- <-]|Hin].
      * apply (Hd k0 v0). now left.
      * apply (IH (fun a b H => Hd a b (or_intror H)) k' v' Hin).
Qed.

Lemma all_values_find {V : Type} (P : V -> Prop) (d : dict V) (k : string) (v : V) :
  all_values P d -> dict_find d k = Some v -> P v.
Proof.
  intros Hd. induction d as [|[k0 v0] d IH]; simpl; [discriminate|].
  destruct (String.eqb k k0).
  - intros [= <-]. apply (Hd k0 v0). now left.
  - apply IH. intros a b H. apply (Hd a b). now right.
Qed.

Lemma dict_comp_all_values {A B : Type} (f : A -> result B) (P : A -> Prop)
    (Q : B -> Prop) (items : dict A) :
  (forall a b, P a -> f a = Ok b -> Q b) ->
  all_values P items ->
  forall acc d, all_values Q acc -> dict_comp f items acc = Ok d -> all_values Q d.
Proof.
  intros Hf. induction items as [|[k0 v0] items IH]; intros Hitems acc d Hacc; simpl.
  - now intros [= <-].
  - destruct (f v0) as [b|] eqn:Ef; [|discriminate]. cbn [bind].
    apply IH.
    + intros a b' H. apply (Hitems a b'). now right.
    + apply all_values_set; [exact Hacc|].
      apply (Hf v0 b); [|exact Ef]. apply (Hitems k0 v0). now left.
Qed.

Lemma list_get_In {A : Type} (l : list A) (i : nat) (x : A) :
  list_get l i = Ok x -> In x l.
Proof.
  unfold list_get. destruct (nth_error l i) eqn:E; [|discriminate].
  intros [= <-]. exact (nth_error_In _ _ E).
Qed.

Lemma entry_index_hex (e : entry) (i : nat) (c : string) :
  hex_entry e -> entry_index e i = Ok c -> is_lower_hex_color c = true.
Proof.
  intros He. destruct e as [ramp|g]; simpl; [|discriminate].
  intros H. apply He. simpl. exact (list_get_In _ _ _ H).
Qed.

Lemma shade_ramp_hex (c : hsl) (ramp : list string) :
  (exists h s0 l0, c = (h, clamp s0, clamp l0)) ->
  shade_ramp c = Ok ramp -> hex_entry (Shades ramp).
Proof.
  intros (h & s0 & l0 & ->) H.
  destruct (shade_ramp_inv _ _ H) as (dk & lt & d & b & l & Hdk & Hlt & Rd & Rb & Rl & ->).
  intros x [<-|[<-|[<-|[]]]].
  - exact (render_adjusted _ _ _ _ _ _ Hdk Rd).
  - exact (render_clamped _ _ _ _ Rb).
  - exact (render_adjusted _ _ _ _ _ _ Hlt Rl).
Qed.

Lemma adjust_all_clamped (pre hsl_colors : dict hsl) (hs sa la : Z) :
  adjust_all pre hs sa la = Ok hsl_colors ->
  all_values (fun c => exists h s0 l0, c = (h, clamp s0, clamp l0)) hsl_colors.
Proof.
  unfold adjust_all.
  apply (dict_comp_all_values _ (fun _ => True)).
  - intros a b _ H. exact (adjust_hsl_inv _ _ _ _ _ H).
  - intros k v _. exact I.
  - apply all_values_nil.
Qed.

Lemma semantic_colors_hex (hs sa la : Z) (semantic : dict string) :
  semantic_colors hs sa la = Ok semantic -> hex_entry (Group semantic).
Proof.
  unfold semantic_colors. intros H.
  assert (A : all_values (fun c => is_lower_hex_color c = true) semantic).
  { revert H. apply (dict_comp_all_values _ (fun _ => True)).
    - intros a b _. destruct (adjust_hsl _ hs sa la) as [c|] eqn:E; [|discriminate].
      cbn [bind]. exact (render_adjusted _ _ _ _ _ _ E).
    - intros k v _. exact I.
    - apply all_values_nil. }
  intros c Hc. simpl in Hc. apply in_map_iff in Hc. destruct Hc as ([k v] & <- & Hin).
  exact (A k v Hin).
Qed.

Lemma surface_colors_hex (mode : string) (surface : dict string) :
  surface_colors mode = Ok surface -> hex_entry (Group surface).
Proof.
  destruct (String.eqb mode "light") eqn:E.
  - apply String.eqb_eq in E. subst mode. rewrite surface_colors_light. intros [= <-].
    intros c [<-|[<-|[<-|[<-|[]]]]]; reflexivity.
  - rewrite (surface_colors_not_light mode E). intros [= <-].
    intros c [<-|[<-|[<-|[<-|[]]]]]; reflexivity.
Qed.

Lemma brand_colors_hex (hsl_colors : dict hsl) (pal : palette) (brand : dict string) :
  all_values hex_entry pal ->
  brand_colors hsl_colors pal = Ok brand -> hex_entry (Group brand).
Proof.
  intros Hpal H.
  destruct (brand_colors_inv _ _ _ H)
    as (p & newPrimary & c & inv & inversePrimary & newAccent
        & Hp & Hnp & Hc & Hinv & Hrender & Hacc & ->).
  pose proof (all_values_find _ _ _ _ Hpal Hp) as Hexp.
  intros x [<-|[<-|[<-|[]]]].
  - exact (entry_index_hex _ _ _ Hexp Hnp).
  - exact (render_adjusted _ _ _ _ _ _ Hinv Hrender).
  - destruct (dict_mem pal "secondary").
    + destruct Hacc as (e & He & Hidx).
      exact (entry_index_hex _ _ _ (all_values_find _ _ _ _ Hpal He) Hidx).
    + exact (entry_index_hex _ _ _ Hexp Hacc).
Qed.

(** C5. Whenever [generate_palette] returns a palette, every final colour
    in it - the three shades of each role, and the values of the semantic,
    surface and brand groups - is a HexColor in lower case: [#] followed by
    exactly six digits among 0-9 and a-f. *)
Theorem palette_colors_are_hex_colors (colors : colors_arg) (mode harmony : string)
    (hs sa la : Z) (p : palette) :
  generate_palette colors mode harmony hs sa la = Ok p ->
  forall c, In c (palette_colors p) -> is_lower_hex_color c = true.
Proof.
  intros H.
  destruct (generate_palette_inv _ _ _ _ _ _ _ H)
    as (hsl_colors & ramps & semantic & surface & brand
        & Hroles & Hramps & Hsem & Hsurf & Hbrand & ->).
  destruct (role_colors_inv _ _ _ _ _ _ Hroles) as (pre & _ & Hadj).
  assert (R : all_values hex_entry ramps).
  { assert (Hf : forall a b, (exists h s0 l0, a = (h, clamp s0, clamp l0)) ->
                   (ramp <- shade_ramp a ;; Ok (Shades ramp)) = Ok b -> hex_entry b).
    { intros a b Ha. destruct (shade_ramp a) as [ramp|] eqn:E; [|discriminate].
      cbn [bind]. intros [= <-]. exact (shade_ramp_hex a ramp Ha E). }
    exact (dict_comp_all_values _ _ _ _ Hf (adjust_all_clamped _ _ _ _ _ Hadj)
             [] ramps (all_values_nil _) Hramps). }
  assert (G : all_values hex_entry
                (dict_set (dict_set ramps "semantic" (Group semantic))
                          "surface" (Group surface))).
  { apply all_values_set; [apply all_values_set|]; [exact R| |].
    - exact (semantic_colors_hex _ _ _ _ Hsem).
    - exact (surface_colors_hex _ _ Hsurf). }
  pose proof (all_values_set _ _ "brand" _ G (brand_colors_hex _ _ _ G Hbrand)) as F.
  intros c Hc. unfold palette_colors in Hc. apply in_flat_map in Hc.
  destruct Hc as ([k e] & Hin & Hc). exact (F k e Hin c Hc).
Qed.

Lemma palette_colors_are_hex_colors_witness :
  exists p, generate_palette (Seed "#4287f5") "light" "1" 0 0 0 = Ok p
            /\ forall c, In c (palette_colors p) -> is_lower_hex_color c = true.
Proof.
  destruct (generate_palette (Seed "#4287f5") "light" "1" 0 0 0) as [p|] eqn:E;
    [|vm_compute in E; discriminate E].
  exists p. split; [reflexivity|].
  exact (palette_colors_are_hex_colors _ _ _ _ _ _ _ E).
Defined.

(** * Further properties of the code *)

(** ** The hex codec beyond bytes and HexColors *)

Lemma codec_checks_all :
  forallb (fun a => forallb (codec_checks a) all_ascii) all_ascii = true.
Proof. vm_compute. reflexivity. Qed.

Lemma single_checks_all :
  forallb (fun a => literal_checks (String a "")) all_ascii = true.
Proof. vm_compute. reflexivity. Qed.

Lemma codec_checks_true (a b : ascii) : codec_checks a b = true.
Proof.
  pose proof codec_checks_all as H.
  rewrite forallb_forall in H. specialize (H a (in_all_ascii a)).
  rewrite forallb_forall in H. exact (H b (in_all_ascii b)).
Qed.

Lemma result_eqb_eq (x y : result Z) : result_eqb x y = true -> x = y.
Proof.
  destruct x as [a|[]], y as [b|[]]; simpl; try discriminate; try reflexivity.
  intros H. apply Z.eqb_eq in H. now subst.
Qed.

(** A slice of width two is empty, one character or two characters. *)
Lemma slice_two_cases (s : string) (i : nat) :
  Str.slice s i (i + 2) = ""
  \/ (exists a, Str.slice s i (i + 2) = String a "")
  \/ (exists a b, Str.slice s i (i + 2) = String a (String b "")).
Proof.
  unfold Str.slice. replace (i + 2 - i)%nat with 2%nat by lia.
  destruct (Str.drop i s) as [|a [|b t]]; simpl.
  - now left.
  - right. left. now exists a.
  - right. right. now exists a, b.
Qed.

Lemma literal_checks_slice (s : string) (i : nat) :
  literal_checks (Str.slice s i (i + 2)) = true.
Proof.
  destruct (slice_two_cases s i) as [-> | [[a ->] | [a [b ->]]]].
  - reflexivity.
  - pose proof single_checks_all as H. rewrite forallb_forall in H.
    exact (H a (in_all_ascii a)).
  - pose proof (codec_checks_true a b) as H. unfold codec_checks in H.
    apply andb_true_iff in H. apply H.
Qed.

Lemma int16_slice_range (s : string) (i : nat) (v : Z) :
  Str.int16 (Str.slice s i (i + 2)) = Ok v -> -15 <= v <= 255.
Proof.
  intros E. pose proof (literal_checks_slice s i) as H. unfold literal_checks in H.
  rewrite E in H. apply andb_true_iff in H. destruct H as [H _]. lia.
Qed.

Lemma drop_lower (n : nat) (s : string) :
  Str.drop n (string_lower s) = string_lower (Str.drop n s).
Proof.
  revert s. induction n as [|n IH]; intros [|c s]; simpl; try reflexivity. apply IH.
Qed.

Lemma take_lower (n : nat) (s : string) :
  Str.take n (string_lower s) = string_lower (Str.take n s).
Proof.
  revert s. induction n as [|n IH]; intros [|c s]; simpl; try reflexivity.
  now rewrite IH.
Qed.

Lemma int16_slice_lower (s : string) (i : nat) :
  Str.int16 (Str.slice (string_lower s) i (i + 2)) = Str.int16 (Str.slice s i (i + 2)).
Proof.
  pose proof (literal_checks_slice s i) as H. unfold literal_checks in H.
  apply andb_true_iff in H. destruct H as [_ H]. apply result_eqb_eq in H.
  unfold Str.slice in *. now rewrite drop_lower, take_lower.
Qed.

(** X1. Decoding a HexColor and encoding the result gives the colour
    back in lower case: [rgb_to_hex(hex_to_rgb(s)) == s.lower()]. *)
Theorem hex_roundtrip_lower_case (s : string) :
  is_hex_color s = true ->
  exists c, hex_to_rgb s = Ok c /\ rgb_to_hex c = string_lower s.
Proof.
  intros Hs.
  destruct (is_hex_color_inv s Hs)
    as (c1 & c2 & c3 & c4 & c5 & c6 & r & g & b & -> & Hr & Hg & Hb).
  exists (r, g, b). split; [now apply hex_to_rgb_pairs|].
  assert (P : forall a b v, hex_pair a b = Some v ->
                Str.fmt02x v = String (ascii_lower a) (String (ascii_lower b) "")).
  { intros a b' v Hv. pose proof (codec_checks_true a b') as H. unfold codec_checks in H.
    rewrite Hv in H. apply andb_true_iff in H. destruct H as [_ H].
    now apply String.eqb_eq in H. }
  unfold rgb_to_hex. rewrite (P _ _ _ Hr), (P _ _ _ Hg), (P _ _ _ Hb). reflexivity.
Qed.

Lemma hex_roundtrip_lower_case_witness :
  exists c, hex_to_rgb "#4287F5" = Ok c /\ rgb_to_hex c = "#4287f5".
Proof. exact (hex_roundtrip_lower_case "#4287F5" eq_refl). Defined.

(** X2. Whatever the string, a channel that [hex_to_rgb] returns lies in
    [-15, 255]: a pair of characters never reads above [ff], and a signed
    digit such as [-f] reads down to -15. *)
Theorem hex_to_rgb_channel_range (s : string) (r g b : Z) :
  hex_to_rgb s = Ok (r, g, b) ->
  -15 <= r <= 255 /\ -15 <= g <= 255 /\ -15 <= b <= 255.
Proof.
  unfold hex_to_rgb.
  destruct (Str.int16 (Str.slice s 1 3)) as [r'|] eqn:Er; [|discriminate]. cbn [bind].
  destruct (Str.int16 (Str.slice s 3 5)) as [g'|] eqn:Eg; [|discriminate]. cbn [bind].
  destruct (Str.int16 (Str.slice s 5 7)) as [b'|] eqn:Eb; [|discriminate]. cbn [bind].
  intros [= <- <- <-].
  split; [|split].
  - exact (int16_slice_range s 1 r' Er).
  - exact (int16_slice_range s 3 g' Eg).
  - exact (int16_slice_range s 5 b' Eb).
Qed.

Lemma hex_to_rgb_channel_range_witness :
  -15 <= -15 <= 255 /\ -15 <= 255 <= 255 /\ -15 <= 7 <= 255.
Proof. exact (hex_to_rgb_channel_range "#-fFF 7" (-15) 255 7 eq_refl). Defined.

(** X3. [hex_to_rgb] does not tell upper case from lower case: on every
    string, valid or not, it returns (or raises) the same as on the
    lower-cased string. *)
Theorem hex_to_rgb_ignores_case (s : string) :
  hex_to_rgb (string_lower s) = hex_to_rgb s.
Proof.
  unfold hex_to_rgb.
  pose proof (int16_slice_lower s 1) as H1. pose proof (int16_slice_lower s 3) as H3.
  pose proof (int16_slice_lower s 5) as H5.
  change (1 + 2)%nat with 3%nat in H1. change (3 + 2)%nat with 5%nat in H3.
  change (5 + 2)%nat with 7%nat in H5.
  now rewrite H1, H3, H5.
Qed.

(** ** [rgb_to_hex] outside the byte range *)

Lemma length_app_string (a b : string) :
  String.length (a ++ b) = (String.length a + String.length b)%nat.
Proof. induction a as [|c a IH]; simpl; [reflexivity|now rewrite IH]. Qed.

Lemma list_ascii_app (a b : string) :
  list_ascii_of_string (a ++ b) = (list_ascii_of_string a ++ list_ascii_of_string b)%list.
Proof. induction a as [|c a IH]; simpl; [reflexivity|now rewrite IH]. Qed.

Lemma hex_of_length (fuel : nat) (n : Z) (acc : string) :
  (String.length acc + match fuel with O => 0 | S _ => 1 end
   <= String.length (Str.hex_of fuel n acc))%nat.
Proof.
  revert n acc. induction fuel as [|fuel IH]; intros n acc; simpl; [lia|].
  destruct (n <? 16); simpl; [lia|].
  specialize (IH (n / 16) (String (Str.hex_char (n mod 16)) acc)). simpl in IH.
  destruct fuel; lia.
Qed.

(** A number from 256 on has at least three base-16 digits. *)
Lemma hex_length_3 (n : Z) : 256 <= n -> (3 <= String.length (Str.hex n))%nat.
Proof.
  intros Hn. unfold Str.hex.
  assert (Hlog : 8 <= Z.log2 n) by (apply Z.log2_le_pow2; lia).
  destruct (Z.to_nat (Z.log2 n)) as [|[|k]] eqn:E; try lia.
  cbn [Str.hex_of].
  destruct (Z.ltb_spec n 16); [lia|].
  destruct (Z.ltb_spec (n / 16) 16) as [H16|H16].
  - exfalso. assert (16 <= n / 16) by (apply Z.div_le_lower_bound; lia). lia.
  - pose proof (hex_of_length (S k) (n / 16 / 16)
                  (String (Str.hex_char (n / 16 mod 16)) (String (Str.hex_char (n mod 16)) ""))) as L.
    simpl String.length in L. cbn [Str.hex_of] in L |- *. lia.
Qed.

Lemma hex_length_1 (n : Z) : (1 <= String.length (Str.hex n))%nat.
Proof. unfold Str.hex. pose proof (hex_of_length (S (Z.to_nat (Z.log2 n))) n ""). simpl in *. lia. Qed.

Lemma fmt02x_length (v : Z) : (2 <= String.length (Str.fmt02x v))%nat.
Proof.
  unfold Str.fmt02x. pose proof (hex_length_1 (Z.abs v)) as L.
  set (d := Str.hex (Z.abs v)) in *.
  destruct (v <? 0); cbn [String.length].
  - replace (1 + String.length d <? 2)%nat with false by (symmetry; apply Nat.ltb_ge; lia).
    simpl. lia.
  - destruct (Nat.ltb_spec (0 + String.length d) 2); simpl; lia.
Qed.

Lemma fmt02x_length_big (v : Z) : 256 <= v -> (3 <= String.length (Str.fmt02x v))%nat.
Proof.
  intros Hv. unfold Str.fmt02x. rewrite Z.abs_eq by lia.
  pose proof (hex_length_3 v Hv) as L.
  replace (v <? 0) with false by (symmetry; apply Z.ltb_ge; lia). cbn [String.length].
  replace (0 + String.length (Str.hex v) <? 2)%nat with false
    by (symmetry; apply Nat.ltb_ge; lia).
  simpl. exact L.
Qed.

Lemma fmt02x_negative (v : Z) : v < 0 -> exists t, Str.fmt02x v = String "-" t.
Proof.
  intros Hv. unfold Str.fmt02x.
  replace (v <? 0) with true by (symmetry; apply Z.ltb_lt; lia).
  simpl. eexists; reflexivity.
Qed.

(** A channel whose [02x] text is two hexadecimal digits is a byte. *)
Lemma fmt02x_two_digits (v : Z) :
  String.length (Str.fmt02x v) = 2%nat ->
  forallb is_hex_digit (list_ascii_of_string (Str.fmt02x v)) = true ->
  in_byte_range v.
Proof.
  intros Hlen Hdig. unfold in_byte_range.
  destruct (Z_lt_ge_dec v 0) as [Hneg|Hpos].
  - destruct (fmt02x_negative v Hneg) as [t E]. rewrite E in Hdig. discriminate Hdig.
  - destruct (Z_lt_ge_dec v 256) as [Hlt|Hbig]; [lia|].
    pose proof (fmt02x_length_big v ltac:(lia)). lia.
Qed.

(** X4. [rgb_to_hex] writes a HexColor exactly when the three channels
    are bytes: a channel above 255 takes three digits or more, a negative
    one brings a minus sign (as in [#100-1-10] for (256, -1, -16)). *)
Theorem rgb_to_hex_valid_iff_bytes (r g b : Z) :
  is_hex_color (rgb_to_hex (r, g, b)) = true
  <-> in_byte_range r /\ in_byte_range g /\ in_byte_range b.
Proof.
  split.
  - unfold rgb_to_hex. cbn [append is_hex_color].
    rewrite andb_true_iff, Nat.eqb_eq, !length_app_string, !list_ascii_app, !forallb_app.
    rewrite !andb_true_iff.
    pose proof (fmt02x_length r). pose proof (fmt02x_length g). pose proof (fmt02x_length b).
    intros (Hlen & Hr & Hg & Hb).
    repeat split; apply fmt02x_two_digits; try assumption; lia.
  - intros (Hr & Hg & Hb).
    destruct (rgb_to_hex_bytes r g b Hr Hg Hb)
      as (c1 & c2 & c3 & c4 & c5 & c6 & E & P1 & P2 & P3 & _).
    rewrite E. unfold hex_pair in P1, P2, P3. cbn. unfold is_hex_digit.
    destruct (Str.hex_digit c1); [|discriminate]. destruct (Str.hex_digit c2); [|discriminate].
    destruct (Str.hex_digit c3); [|discriminate]. destruct (Str.hex_digit c4); [|discriminate].
    destruct (Str.hex_digit c5); [|discriminate]. destruct (Str.hex_digit c6); [|discriminate].
    reflexivity.
Qed.

(** ** The adjuster on arbitrary numbers *)

Lemma clamp_within_percent (x : num) : within_percent (clamp x).
Proof.
  destruct (clamp_cases x) as [-> | [-> | (E & Hpos & Hlt)]]; simpl; try lia.
  rewrite E. destruct x as [z|f]; simpl in *.
  - apply Z.ltb_lt in Hpos. apply Z.ltb_lt in Hlt. lia.
  - destruct (to_float (clamp (Flt f))) as [g|] eqn:T.
    + destruct (clamp_percent (Flt f) g T) as (F & _ & V).
      rewrite E in T. injection T as <-. now split.
    + rewrite E in T. discriminate T.
Qed.

(** X5. Whatever the colour and the deltas, the saturation and lightness
    that [adjust_hsl] returns are within [0,100] - also when the sum is an
    infinity (clamped to 0 or 100) or a NaN (replaced by the integer 100). *)
Theorem adjust_hsl_keeps_percent (c : hsl) (hs sa la : Z) (h' s' l' : num) :
  adjust_hsl c hs sa la = Ok (h', s', l') ->
  within_percent s' /\ within_percent l'.
Proof.
  intros H. destruct (adjust_hsl_inv _ _ _ _ _ H) as (h & s0 & l0 & [= -> -> ->]).
  split; apply clamp_within_percent.
Qed.

Lemma adjust_hsl_keeps_percent_witness :
  within_percent (Int 100) /\ within_percent (Int 100).
Proof.
  exact (adjust_hsl_keeps_percent (Int 0, Flt nan, Flt infinity) 0 0 0
           (Int 0) (Int 100) (Int 100) eq_refl).
Defined.

(** ** [rgb_to_hsl] on bytes *)

Lemma eqb_true_val (x y : float) :
  Fin x -> Fin y -> (x =? y)%float = true -> val x = val y.
Proof.
  unfold Fin, val. rewrite eqb_spec. unfold SFeqb. intros Hx Hy H.
  pose proof (SFcompare_spec _ _ Hx Hy (Prim2SF_valid x) (Prim2SF_valid y)) as C.
  destruct (SFcompare (Prim2SF x) (Prim2SF y)) as [[]|]; try discriminate. exact C.
Qed.

Lemma eqb_false_val (x y : float) :
  Fin x -> Fin y -> (x =? y)%float = false -> val x <> val y.
Proof.
  unfold Fin, val. rewrite eqb_spec. unfold SFeqb. intros Hx Hy H.
  pose proof (SFcompare_spec _ _ Hx Hy (Prim2SF_valid x) (Prim2SF_valid y)) as C.
  destruct (SFcompare (Prim2SF x) (Prim2SF y)) as [[]|]; try discriminate;
    simpl in C; lra.
Qed.

Lemma nonzero_float (x : float) : Fin x -> val x <> 0%R -> (x =? 0)%float = false.
Proof.
  intros F V. destruct (x =? 0)%float eqn:E; [|reflexivity].
  destruct val_0 as [F0 V0]. apply (eqb_true_val _ _ F F0) in E. congruence.
Qed.

Lemma byte_float_checks_all : forallb byte_float_checks all_bytes = true.
Proof. vm_compute. reflexivity. Qed.

Lemma int_to_float_byte (z : Z) :
  in_byte_range z ->
  exists f, int_to_float z = Ok f /\ Fin f /\ SFsign (Prim2SF f) = false /\ val f = IZR z.
Proof.
  intros Hz. pose proof byte_float_checks_all as H. rewrite forallb_forall in H.
  specialize (H z (in_all_bytes z Hz)). unfold byte_float_checks in H.
  destruct (int_to_float z) as [f|]; [|discriminate]. exists f. split; [reflexivity|].
  unfold Fin, val. destruct (Prim2SF f) as [[]| | |[] m e]; try discriminate.
  - apply Z.eqb_eq in H. subst z. repeat split.
  - apply andb_true_iff in H. destruct H as [He Hm].
    apply Z.ltb_lt in He. apply Z.eqb_eq in Hm.
    repeat split. unfold SFval. cbn [SFsign SFabsval]. rewrite Hm.
    replace (- e) with (0 - e) by lia. rewrite (IZR_scale z 0 e) by lia.
    rewrite pow2_0. lra.
Qed.

Lemma byte_fraction_ok (z : Z) : in_byte_range z -> exists f, byte_fraction z f.
Proof.
  intros Hz. destruct (int_to_float_byte z Hz) as (x & E & _).
  exists (x / 255)%float. split; [exact Hz|].
  unfold div, to_float. rewrite E. reflexivity.
Qed.

Lemma byte_fraction_val (z : Z) (f : float) :
  byte_fraction z f ->
  Fin f /\ (IZR z / 255 - pow2 (-29) <= val f <= IZR z / 255 + pow2 (-29))%R.
Proof.
  intros [Hz E]. destruct (int_to_float_byte z Hz) as (x & Ex & F & S & V).
  unfold div, to_float in E. rewrite Ex in E. cbn [bind] in E.
  unfold float_div in E. change (255 =? 0)%float with false in E. injection E as <-.
  destruct val_255 as [_ V255]. unfold val in V255.
  change (Prim2SF 255) with (S754_finite false 8972014882652160 (-45)) in V255.
  unfold Fin, val. rewrite div_spec.
  change (Prim2SF 255) with (S754_finite false 8972014882652160 (-45)).
  destruct (SFdiv_coarse (Prim2SF x) 8972014882652160 (-45) F S) as (Hfin & _ & Herr).
  - rewrite V255, pow2_21_val. unfold val in V. rewrite V.
    destruct Hz as [Hlo Hhi]. apply IZR_le in Hlo, Hhi. lra.
  - unfold SF64div. split; [assumption|]. rewrite V255 in Herr.
    apply Rabs_bound_inv in Herr. unfold val in V. rewrite V in Herr. lra.
Qed.

Lemma byte_fraction_fun (z : Z) (f g : float) :
  byte_fraction z f -> byte_fraction z g -> f = g.
Proof. intros [_ E1] [_ E2]. congruence. Qed.

Lemma max3_cases (r g b : float) :
  Colorsys.max3 r g b = r \/ Colorsys.max3 r g b = g \/ Colorsys.max3 r g b = b.
Proof.
  unfold Colorsys.max3. destruct (r <? g)%float.
  - destruct (g <? b)%float; tauto.
  - destruct (r <? b)%float; tauto.
Qed.

Lemma min3_cases (r g b : float) :
  Colorsys.min3 r g b = r \/ Colorsys.min3 r g b = g \/ Colorsys.min3 r g b = b.
Proof.
  unfold Colorsys.min3. destruct (g <? r)%float.
  - destruct (b <? g)%float; tauto.
  - destruct (b <? r)%float; tauto.
Qed.

Lemma float_div_ok (x y : float) :
  (y =? 0)%float = false -> float_div x y = Ok (x / y)%float.
Proof. intros H. unfold float_div. now rewrite H. Qed.

Lemma float_rem_one_ok (x : float) : exists t, float_rem x 1 = Ok t.
Proof.
  unfold float_rem. change (1 =? 0)%float with false. cbv iota.
  destruct (fmod x 1 =? 0)%float; [eexists; reflexivity|].
  destruct (xorb _ _); eexists; reflexivity.
Qed.

(** Two distinct bytes are at least one apart. *)
Lemma distinct_bytes (a b : Z) : a <> b -> (IZR a - IZR b <= -1 \/ 1 <= IZR a - IZR b)%R.
Proof.
  intros H. destruct (Z_lt_ge_dec a b) as [L|G].
  - left. assert (a + 1 <= b) by lia. apply IZR_le in H0. rewrite plus_IZR in H0. lra.
  - right. assert (b + 1 <= a) by lia. apply IZR_le in H0. rewrite plus_IZR in H0. lra.
Qed.

(** [rgb_to_hls] divides by the range, the sum, or two minus the sum of the
    extreme channels: on channels that come from bytes none of them is zero
    once the extremes differ. *)
Lemma rgb_to_hls_ok (zr zg zb : Z) (r g b : float) :
  byte_fraction zr r -> byte_fraction zg g -> byte_fraction zb b ->
  exists h l s, Colorsys.rgb_to_hls r g b = Ok (h, l, s).
Proof.
  intros Br Bg Bb. unfold Colorsys.rgb_to_hls.
  assert (HM : exists zM, byte_fraction zM (Colorsys.max3 r g b)).
  { destruct (max3_cases r g b) as [-> | [-> | ->]]; eauto. }
  assert (Hm : exists zm, byte_fraction zm (Colorsys.min3 r g b)).
  { destruct (min3_cases r g b) as [-> | [-> | ->]]; eauto. }
  destruct HM as [zM BM]. destruct Hm as [zm Bm].
  set (maxc := Colorsys.max3 r g b) in *. set (minc := Colorsys.min3 r g b) in *.
  cbv zeta.
  destruct (minc =? maxc)%float eqn:E; [eexists _, _, _; reflexivity|].
  destruct (byte_fraction_val _ _ BM) as [FM VM].
  destruct (byte_fraction_val _ _ Bm) as [Fm Vm].
  pose proof pow2_m29_small as [P0 P1]. pose proof pow2_m30_small as [A0 A1].
  destruct val_2 as [F2 V2].
  assert (Hne : zM <> zm).
  { intros ->. pose proof (byte_fraction_fun _ _ _ BM Bm) as Heq.
    apply (eqb_false_val _ _ Fm FM) in E. apply E. now rewrite Heq. }
  destruct BM as [[M0 M1] _]. destruct Bm as [[m0 m1] _].
  pose proof (IZR_le _ _ M0) as RM0. pose proof (IZR_le _ _ M1) as RM1.
  pose proof (IZR_le _ _ m0) as Rm0. pose proof (IZR_le _ _ m1) as Rm1.
  pose proof (distinct_bytes zM zm Hne) as Hd.
  destruct (add_near maxc minc FM Fm ltac:(lra) ltac:(lra)) as [Fs Vs].
  destruct (sub_near maxc minc FM Fm ltac:(lra) ltac:(lra)) as [Fr Vr].
  destruct (sub_near 2 maxc F2 FM ltac:(lra) ltac:(lra)) as [Ft Vt].
  destruct (sub_near (2 - maxc) minc Ft Fm ltac:(lra) ltac:(lra)) as [Fu Vu].
  assert (Hsum : (1 <= IZR zM + IZR zm <= 509)%R).
  { assert (1 <= zM + zm <= 509) as [L U] by lia.
    apply IZR_le in L, U. rewrite plus_IZR in L, U. lra. }
  assert (Nr : (maxc - minc =? 0)%float = false).
  { apply nonzero_float; [exact Fr|]. destruct Hd; lra. }
  assert (Ns : (maxc + minc =? 0)%float = false).
  { apply nonzero_float; [exact Fs|]. lra. }
  assert (Nu : (2 - maxc - minc =? 0)%float = false).
  { apply nonzero_float; [exact Fu|]. rewrite V2 in Vt. lra. }
  assert (Es : exists s, (if ((maxc + minc) / 2 <=? 0.5)%float
                          then float_div (maxc - minc) (maxc + minc)
                          else float_div (maxc - minc) (2 - maxc - minc)) = Ok s).
  { destruct ((maxc + minc) / 2 <=? 0.5)%float; rewrite float_div_ok by assumption;
      eexists; reflexivity. }
  destruct Es as [s ->]. cbn [bind]. rewrite !float_div_ok by assumption. cbn [bind].
  rewrite (float_div_ok _ 6 eq_refl). cbn [bind].
  match goal with |- context [float_rem ?x 1] => destruct (float_rem_one_ok x) as [t ->] end.
  cbn [bind]. eexists _, _, _; reflexivity.
Qed.

(** X6. On every RGB triple of bytes [rgb_to_hsl] returns three floats:
    none of the divisions of [colorsys.rgb_to_hls] meets a zero divisor. *)
Theorem rgb_to_hsl_total_on_bytes (r g b : Z) :
  in_byte_range r -> in_byte_range g -> in_byte_range b ->
  exists h s l : float, rgb_to_hsl (r, g, b) = Ok (Flt h, Flt s, Flt l).
Proof.
  intros Hr Hg Hb.
  destruct (byte_fraction_ok r Hr) as [fr Br]. destruct (byte_fraction_ok g Hg) as [fg Bg].
  destruct (byte_fraction_ok b Hb) as [fb Bb].
  destruct (rgb_to_hls_ok _ _ _ _ _ _ Br Bg Bb) as (h & l & s & E).
  unfold rgb_to_hsl. destruct Br as [_ ->], Bg as [_ ->], Bb as [_ ->]. cbn [bind].
  rewrite E. cbn [bind]. eexists _, _, _; reflexivity.
Qed.

Lemma rgb_to_hsl_total_on_bytes_witness :
  exists h s l : float, rgb_to_hsl (66, 135, 245) = Ok (Flt h, Flt s, Flt l).
Proof.
  apply rgb_to_hsl_total_on_bytes; unfold in_byte_range; lia.
Defined.

(** ** When [generate_palette] returns *)

Lemma hue_fits_all : forallb fits_float (map Z.of_nat (seq 0 360)) = true.
Proof. vm_compute. reflexivity. Qed.

Lemma hue_fits (z : Z) : 0 <= z < 360 -> fits_float z = true.
Proof.
  intros Hz. pose proof hue_fits_all as H. rewrite forallb_forall in H. apply H.
  rewrite <- (Z2Nat.id z) by lia. apply in_map, in_seq. lia.
Qed.

Lemma is_ok_inv {A : Type} (r : result A) : is_ok r = true -> exists a, r = Ok a.
Proof. destruct r as [a|]; [now exists a|discriminate]. Qed.

Lemma to_float_clamp_ok (x : num) : exists f, to_float (clamp x) = Ok f.
Proof.
  destruct (clamp_cases x) as [-> | [-> | (-> & Hpos & Hlt)]].
  - eexists; reflexivity.
  - eexists; reflexivity.
  - destruct x as [z|f]; simpl in *.
    + apply Z.ltb_lt in Hpos. apply Z.ltb_lt in Hlt.
      destruct (int_to_float_small z ltac:(lia)) as (g & E & _). now exists g.
    + now exists f.
Qed.

Lemma div_clamp_ok (x : num) : exists f, div (clamp x) 100 = Ok f.
Proof.
  unfold div. destruct (to_float_clamp_ok x) as [f ->]. cbn [bind].
  rewrite (float_div_ok f 100 eq_refl). now eexists.
Qed.

Lemma _v_ok (m1 m2 hue : float) : exists c, Colorsys._v m1 m2 hue = Ok c.
Proof.
  unfold Colorsys._v. destruct (float_rem_one_ok hue) as [t ->]. cbn [bind].
  destruct (t <? Colorsys.ONE_SIXTH)%float; [eexists; reflexivity|].
  destruct (t <? 0.5)%float; [eexists; reflexivity|].
  destruct (t <? Colorsys.TWO_THIRD)%float; eexists; reflexivity.
Qed.

Lemma hls_to_rgb_ok (h l s : float) : exists r g b, Colorsys.hls_to_rgb h l s = Ok (r, g, b).
Proof.
  unfold Colorsys.hls_to_rgb. destruct (s =? 0)%float; [eexists _, _, _; reflexivity|].
  cbv zeta.
  match goal with |- context [Colorsys._v ?a ?b (h + Colorsys.ONE_THIRD)] =>
    destruct (_v_ok a b (h + Colorsys.ONE_THIRD)) as [r ->];
    destruct (_v_ok a b h) as [g ->];
    destruct (_v_ok a b (h - Colorsys.ONE_THIRD)) as [b' ->]
  end.
  cbn [bind]. eexists _, _, _; reflexivity.
Qed.

Lemma float_to_int_Fin (x : float) : Fin x -> exists z, float_to_int x = Ok z.
Proof.
  unfold Fin, float_to_int. destruct (Prim2SF x); try discriminate; intros _; eexists; reflexivity.
Qed.

Lemma channel_scaled_Fin (c : float) : channel c -> Fin (c * 255).
Proof.
  intros [F B]. destruct val_255 as [F255 V255].
  destruct (mul_small c 255 F F255) as [Fm _]; try assumption;
    apply Rabs_bound_lt; rewrite ?V255, pow2_21_val; lra.
Qed.

Lemma hsl_to_rgb_ok (c : hsl) : renderable c -> exists r g b, hsl_to_rgb c = Ok (r, g, b).
Proof.
  intros (h & s0 & l0 & -> & Hh). unfold hsl_to_rgb.
  destruct (is_ok_inv _ Hh) as [hf Eh]. unfold div at 1. rewrite Eh. cbn [bind].
  rewrite (float_div_ok hf 360 eq_refl). cbn [bind].
  destruct (div_clamp_ok s0) as [sf Es]. destruct (div_clamp_ok l0) as [lf El].
  rewrite Es, El. cbn [bind].
  destruct (hls_to_rgb_ok (hf / 360) lf sf) as (r & g & b & E). rewrite E. cbn [bind].
  destruct (hls_to_rgb_channels _ _ _ _ _ _ (div_100_clamp _ _ El) (div_100_clamp _ _ Es) E)
    as (Cr & Cg & Cb).
  destruct (float_to_int_Fin _ (channel_scaled_Fin r Cr)) as [zr ->].
  destruct (float_to_int_Fin _ (channel_scaled_Fin g Cg)) as [zg ->].
  destruct (float_to_int_Fin _ (channel_scaled_Fin b Cb)) as [zb ->].
  cbn [bind]. now exists zr, zg, zb.
Qed.

Lemma render_ok (c : hsl) : renderable c -> exists s, render c = Ok s.
Proof.
  intros Hc. unfold render. destruct (hsl_to_rgb_ok c Hc) as (r & g & b & ->).
  cbn [bind]. eexists; reflexivity.
Qed.

(** Whatever [adjust_hsl] returns can be rendered. *)
Lemma adjust_hsl_renderable (c c' : hsl) (hs sa la : Z) :
  adjust_hsl c hs sa la = Ok c' -> renderable c'.
Proof.
  destruct c as [[h s] l]. unfold adjust_hsl.
  destruct (add h (Int hs)) as [h0|]; [|discriminate]. cbn [bind].
  destruct (rem h0 (Int 360)) as [h'|] eqn:Er; [|discriminate]. cbn [bind].
  destruct (add s (Int sa)) as [s0|]; [|discriminate]. cbn [bind].
  destruct (add l (Int la)) as [l0|]; [|discriminate]. cbn [bind].
  intros [= <-]. exists h', s0, l0. split; [reflexivity|].
  destruct h0 as [z|f].
  - simpl in Er. injection Er as <-. apply hue_fits. apply Z.mod_pos_bound. lia.
  - unfold rem in Er. cbn [to_float bind] in Er.
    change (int_to_float 360) with (Ok 360%float) in Er. cbn [bind] in Er.
    destruct (float_rem f 360); [|discriminate]. cbn [bind] in Er. now injection Er as <-.
Qed.

Lemma shade_ramp_ok (c : hsl) :
  renderable c -> exists d b l, shade_ramp c = Ok [d; b; l].
Proof.
  intros Hc. unfold shade_ramp, generate_shades.
  destruct (adjust_hsl_ok c 0 0 (-30) eq_refl eq_refl eq_refl) as [dk Edk].
  destruct (adjust_hsl_ok c 0 0 30 eq_refl eq_refl eq_refl) as [lt Elt].
  rewrite Edk, Elt. cbn [bind list_comp].
  destruct (render_ok dk (adjust_hsl_renderable _ _ _ _ _ Edk)) as [d ->].
  destruct (render_ok c Hc) as [b ->].
  destruct (render_ok lt (adjust_hsl_renderable _ _ _ _ _ Elt)) as [l ->].
  cbn [bind]. now exists d, b, l.
Qed.

Lemma dict_comp_ok {A B : Type} (f : A -> result B) (P : A -> Prop) (items : dict A) :
  (forall a, P a -> exists b, f a = Ok b) ->
  all_values P items ->
  forall acc, exists d, dict_comp f items acc = Ok d.
Proof.
  intros Hf. induction items as [|[k v] items IH]; intros Hall acc; simpl.
  - now exists acc.
  - destruct (Hf v (Hall k v (or_introl eq_refl))) as [b ->]. cbn [bind].
    apply IH. intros k' v' H. apply (Hall k' v'). now right.
Qed.

Lemma hex_color_to_hsl (s : string) :
  is_hex_color s = true -> exists c, (x <- hex_to_rgb s ;; rgb_to_hsl x) = Ok c.
Proof.
  intros Hs.
  destruct (is_hex_color_inv s Hs)
    as (c1 & c2 & c3 & c4 & c5 & c6 & r & g & b & -> & Hr & Hg & Hb).
  rewrite (hex_to_rgb_pairs _ _ _ _ _ _ _ _ _ _ _ Hr Hg Hb). cbn [bind].
  destruct (int16_hex_pair _ _ _ Hr) as [_ Br]. destruct (int16_hex_pair _ _ _ Hg) as [_ Bg].
  destruct (int16_hex_pair _ _ _ Hb) as [_ Bb].
  destruct (byte_fraction_ok r Br) as [fr Fr]. destruct (byte_fraction_ok g Bg) as [fg Fg].
  destruct (byte_fraction_ok b Bb) as [fb Fb].
  destruct (rgb_to_hls_ok _ _ _ _ _ _ Fr Fg Fb) as (h & l & s' & E).
  unfold rgb_to_hsl. destruct Fr as [_ ->], Fg as [_ ->], Fb as [_ ->]. cbn [bind].
  rewrite E. cbn [bind]. eexists; reflexivity.
Qed.

Lemma valid_colors_items (colors : colors_arg) :
  valid_colors colors = true ->
  all_values (fun s => is_hex_color s = true)
    match colors with Seed c => [("primary", c)] | Roles d => d end.
Proof.
  destruct colors as [c|d]; simpl.
  - intros H k v [[= <- <-]|[]]. exact H.
  - intros H k v Hin. apply andb_true_iff in H. destruct H as [_ H].
    rewrite forallb_forall in H. exact (H (k, v) Hin).
Qed.

Lemma input_hsl_ok (colors : colors_arg) :
  valid_colors colors = true -> exists d, input_hsl colors = Ok d.
Proof.
  intros H. unfold input_hsl.
  exact (dict_comp_ok _ _ _ hex_color_to_hsl (valid_colors_items colors H) []).
Qed.

Lemma valid_colors_primary (colors : colors_arg) :
  valid_colors colors = true -> supplies_primary colors = true.
Proof.
  destruct colors as [c|d]; simpl; [reflexivity|].
  intros H. apply andb_true_iff in H. apply H.
Qed.

Lemma harmony_ok (c : hsl) (harmony : string) :
  known_scheme harmony = true ->
  exists c1 rest, generate_harmony_colors c harmony = Ok (c :: c1 :: rest).
Proof.
  intros Hk. destruct c as [[h s] l].
  destruct (harmony_any h s l) as ((a1 & _ & E1) & (a2 & b2 & _ & _ & E2)
                                   & (a3 & b3 & _ & _ & E3) & (a4 & b4 & c4 & _ & _ & _ & E4)).
  unfold known_scheme in Hk.
  destruct (String.eqb harmony "1") eqn:K1;
    [apply String.eqb_eq in K1; subst harmony; rewrite E1; eexists _, _; reflexivity|].
  destruct (String.eqb harmony "2") eqn:K2;
    [apply String.eqb_eq in K2; subst harmony; rewrite E2; eexists _, _; reflexivity|].
  destruct (String.eqb harmony "3") eqn:K3;
    [apply String.eqb_eq in K3; subst harmony; rewrite E3; eexists _, _; reflexivity|].
  destruct (String.eqb harmony "4") eqn:K4;
    [apply String.eqb_eq in K4; subst harmony; rewrite E4; eexists _, _; reflexivity|].
  discriminate Hk.
Qed.

Lemma derive_roles_ok (d : dict hsl) (harmony : string) :
  known_scheme harmony = true -> exists d', derive_roles d harmony = Ok d'.
Proof.
  intros Hk. unfold derive_roles.
  destruct (dict_mem d "primary") eqn:Em; cbn [andb]; [|now eexists].
  destruct (List.length d <? 3)%nat; [|now eexists].
  unfold dict_mem in Em. unfold dict_get at 1.
  destruct (dict_find d "primary") as [p|]; [|discriminate]. cbn [bind].
  destruct (harmony_ok p harmony Hk) as (c1 & rest & ->). cbn [bind].
  assert (E1 : exists d1, (if negb (dict_mem d "secondary")
                           then c <- list_get (p :: c1 :: rest) 1 ;; Ok (dict_set d "secondary" c)
                           else Ok d) = Ok d1).
  { destruct (negb (dict_mem d "secondary")); eexists; reflexivity. }
  destruct E1 as [d1 ->]. cbn [bind].
  destruct (negb (dict_mem d1 "tertiary")); cbn [andb]; [|now eexists].
  destruct rest as [|c2 rest]; cbn; eexists; reflexivity.
Qed.

Lemma adjust_all_ok (d : dict hsl) (hs sa la : Z) :
  fits_float hs = true -> fits_float sa = true -> fits_float la = true ->
  exists d', adjust_all d hs sa la = Ok d'.
Proof.
  intros Hh Hs Hl. unfold adjust_all.
  apply (dict_comp_ok _ (fun _ => True)).
  - intros c _. now apply adjust_hsl_ok.
  - intros k v _. exact I.
Qed.

Lemma adjust_all_renderable (pre d : dict hsl) (hs sa la : Z) :
  adjust_all pre hs sa la = Ok d -> all_values renderable d.
Proof.
  unfold adjust_all. apply (dict_comp_all_values _ (fun _ => True)).
  - intros a b _ H. exact (adjust_hsl_renderable _ _ _ _ _ H).
  - intros k v _. exact I.
  - apply all_values_nil.
Qed.

Lemma ramps_ok (d : dict hsl) :
  all_values renderable d ->
  exists ramps, dict_comp (fun v => ramp <- shade_ramp v ;; Ok (Shades ramp)) d [] = Ok ramps.
Proof.
  intros Hd. apply (dict_comp_ok _ renderable); [|exact Hd].
  intros c Hc. destruct (shade_ramp_ok c Hc) as (x & y & z & ->). cbn [bind]. now eexists.
Qed.

Lemma semantic_colors_ok (hs sa la : Z) :
  fits_float hs = true -> fits_float sa = true -> fits_float la = true ->
  exists semantic, semantic_colors hs sa la = Ok semantic.
Proof.
  intros Hh Hs Hl. unfold semantic_colors.
  apply (dict_comp_ok _ (fun _ => True)).
  - intros h _. destruct (adjust_hsl_ok (Int h, Int 100, Int 50) hs sa la Hh Hs Hl) as [c E].
    rewrite E. cbn [bind]. exact (render_ok c (adjust_hsl_renderable _ _ _ _ _ E)).
  - intros k v _. exact I.
Qed.

Lemma surface_colors_ok (mode : string) : exists surface, surface_colors mode = Ok surface.
Proof.
  destruct (String.eqb mode "light") eqn:E.
  - apply String.eqb_eq in E. subst mode. rewrite surface_colors_light. now eexists.
  - rewrite (surface_colors_not_light mode E). now eexists.
Qed.

Lemma brand_colors_ok (hsl_colors : dict hsl) (ramps : palette)
    (semantic surface : dict string) :
  NoDup (keys hsl_colors) ->
  dict_comp (fun v => ramp <- shade_ramp v ;; Ok (Shades ramp)) hsl_colors [] = Ok ramps ->
  dict_mem hsl_colors "primary" = true ->
  exists brand,
    brand_colors hsl_colors
      (dict_set (dict_set ramps "semantic" (Group semantic)) "surface" (Group surface))
    = Ok brand.
Proof.
  intros Hnd Hramps Hmem.
  pose proof (ramps_find _ _ "primary" Hnd Hramps) as F1.
  pose proof (ramps_find _ _ "secondary" Hnd Hramps) as F2.
  unfold dict_mem in Hmem.
  destruct (dict_find hsl_colors "primary") as [c|] eqn:Ec; [|discriminate].
  destruct F1 as (ramp & Hramp & Hp).
  destruct (shade_ramp_inv _ _ Hramp) as (dk & lt & d & b & l & _ & _ & _ & _ & _ & ->).
  unfold brand_colors, dict_mem, dict_get.
  rewrite !dict_find_set_ne by str_ne. rewrite Hp, Ec. cbn [bind entry_index list_get nth_error].
  destruct (adjust_hsl_ok c 180 0 0 eq_refl eq_refl eq_refl) as [inv Einv]. rewrite Einv.
  cbn [bind].
  destruct (render_ok inv (adjust_hsl_renderable _ _ _ _ _ Einv)) as [ip ->]. cbn [bind].
  destruct (dict_find hsl_colors "secondary") as [c2|].
  - destruct F2 as (ramp2 & Hramp2 & ->).
    destruct (shade_ramp_inv _ _ Hramp2) as (dk2 & lt2 & d2 & b2 & l2 & _ & _ & _ & _ & _ & ->).
    cbn. eexists; reflexivity.
  - rewrite F2. cbn. eexists; reflexivity.
Qed.

(** X7. [generate_palette] returns a palette whenever the colours given
    are HexColors with [primary] among the roles, the scheme is one of the
    four, and the three adjustments are within the range of a double:
    whatever the mode, no conversion, look-up or division fails. *)
Theorem generate_palette_succeeds (colors : colors_arg) (mode harmony : string)
    (hs sa la : Z) :
  valid_colors colors = true -> known_scheme harmony = true ->
  fits_float hs = true -> fits_float sa = true -> fits_float la = true ->
  exists p, generate_palette colors mode harmony hs sa la = Ok p.
Proof.
  intros Hc Hk Hh Hs Hl.
  destruct (input_hsl_ok colors Hc) as [d0 E0].
  destruct (derive_roles_ok d0 harmony Hk) as [d1 E1].
  destruct (adjust_all_ok d1 hs sa la Hh Hs Hl) as [d E].
  assert (Hroles : role_colors colors harmony hs sa la = Ok d).
  { unfold role_colors, base_roles. rewrite E0. cbn [bind]. rewrite E1. exact E. }
  destruct (ramps_ok d (adjust_all_renderable _ _ _ _ _ E)) as [ramps Er].
  destruct (semantic_colors_ok hs sa la Hh Hs Hl) as [semantic Esem].
  destruct (surface_colors_ok mode) as [surface Esurf].
  destruct (brand_colors_ok d ramps semantic surface) as [brand Eb].
  - exact (role_colors_NoDup _ _ _ _ _ _ Hroles).
  - exact Er.
  - rewrite (role_colors_mem_primary _ _ _ _ _ _ Hroles). now apply valid_colors_primary.
  - unfold generate_palette, palette_groups.
    rewrite Hroles. cbn [bind]. rewrite Er. cbn [bind]. rewrite Esem. cbn [bind].
    rewrite Esurf. cbn [bind]. rewrite Eb. cbn [bind]. eexists; reflexivity.
Qed.

Lemma generate_palette_succeeds_witness :
  exists p, generate_palette (Roles [("primary", "#4287F5"); ("accent", "#00ff7f")])
              "sepia" "4" (-400) 1000 (-7) = Ok p.
Proof. apply generate_palette_succeeds; reflexivity. Defined.

(** ** The shape of a palette *)

Lemma dict_comp_keys {A B : Type} (f : A -> result B) (items : dict A) :
  forall (acc d : dict B),
    dict_comp f items acc = Ok d ->
    NoDup (keys acc ++ keys items)%list ->
    keys d = (keys acc ++ keys items)%list.
Proof.
  induction items as [|[k v] items IH]; intros acc d; simpl.
  - intros [= ->] _. now rewrite app_nil_r.
  - destruct (f v) as [b|]; [|discriminate]. cbn [bind]. intros H Hnd.
    assert (Hnot : dict_mem acc k = false).
    { unfold dict_mem. destruct (dict_find acc k) eqn:F; [|reflexivity]. exfalso.
      apply NoDup_remove_2 in Hnd. apply Hnd. apply in_or_app. left.
      destruct (in_dec string_dec k (keys acc)) as [I|N]; [exact I|].
      apply dict_find_None_keys in N. congruence. }
    assert (Hk : keys (dict_set acc k b) = (keys acc ++ [k])%list)
      by (rewrite keys_dict_set, Hnot; reflexivity).
    rewrite (IH _ _ H); rewrite Hk, <- app_assoc; [reflexivity|exact Hnd].
Qed.

Lemma dict_comp_keys_nil {A B : Type} (f : A -> result B) (items : dict A) (d : dict B) :
  dict_comp f items [] = Ok d -> NoDup (keys items) -> keys d = keys items.
Proof. intros H Hnd. exact (dict_comp_keys f items [] d H Hnd). Qed.

Lemma keys_set_new {V : Type} (d : dict V) (k : string) (v : V) :
  ~ In k (keys d) -> keys (dict_set d k v) = (keys d ++ [k])%list.
Proof.
  intros Hn. rewrite keys_dict_set. apply dict_find_None_keys in Hn.
  unfold dict_mem. now rewrite Hn.
Qed.

Lemma find_of_key {V : Type} (d : dict V) (k : string) :
  In k (keys d) -> exists v, dict_find d k = Some v.
Proof.
  intros Hin. destruct (dict_find d k) as [v|] eqn:F; [now exists v|].
  apply dict_find_None_keys in F. contradiction.
Qed.

(** A scheme that [generate_harmony_colors] knows is one of the four. *)
Lemma harmony_Ok_known (c : hsl) (harmony : string) (hc : list hsl) :
  generate_harmony_colors c harmony = Ok hc -> known_scheme harmony = true.
Proof.
  destruct c as [[h s] l]. rewrite generate_harmony_colors_hues.
  unfold scheme_hues, known_scheme.
  destruct (String.eqb harmony "1"); [reflexivity|].
  destruct (String.eqb harmony "2"); [reflexivity|].
  destruct (String.eqb harmony "3"); [reflexivity|].
  destruct (String.eqb harmony "4"); [reflexivity|discriminate].
Qed.

Lemma harmony_unknown (c : hsl) (harmony : string) :
  known_scheme harmony = false ->
  generate_harmony_colors c harmony = Err (KeyError (StrKey harmony)).
Proof.
  destruct c as [[h s] l]. rewrite generate_harmony_colors_hues.
  unfold scheme_hues, known_scheme.
  destruct (String.eqb harmony "1"); [discriminate|].
  destruct (String.eqb harmony "2"); [discriminate|].
  destruct (String.eqb harmony "3"); [discriminate|].
  destruct (String.eqb harmony "4"); [discriminate|reflexivity].
Qed.

Lemma seed_base_roles_keys (s harmony : string) (pre : dict hsl) :
  base_roles (Seed s) harmony = Ok pre -> keys pre = seed_roles harmony.
Proof.
  unfold base_roles, input_hsl. cbn [dict_comp].
  destruct (x <- hex_to_rgb s ;; rgb_to_hsl x) as [c|]; [|discriminate]. cbn [bind dict_set].
  unfold derive_roles. cbn [dict_mem dict_find String.eqb Ascii.eqb Bool.eqb andb List.length Nat.ltb Nat.leb].
  unfold dict_get. cbn [dict_find String.eqb Ascii.eqb Bool.eqb bind negb dict_set].
  destruct (generate_harmony_colors c harmony) as [hc|] eqn:Eh; [|discriminate]. cbn [bind].
  pose proof (harmony_Ok_known _ _ _ Eh) as Hk.
  destruct (harmony_ok c harmony Hk) as (c1 & rest & E). rewrite E in Eh. injection Eh as <-.
  cbn [list_get nth_error bind dict_mem dict_find String.eqb Ascii.eqb Bool.eqb negb andb].
  unfold seed_roles.
  destruct (String.eqb harmony "1") eqn:K1.
  - apply String.eqb_eq in K1. subst harmony.
    destruct c as [[h s'] l]. destruct (harmony_any h s' l) as ((a1 & _ & E1) & _).
    rewrite E1 in E. injection E as <- <-. cbn. now intros [= <-].
  - destruct rest as [|c2 rest].
    + exfalso. destruct c as [[h s'] l].
      destruct (harmony_any h s' l) as (_ & (a2 & b2 & _ & _ & E2)
                                        & (a3 & b3 & _ & _ & E3) & (a4 & b4 & c4 & _ & _ & _ & E4)).
      unfold known_scheme in Hk. rewrite K1 in Hk. cbn [orb] in Hk.
      destruct (String.eqb harmony "2") eqn:K2;
        [apply String.eqb_eq in K2; subst harmony; rewrite E2 in E; discriminate E|].
      destruct (String.eqb harmony "3") eqn:K3;
        [apply String.eqb_eq in K3; subst harmony; rewrite E3 in E; discriminate E|].
      destruct (String.eqb harmony "4") eqn:K4;
        [apply String.eqb_eq in K4; subst harmony; rewrite E4 in E; discriminate E|].
      discriminate Hk.
    + cbn. now intros [= <-].
Qed.

Lemma seed_roles_NoDup (harmony : string) : NoDup (seed_roles harmony).
Proof.
  unfold seed_roles. destruct (String.eqb harmony "1");
    repeat (constructor; [simpl; intuition discriminate|]); constructor.
Qed.

Lemma seed_roles_not_group (harmony k : string) :
  In k (seed_roles harmony) -> k <> "semantic" /\ k <> "surface" /\ k <> "brand".
Proof.
  unfold seed_roles. destruct (String.eqb harmony "1"); simpl;
    intuition (subst; discriminate).
Qed.

Lemma ramps_three_shades (hsl_colors : dict hsl) (ramps : palette) :
  dict_comp (fun v => ramp <- shade_ramp v ;; Ok (Shades ramp)) hsl_colors [] = Ok ramps ->
  all_values (fun e => exists d b l, e = Shades [d; b; l]) ramps.
Proof.
  apply (dict_comp_all_values _ (fun _ => True)).
  - intros c e _. destruct (shade_ramp c) as [ramp|] eqn:E; [|discriminate]. cbn [bind].
    intros [= <-].
    destruct (shade_ramp_inv _ _ E) as (dk & lt & d & b & l & _ & _ & _ & _ & _ & ->).
    now exists d, b, l.
  - intros k v _. exact I.
  - apply all_values_nil.
Qed.

(** X8. A palette built from a single seed has exactly the roles primary
    and secondary for the complementary scheme, and primary, secondary and
    tertiary for the other three (the fourth tetradic colour is dropped),
    followed by the groups semantic, surface and brand, in this order; each
    role holds a ramp of exactly three shades. *)
Theorem seed_palette_shape (s mode harmony : string) (hs sa la : Z) (p : palette) :
  generate_palette (Seed s) mode harmony hs sa la = Ok p ->
  keys p = (seed_roles harmony ++ ["semantic"; "surface"; "brand"])%list
  /\ forall k, In k (seed_roles harmony) ->
       exists d b l, dict_find p k = Some (Shades [d; b; l]).
Proof.
  intros H.
  destruct (generate_palette_inv _ _ _ _ _ _ _ H)
    as (hsl_colors & ramps & semantic & surface & brand & Hroles & Hramps & _ & _ & _ & ->).
  destruct (role_colors_inv _ _ _ _ _ _ Hroles) as (pre & Hpre & Hadj).
  pose proof (seed_base_roles_keys _ _ _ Hpre) as Kpre.
  pose proof (seed_roles_NoDup harmony) as Hnd.
  assert (Kh : keys hsl_colors = seed_roles harmony).
  { unfold adjust_all in Hadj. rewrite (dict_comp_keys_nil _ _ _ Hadj); rewrite Kpre; auto. }
  assert (Kr : keys ramps = seed_roles harmony).
  { rewrite (dict_comp_keys_nil _ _ _ Hramps); rewrite Kh; auto. }
  split.
  - assert (N : forall k, k = "semantic" \/ k = "surface" \/ k = "brand" ->
                 ~ In k (seed_roles harmony)).
    { intros k Hk Hin. destruct (seed_roles_not_group _ _ Hin) as (N1 & N2 & N3). tauto. }
    assert (K1 : keys (dict_set ramps "semantic" (Group semantic))
                 = (seed_roles harmony ++ ["semantic"])%list).
    { rewrite keys_set_new; rewrite Kr; [reflexivity|]. apply N. tauto. }
    assert (K2 : keys (dict_set (dict_set ramps "semantic" (Group semantic))
                                "surface" (Group surface))
                 = (seed_roles harmony ++ ["semantic"; "surface"])%list).
    { rewrite keys_set_new; rewrite K1; [now rewrite <- app_assoc|].
      intros Hin. apply in_app_or in Hin. destruct Hin as [Hin|[Hin|[]]]; [|discriminate Hin].
      revert Hin. apply N. tauto. }
    rewrite keys_set_new; rewrite K2; [now rewrite <- app_assoc|].
    intros Hin. apply in_app_or in Hin.
    destruct Hin as [Hin|[Hin|[Hin|[]]]]; [|discriminate Hin|discriminate Hin].
    revert Hin. apply N. tauto.
  - intros k Hk. destruct (seed_roles_not_group _ _ Hk) as (N1 & N2 & N3).
    rewrite built_find_role by assumption.
    rewrite <- Kr in Hk. destruct (find_of_key _ _ Hk) as [e He]. rewrite He.
    destruct (all_values_find _ _ _ _ (ramps_three_shades _ _ Hramps) He) as (d & b & l & ->).
    now exists d, b, l.
Qed.

Lemma seed_palette_shape_witness :
  exists p, generate_palette (Seed "#4287f5") "dark" "4" 0 0 0 = Ok p
            /\ keys p = ["primary"; "secondary"; "tertiary"; "semantic"; "surface"; "brand"].
Proof.
  destruct (generate_palette (Seed "#4287f5") "dark" "4" 0 0 0) as [p|] eqn:E;
    [|vm_compute in E; discriminate E].
  exists p. split; [reflexivity|].
  exact (proj1 (seed_palette_shape _ _ _ _ _ _ _ E)).
Defined.

(** ** What the arguments of [generate_palette] reach *)

Lemma derive_roles_three (d : dict hsl) (harmony : string) :
  (3 <= List.length d)%nat -> derive_roles d harmony = Ok d.
Proof.
  intros H. unfold derive_roles.
  replace (List.length d <? 3)%nat with false by (symmetry; apply Nat.ltb_ge; lia).
  now rewrite andb_false_r.
Qed.

Lemma keys_length {V : Type} (d : dict V) : List.length (keys d) = List.length d.
Proof. apply length_map. Qed.

(** X9. With three or more roles given, the scheme is never looked at:
    two calls that differ in the harmony argument only - unknown schemes
    included - return the same palette, or raise the same exception. *)
Theorem harmony_unused_with_three_roles (d : dict string) (mode h1 h2 : string)
    (hs sa la : Z) :
  NoDup (keys d) -> (3 <= List.length d)%nat ->
  generate_palette (Roles d) mode h1 hs sa la = generate_palette (Roles d) mode h2 hs sa la.
Proof.
  intros Hnd Hlen.
  assert (B : base_roles (Roles d) h1 = base_roles (Roles d) h2).
  { unfold base_roles. destruct (input_hsl (Roles d)) as [d0|] eqn:E; [|reflexivity].
    cbn [bind]. unfold input_hsl in E.
    pose proof (dict_comp_keys_nil _ _ _ E Hnd) as K.
    assert (L : (3 <= List.length d0)%nat)
      by (rewrite <- (keys_length d0), K, keys_length; exact Hlen).
    now rewrite !derive_roles_three. }
  unfold generate_palette, palette_groups, role_colors. now rewrite B.
Qed.

Lemma harmony_unused_with_three_roles_witness :
  generate_palette
    (Roles [("primary", "#4287f5"); ("secondary", "#00ff00"); ("tertiary", "#ff0000")])
    "light" "1" 0 0 0
  = generate_palette
    (Roles [("primary", "#4287f5"); ("secondary", "#00ff00"); ("tertiary", "#ff0000")])
    "light" "no such scheme" 0 0 0.
Proof.
  apply harmony_unused_with_three_roles; [|simpl; lia].
  repeat (constructor; [simpl; intuition discriminate|]). constructor.
Defined.

Lemma brand_colors_surface (hsl_colors : dict hsl) (pal : palette) (s1 s2 : entry) :
  brand_colors hsl_colors (dict_set pal "surface" s1)
  = brand_colors hsl_colors (dict_set pal "surface" s2).
Proof.
  unfold brand_colors, dict_get, dict_mem.
  now rewrite !(dict_find_set_ne _ "surface" "primary"), !(dict_find_set_ne _ "surface" "secondary")
    by str_ne.
Qed.

Lemma keys_set_any {V : Type} (d : dict V) (k : string) (v1 v2 : V) :
  keys (dict_set d k v1) = keys (dict_set d k v2).
Proof. now rewrite !keys_dict_set. Qed.

(** X10. The mode reaches the surface group and nothing else: a call
    that succeeds with one mode succeeds with any other, and the two
    palettes have the same keys and the same value under every key but
    [surface]. *)
Theorem mode_reaches_surface_only (colors : colors_arg) (m1 m2 harmony : string)
    (hs sa la : Z) (p1 : palette) :
  generate_palette colors m1 harmony hs sa la = Ok p1 ->
  exists p2,
    generate_palette colors m2 harmony hs sa la = Ok p2
    /\ keys p2 = keys p1
    /\ forall k, k <> "surface" -> dict_find p2 k = dict_find p1 k.
Proof.
  intros H.
  destruct (generate_palette_inv _ _ _ _ _ _ _ H)
    as (hsl_colors & ramps & semantic & surface & brand & Hroles & Hramps & Hsem & _ & Hb & ->).
  destruct (surface_colors_ok m2) as [surface2 Hs2].
  rewrite (brand_colors_surface _ _ _ (Group surface2)) in Hb.
  exists (dict_set (dict_set (dict_set ramps "semantic" (Group semantic))
                             "surface" (Group surface2)) "brand" (Group brand)).
  split; [|split].
  - unfold generate_palette, palette_groups. rewrite Hroles. cbn [bind].
    rewrite Hramps. cbn [bind]. rewrite Hsem. cbn [bind]. rewrite Hs2. cbn [bind].
    rewrite Hb. reflexivity.
  - rewrite !(keys_dict_set _ "brand"). unfold dict_mem.
    rewrite !(dict_find_set_ne _ "surface" "brand") by str_ne.
    now rewrite (keys_set_any _ "surface" (Group surface2) (Group surface)).
  - intros k Hk. destruct (String.eqb_spec k "brand") as [->|Hn].
    + now rewrite !dict_find_set_eq.
    + now rewrite !(dict_find_set_ne _ "brand" k), !(dict_find_set_ne _ "surface" k)
        by congruence.
Qed.

Lemma mode_reaches_surface_only_witness :
  exists p1 p2,
    generate_palette (Seed "#4287f5") "light" "3" 10 0 0 = Ok p1
    /\ generate_palette (Seed "#4287f5") "dark" "3" 10 0 0 = Ok p2
    /\ dict_find p2 "brand" = dict_find p1 "brand".
Proof.
  destruct (generate_palette (Seed "#4287f5") "light" "3" 10 0 0) as [p1|] eqn:E;
    [|vm_compute in E; discriminate E].
  destruct (mode_reaches_surface_only _ _ "dark" _ _ _ _ _ E) as (p2 & E2 & _ & F).
  exists p1, p2. split; [reflexivity|]. split; [exact E2|]. apply F. discriminate.
Defined.

Lemma semantic_colors_plain : semantic_colors 0 0 0 = Ok plain_semantic.
Proof. vm_compute. reflexivity. Qed.

(** X11. The semantic group of a palette depends on the three adjustments
    alone - not on the colours, the mode or the scheme - and a role named
    [semantic] is overwritten by it; with no adjustment the group is error
    [#ff0000], success [#00ff00], info [#00a9ff], warning [#ffaa00]. *)
Theorem semantic_group_from_adjustments (colors : colors_arg) (mode harmony : string)
    (hs sa la : Z) (p : palette) :
  generate_palette colors mode harmony hs sa la = Ok p ->
  exists semantic,
    semantic_colors hs sa la = Ok semantic
    /\ dict_find p "semantic" = Some (Group semantic)
    /\ (hs = 0 -> sa = 0 -> la = 0 -> semantic = plain_semantic).
Proof.
  intros H.
  destruct (generate_palette_inv _ _ _ _ _ _ _ H)
    as (hsl_colors & ramps & semantic & surface & brand & _ & _ & Hsem & _ & _ & ->).
  exists semantic. split; [exact Hsem|]. split.
  - rewrite !(dict_find_set_ne _ _ "semantic") by str_ne. apply dict_find_set_eq.
  - intros -> -> ->. rewrite semantic_colors_plain in Hsem. now injection Hsem.
Qed.

Lemma semantic_group_from_adjustments_witness :
  exists p, generate_palette (Roles [("primary", "#123456"); ("semantic", "#654321")])
              "light" "2" 0 0 0 = Ok p
            /\ dict_find p "semantic" = Some (Group plain_semantic).
Proof.
  destruct (generate_palette (Roles [("primary", "#123456"); ("semantic", "#654321")])
              "light" "2" 0 0 0) as [p|] eqn:E;
    [|vm_compute in E; discriminate E].
  exists p. split; [reflexivity|].
  destruct (semantic_group_from_adjustments _ _ _ _ _ _ _ E) as (sem & _ & F & Hp).
  rewrite F. now rewrite (Hp eq_refl eq_refl eq_refl).
Defined.

(** X12. A scheme key other than ['1'], ['2'], ['3'], ['4'] makes
    [generate_harmony_colors] raise [KeyError] of that key on every colour,
    and [generate_palette] raises it for every seed that is a HexColor,
    whatever the mode and the adjustments. *)
Theorem unknown_scheme_KeyError (harmony : string) :
  known_scheme harmony = false ->
  (forall c, generate_harmony_colors c harmony = Err (KeyError (StrKey harmony)))
  /\ (forall s mode hs sa la, is_hex_color s = true ->
        generate_palette (Seed s) mode harmony hs sa la = Err (KeyError (StrKey harmony))).
Proof.
  intros Hk. split; [intros c; now apply harmony_unknown|].
  intros s mode hs sa la Hs.
  unfold generate_palette, palette_groups, role_colors, base_roles, input_hsl.
  cbn [dict_comp]. destruct (hex_color_to_hsl s Hs) as [c ->]. cbn [bind dict_set].
  unfold derive_roles.
  cbn [dict_mem dict_find String.eqb Ascii.eqb Bool.eqb andb List.length Nat.ltb Nat.leb].
  unfold dict_get. cbn [dict_find String.eqb Ascii.eqb Bool.eqb bind].
  now rewrite (harmony_unknown c harmony Hk).
Qed.

Lemma unknown_scheme_KeyError_witness :
  generate_palette (Seed "#4287f5") "light" "5" 0 0 0 = Err (KeyError (StrKey "5")).
Proof.
  destruct (unknown_scheme_KeyError "5" eq_refl) as [_ H]. apply H. reflexivity.
Defined.

(** ** Rendering *)

(** X13. Every colour that [adjust_hsl] returns is one [hsl_to_rgb]
    converts, and to three bytes: whatever the hue (a NaN or an infinity
    included), the clamped saturation and lightness keep each channel
    within [0, 255]. *)
Theorem adjusted_colour_converts_to_bytes (c c' : hsl) (hs sa la : Z) :
  adjust_hsl c hs sa la = Ok c' ->
  exists r g b, hsl_to_rgb c' = Ok (r, g, b)
                /\ in_byte_range r /\ in_byte_range g /\ in_byte_range b.
Proof.
  intros H. destruct (hsl_to_rgb_ok c' (adjust_hsl_renderable _ _ _ _ _ H)) as (r & g & b & E).
  exists r, g, b. split; [exact E|].
  destruct (adjust_hsl_inv _ _ _ _ _ H) as (h & s0 & l0 & ->).
  exact (hsl_to_rgb_bytes _ _ _ _ _ _ E).
Qed.

Lemma adjusted_colour_converts_to_bytes_witness :
  exists r g b, hsl_to_rgb (Flt nan, Int 100, Int 0) = Ok (r, g, b)
                /\ in_byte_range r /\ in_byte_range g /\ in_byte_range b.
Proof.
  exact (adjusted_colour_converts_to_bytes (Flt infinity, Flt nan, Flt neg_infinity)
           (Flt nan, Int 100, Int 0) 0 0 0 eq_refl).
Defined.

(** X14. A colour of saturation 0 is rendered without looking at its
    hue: any two float hues give the same result, and the three channels of
    the result are equal (a grey). *)
Theorem achromatic_ignores_hue (h1 h2 : float) (l : num) :
  hsl_to_rgb (Flt h1, Int 0, l) = hsl_to_rgb (Flt h2, Int 0, l)
  /\ forall r g b, hsl_to_rgb (Flt h1, Int 0, l) = Ok (r, g, b) -> r = g /\ g = b.
Proof.
  assert (E : forall h, hsl_to_rgb (Flt h, Int 0, l) =
                (lf <- div l 100 ;;
                 r <- float_to_int (lf * 255) ;;
                 g <- float_to_int (lf * 255) ;;
                 b <- float_to_int (lf * 255) ;;
                 Ok (r, g, b))).
  { intros h. unfold hsl_to_rgb.
    change (div (Flt h) 360) with (float_div h 360).
    rewrite (float_div_ok h 360 eq_refl). cbn [bind].
    change (div (Int 0) 100) with (Ok (zero / 100)%float). cbn [bind].
    destruct (div l 100) as [lf|]; [|reflexivity]. cbn [bind].
    unfold Colorsys.hls_to_rgb. change (zero / 100 =? 0)%float with true. reflexivity. }
  split; [now rewrite !E|].
  intros r g b. rewrite E.
  destruct (div l 100) as [lf|]; [|discriminate]. cbn [bind].
  destruct (float_to_int (lf * 255)) as [z|]; [|discriminate]. cbn [bind].
  intros [= <- <- <-]. now split.
Qed.

Lemma grey_checks_all : forallb grey_checks all_bytes = true.
Proof. vm_compute. reflexivity. Qed.

(** X15. A grey [(v, v, v)] of bytes converts to hue 0 and saturation 0,
    and converting back gives a grey again, of the same level or one level
    darker: the truncation of [int(x * 255)] never rounds up. *)
Theorem grey_roundtrip (v : Z) :
  in_byte_range v ->
  exists (h s l : float) (v' : Z),
    rgb_to_hsl (v, v, v) = Ok (Flt h, Flt s, Flt l)
    /\ (h =? 0)%float = true /\ (s =? 0)%float = true
    /\ hsl_to_rgb (Flt h, Flt s, Flt l) = Ok (v', v', v')
    /\ v - 1 <= v' <= v.
Proof.
  intros Hv. pose proof grey_checks_all as H. rewrite forallb_forall in H.
  specialize (H v (in_all_bytes v Hv)). unfold grey_checks in H.
  destruct (rgb_to_hsl (v, v, v)) as [[[[|h] [|s]] [|l]]|]; try discriminate.
  apply andb_true_iff in H. destruct H as [H0 H]. apply andb_true_iff in H0.
  destruct H0 as [Hh Hs].
  destruct (hsl_to_rgb (Flt h, Flt s, Flt l)) as [[[r g] b]|] eqn:Eback; [|discriminate].
  repeat rewrite andb_true_iff in H. destruct H as [[[H1 H2] H3] H4].
  apply Z.eqb_eq in H1, H2. apply Z.leb_le in H3, H4. subst g b.
  exists h, s, l, r.
  split; [reflexivity|]. split; [exact Hh|]. split; [exact Hs|].
  split; [exact Eback|]. split; assumption.
Qed.

Lemma grey_roundtrip_witness :
  exists (h s l : float) (v' : Z),
    rgb_to_hsl (15, 15, 15) = Ok (Flt h, Flt s, Flt l)
    /\ (h =? 0)%float = true /\ (s =? 0)%float = true
    /\ hsl_to_rgb (Flt h, Flt s, Flt l) = Ok (v', v', v')
    /\ 15 - 1 <= v' <= 15.
Proof. apply grey_roundtrip. unfold in_byte_range. lia. Defined.

(** X16. In every palette the brand entry [newPrimary] repeats the base
    shade - the middle one - of the primary ramp. *)
Theorem new_primary_is_base_shade (colors : colors_arg) (mode harmony : string)
    (hs sa la : Z) (p : palette) :
  generate_palette colors mode harmony hs sa la = Ok p ->
  exists d b l brand,
    dict_find p "primary" = Some (Shades [d; b; l])
    /\ dict_find p "brand" = Some (Group brand)
    /\ dict_find brand "newPrimary" = Some b.
Proof.
  intros H.
  destruct (generate_palette_inv _ _ _ _ _ _ _ H)
    as (hsl_colors & ramps & semantic & surface & brand & Hroles & Hramps & _ & _ & Hb & ->).
  destruct (brand_colors_inv _ _ _ Hb)
    as (e & newPrimary & c & inv & inversePrimary & newAccent
        & He & Hnp & _ & _ & _ & _ & ->).
  rewrite !dict_find_set_ne in He by str_ne.
  destruct (all_values_find _ _ _ _ (ramps_three_shades _ _ Hramps) He) as (d & b & l & ->).
  cbn in Hnp. injection Hnp as <-.
  exists d, b, l. eexists. split; [|split].
  - now rewrite built_find_role by str_ne.
  - apply dict_find_set_eq.
  - reflexivity.
Qed.

Lemma new_primary_is_base_shade_witness :
  exists p d b l brand,
    generate_palette (Seed "#4287f5") "light" "1" 0 0 0 = Ok p
    /\ dict_find p "primary" = Some (Shades [d; b; l])
    /\ dict_find p "brand" = Some (Group brand)
    /\ dict_find brand "newPrimary" = Some b.
Proof.
  destruct (generate_palette (Seed "#4287f5") "light" "1" 0 0 0) as [p|] eqn:E;
    [|vm_compute in E; discriminate E].
  destruct (new_primary_is_base_shade _ _ _ _ _ _ _ E) as (d & b & l & brand & H).
  exists p, d, b, l, brand. split; [reflexivity|exact H].
Defined.

(** ** [get_user_input] *)

Lemma list_mem_In (x : string) (l : list string) : list_mem x l = true <-> In x l.
Proof.
  unfold list_mem. rewrite existsb_exists. split.
  - intros (y & Hin & E). apply String.eqb_eq in E. now subst.
  - intros Hin. exists x. split; [exact Hin|apply String.eqb_refl].
Qed.

Lemma get_user_input_cases (prompt : string) (options : option (list string))
    (stdin : list string) :
  (Forall (fun l => ~ accepted options l) stdin
   /\ get_user_input prompt options stdin = (EOFError, [], refusals prompt options stdin))
  \/ (exists rejected v rest,
        stdin = (rejected ++ v :: rest)%list
        /\ Forall (fun l => ~ accepted options l) rejected
        /\ accepted options v
        /\ get_user_input prompt options stdin
           = (Returned v, rest, refusals prompt options rejected)).
Proof.
  induction stdin as [|line stdin IH].
  - left. split; [constructor|reflexivity].
  - destruct options as [[|o os]|].
    + right. exists [], line, stdin. repeat split. constructor.
    + cbn [get_user_input]. destruct (list_mem line (o :: os)) eqn:M; cbn [negb].
      * right. exists [], line, stdin. repeat split; [constructor|].
        now apply list_mem_In.
      * assert (Hrej : ~ accepted (Some (o :: os)) line).
        { intros Hin. apply list_mem_In in Hin. congruence. }
        destruct IH as [[Hall E]|(rejected & v & rest & -> & Hall & Hv & E)]; rewrite E.
        -- left. split; [now constructor|reflexivity].
        -- right. exists (line :: rejected), v, rest.
           repeat split; [now constructor|exact Hv].
    + right. exists [], line, stdin. repeat split. constructor.
Qed.

(** X17. When [get_user_input] returns, the value is the first line of the
    standard input that is accepted - one of the options, or any line when
    no option (or an empty list) is given; every line before it was refused
    with one message, and the lines after it are left unread. *)
Theorem get_user_input_returns_first_accepted (prompt : string)
    (options : option (list string)) (stdin : list string)
    (v : string) (unread : list string) (written : list output) :
  get_user_input prompt options stdin = (Returned v, unread, written) ->
  accepted options v
  /\ exists rejected,
       stdin = (rejected ++ v :: unread)%list
       /\ Forall (fun l => ~ accepted options l) rejected
       /\ written = refusals prompt options rejected.
Proof.
  intros H.
  destruct (get_user_input_cases prompt options stdin)
    as [[_ E]|(rejected & v' & rest & Hs & Hall & Hv & E)]; rewrite E in H.
  - discriminate H.
  - injection H as <- <- <-. split; [exact Hv|]. now exists rejected.
Qed.

Lemma get_user_input_returns_first_accepted_witness :
  accepted (Some ["light"; "dark"]) "dark"
  /\ exists rejected,
       ["Light"; "dark"; "3"] = (rejected ++ "dark" :: ["3"])%list
       /\ Forall (fun l => ~ accepted (Some ["light"; "dark"]) l) rejected
       /\ [Prompt "mode: "; InvalidInput ["light"; "dark"]; Prompt "mode: "]
          = refusals "mode: " (Some ["light"; "dark"]) rejected.
Proof.
  exact (get_user_input_returns_first_accepted "mode: " (Some ["light"; "dark"])
           ["Light"; "dark"; "3"] "dark" ["3"]
           [Prompt "mode: "; InvalidInput ["light"; "dark"]; Prompt "mode: "] eq_refl).
Defined.

(** X18. [get_user_input] ends with the [EOFError] of [input] exactly
    when no line of the standard input is accepted; it has then read every
    line and written one refusal for each. *)
Theorem get_user_input_EOFError_iff (prompt : string) (options : option (list string))
    (stdin : list string) :
  get_user_input prompt options stdin = (EOFError, [], refusals prompt options stdin)
  <-> Forall (fun l => ~ accepted options l) stdin.
Proof.
  destruct (get_user_input_cases prompt options stdin)
    as [[Hall E]|(rejected & v & rest & Hs & Hall & Hv & E)].
  - split; [intros _; exact Hall|intros _; exact E].
  - rewrite E. split; [discriminate|].
    intros F. exfalso. subst stdin. apply Forall_app in F. destruct F as [_ F].
    inversion F; contradiction.
Qed.

(** ** A seed that is refused *)

(** X19. A seed that [hex_to_rgb] refuses - any string of fewer than six
    characters, the shorthand [#fff] among them - makes [generate_palette]
    raise [ValueError], whatever the mode, the scheme and the adjustments:
    the colours are converted before anything else is looked at. *)
Theorem refused_seed_raises_ValueError (s mode harmony : string) (hs sa la : Z) (e : exn) :
  hex_to_rgb s = Err e ->
  generate_palette (Seed s) mode harmony hs sa la = Err ValueError.
Proof.
  intros H. pose proof (hex_to_rgb_raises_ValueError s e H) as ->.
  unfold generate_palette, palette_groups, role_colors, base_roles, input_hsl.
  cbn [dict_comp]. rewrite H. reflexivity.
Qed.

Lemma refused_seed_raises_ValueError_witness :
  generate_palette (Seed "#fff") "light" "no such scheme" 0 0 0 = Err ValueError.
Proof.
  exact (refused_seed_raises_ValueError "#fff" "light" "no such scheme" 0 0 0
           ValueError eq_refl).
Defined.

(** ** Rounding to binary64 and the representable numbers
    Rounding is monotone: it never crosses a representable number. *)

Lemma shr_1_exact (r : shr_record) :
  shr_r r = false -> shr_s r = false -> Z.even (shr_m r) = true ->
  shr_r (shr_1 r) = false /\ shr_s (shr_1 r) = false.
Proof.
  destruct r as [[|[p|p|]|[p|p|]] rb sb]; simpl; intros -> -> H;
    try discriminate H; split; reflexivity.
Qed.

Lemma div_pow_multiple (m a b : Z) :
  0 <= a -> 0 <= b -> m mod 2 ^ (a + b) = 0 ->
  m mod 2 ^ a = 0 /\ (m / 2 ^ a) mod 2 ^ b = 0.
Proof.
  intros Ha Hb H.
  assert (Pa : 0 < 2 ^ a) by (apply Z.pow_pos_nonneg; lia).
  assert (Pb : 0 < 2 ^ b) by (apply Z.pow_pos_nonneg; lia).
  apply Z.mod_divide in H; [|rewrite Z.pow_add_r by lia; lia].
  destruct H as [j Hj]. rewrite Z.pow_add_r in Hj by lia.
  assert (Hm : m = (j * 2 ^ b) * 2 ^ a) by lia.
  split.
  - rewrite Hm. apply Z.mod_mul. lia.
  - rewrite Hm, Z.div_mul by lia. apply Z.mod_mul. lia.
Qed.

Lemma iter_shr_1_exact (p : positive) :
  forall r : shr_record,
    0 <= shr_m r -> shr_r r = false -> shr_s r = false ->
    shr_m r mod 2 ^ Zpos p = 0 ->
    shr_r (SpecFloat.iter_pos shr_1 p r) = false
    /\ shr_s (SpecFloat.iter_pos shr_1 p r) = false.
Proof.
  induction p as [p IH|p IH|]; intros r Hm Hr Hs Hmod; cbn [SpecFloat.iter_pos].
  - replace (Zpos p~1) with (1 + (Zpos p + Zpos p)) in Hmod by lia.
    destruct (div_pow_multiple _ 1 (Zpos p + Zpos p) ltac:(lia) ltac:(lia) Hmod) as [M1 M2].
    destruct (div_pow_multiple _ (Zpos p) (Zpos p) ltac:(lia) ltac:(lia) M2) as [M3 M4].
    change (2 ^ 1) with 2 in M1, M2, M3, M4.
    assert (Ev : Z.even (shr_m r) = true) by (rewrite Zeven_mod; apply Z.eqb_eq; exact M1).
    destruct (shr_1_exact r Hr Hs Ev) as [R0 S0].
    assert (E0 : shr_m (shr_1 r) = shr_m r / 2)
      by (rewrite shr_1_m by assumption; apply Z.div2_div).
    assert (H0 : 0 <= shr_m (shr_1 r)) by (rewrite E0; apply Z.div_pos; lia).
    assert (M3' : shr_m (shr_1 r) mod 2 ^ Zpos p = 0) by (rewrite E0; exact M3).
    destruct (IH _ H0 R0 S0 M3') as [R1 S1].
    assert (H1 : 0 <= shr_m (SpecFloat.iter_pos shr_1 p (shr_1 r))).
    { rewrite iter_shr_1_m by assumption. apply Z.div_pos; [assumption|].
      apply Z.pow_pos_nonneg; lia. }
    apply IH; try assumption. rewrite iter_shr_1_m, E0 by assumption. exact M4.
  - replace (Zpos p~0) with (Zpos p + Zpos p) in Hmod by lia.
    destruct (div_pow_multiple _ (Zpos p) (Zpos p) ltac:(lia) ltac:(lia) Hmod) as [M1 M2].
    destruct (IH r Hm Hr Hs M1) as [R1 S1].
    assert (H1 : 0 <= shr_m (SpecFloat.iter_pos shr_1 p r)).
    { rewrite iter_shr_1_m by assumption. apply Z.div_pos; [assumption|].
      apply Z.pow_pos_nonneg; lia. }
    apply IH; try assumption. rewrite iter_shr_1_m by assumption. exact M2.
  - apply shr_1_exact; try assumption. change (2 ^ 1) with 2 in Hmod.
    rewrite Zeven_mod. apply Z.eqb_eq. exact Hmod.
Qed.

(** A right shift that loses no bit leaves the location exact. *)
Lemma shr_exact (m e n : Z) (q : shr_record) (e1 : Z) :
  0 <= m -> shr (shr_record_of_loc m loc_Exact) e n = (q, e1) ->
  m mod 2 ^ (e1 - e) = 0 -> loc_of_shr_record q = loc_Exact.
Proof.
  intros Hm. unfold shr. destruct n as [|p|p].
  - intros [= <- <-] _. reflexivity.
  - intros [= <- <-]. replace (e + Zpos p - e) with (Zpos p) by lia. intros Hmod.
    destruct (iter_shr_1_exact p (shr_record_of_loc m loc_Exact)) as [R S];
      try reflexivity; try assumption.
    destruct (SpecFloat.iter_pos shr_1 p _) as [m' r' s']. simpl in R, S. subst. reflexivity.
  - intros [= <- <-] _. reflexivity.
Qed.

Lemma round_nearest_even_exact (m : Z) : round_nearest_even m loc_Exact = m.
Proof. reflexivity. Qed.

Lemma scale_le_up (x y a b : Z) :
  a <= b -> (IZR x * pow2 a <= IZR y * pow2 b)%R -> x <= y * 2 ^ (b - a).
Proof.
  intros Hab H. apply le_IZR. rewrite mult_IZR, <- pow2_IZR by lia.
  replace b with ((b - a) + a) in H at 1 by lia. rewrite pow2_add, <- Rmult_assoc in H.
  pose proof (pow2_pos a). nra.
Qed.

Lemma scale_le_down (x y a b : Z) :
  a <= b -> (IZR x * pow2 b <= IZR y * pow2 a)%R -> x * 2 ^ (b - a) <= y.
Proof.
  intros Hab H. apply le_IZR. rewrite mult_IZR, <- pow2_IZR by lia.
  replace b with ((b - a) + a) in H at 1 by lia. rewrite pow2_add, <- Rmult_assoc in H.
  pose proof (pow2_pos a). nra.
Qed.

Lemma pow2_lt (a b : Z) : a < b -> (pow2 a < pow2 b)%R.
Proof.
  intros H. replace b with (a + (b - a)) by lia. rewrite pow2_add.
  rewrite (pow2_IZR (b - a)) by lia.
  assert (2 <= IZR (2 ^ (b - a)))%R.
  { apply IZR_le. replace (b - a) with ((b - a - 1) + 1) by lia.
    rewrite Z.pow_add_r by lia. change (2 ^ 1) with 2.
    assert (0 < 2 ^ (b - a - 1)) by (apply Z.pow_pos_nonneg; lia). lia. }
  pose proof (pow2_pos a). nra.
Qed.

Lemma value_below_digits (c t : Z) : 0 <= c -> (IZR c * pow2 t < pow2 (Zdigits2 c + t))%R.
Proof.
  intros Hc. rewrite pow2_add. apply Rmult_lt_compat_r; [apply pow2_pos|].
  rewrite pow2_IZR by apply Zdigits2_nonneg. apply IZR_lt. now apply Zdigits2_lt.
Qed.

Lemma value_above_digits (m e : Z) : 0 < m -> (pow2 (Zdigits2 m - 1 + e) <= IZR m * pow2 e)%R.
Proof.
  intros Hm. rewrite pow2_add. apply Rmult_le_compat_r; [left; apply pow2_pos|].
  destruct m as [|p|p]; try lia. cbn [Zdigits2].
  rewrite pow2_IZR by lia. apply IZR_le. apply digits2_pos_bounds.
Qed.

(** Truncating [m * 2^e] to its canonical exponent does not go below a
    representable number that is below [m * 2^e]. *)
Lemma floor_keeps_grid (m e c t : Z) :
  0 <= m -> grid c t ->
  let E := Z.max e (fexp64 (Zdigits2 m + e)) in
  (IZR c * pow2 t <= IZR m * pow2 e)%R ->
  (IZR c * pow2 t <= IZR (m / 2 ^ (E - e)) * pow2 E)%R.
Proof.
  intros Hm [[Hc0 Hc] Ht] E Hle.
  destruct (Z.eq_dec E e) as [->|Hne].
  { now rewrite Z.sub_diag, Z.div_1_r. }
  assert (HE : E = fexp64 (Zdigits2 m + e) /\ e < E) by (unfold E in *; lia).
  destruct HE as [HE He]. rewrite fexp64_eq in HE.
  destruct (Z.eq_dec m 0) as [->|Hm0].
  { simpl in Hle. rewrite Rmult_0_l in Hle.
    rewrite Z.div_0_l by (apply Z.pow_nonzero; lia). simpl. rewrite Rmult_0_l. exact Hle. }
  assert (Pk : 0 < 2 ^ (E - e)) by (apply Z.pow_pos_nonneg; lia).
  destruct (Z_le_gt_dec E t) as [HEt|HEt].
  - (* the bound is a multiple of the new unit *)
    rewrite <- (IZR_scale c t E HEt) in Hle |- *.
    apply scale_le_down in Hle; [|lia].
    apply Rmult_le_compat_r; [left; apply pow2_pos|]. apply IZR_le.
    apply Z.div_le_lower_bound; lia.
  - (* the bound has fewer digits *)
    assert (Ed : E = Zdigits2 m + e - 53) by lia.
    assert (Hd : 0 <= Zdigits2 m - 1 - (E - e)) by lia.
    assert (Hq : 2 ^ 52 <= m / 2 ^ (E - e)).
    { apply Z.div_le_lower_bound; [lia|].
      rewrite <- Z.pow_add_r by lia. replace (E - e + 52) with (Zdigits2 m - 1) by lia.
      destruct m as [|p|p]; try lia. cbn [Zdigits2]. apply digits2_pos_bounds. }
    apply Rle_trans with (pow2 (52 + E)).
    + left. apply Rlt_le_trans with (pow2 (53 + t)); [|apply pow2_le; lia].
      rewrite pow2_add. apply Rmult_lt_compat_r; [apply pow2_pos|].
      rewrite pow2_IZR by lia. now apply IZR_lt.
    + rewrite pow2_add. apply Rmult_le_compat_r; [left; apply pow2_pos|].
      rewrite pow2_IZR by lia. now apply IZR_le.
Qed.

(** A representable number above [m * 2^e] is a multiple of the unit that
    [m * 2^e] is rounded to. *)
Lemma grid_above_exponent (m e c t : Z) :
  0 < m -> grid c t -> (IZR m * pow2 e <= IZR c * pow2 t)%R ->
  fexp64 (Zdigits2 m + e) <= t.
Proof.
  intros Hm [[Hc0 Hc] Ht] Hle.
  assert (Hdc : Zdigits2 c <= 53) by (apply Zdigits2_le; lia).
  pose proof (value_above_digits m e Hm) as Hlo.
  pose proof (value_below_digits c t Hc0) as Hhi.
  assert (Hlt : (pow2 (Zdigits2 m - 1 + e) < pow2 (Zdigits2 c + t))%R) by lra.
  apply pow2_lt_inv in Hlt. rewrite fexp64_eq. lia.
Qed.

Lemma div_from_bounds (m K q : Z) : 0 < K -> q * K <= m < (q + 1) * K -> m / K = q.
Proof.
  intros HK H. symmetry. apply Z.div_unique with (r := m - q * K); [left|]; lia.
Qed.

Lemma binary_round_aux_grid (sx : bool) (mx ex B c t : Z) :
  0 < mx -> Zdigits2 mx + ex <= B -> ex <= fexp64 (B + 1) -> -1074 <= B < 1024 ->
  grid c t ->
  let r := binary_round_aux prec emax sx mx ex loc_Exact in
  ((IZR mx * pow2 ex <= IZR c * pow2 t)%R -> (SFabsval r <= IZR c * pow2 t)%R)
  /\ ((IZR c * pow2 t <= IZR mx * pow2 ex)%R -> (IZR c * pow2 t <= SFabsval r)%R).
Proof.
  intros Hmx Hd Hex HB G.
  destruct (binary_round_aux_coarse sx mx ex loc_Exact B ltac:(lia) Hd Hex HB) as (Hfin & _).
  revert Hfin. unfold binary_round_aux, shr_fexp. cbv zeta.
  destruct (shr_spec mx ex (fexp prec emax (Zdigits2 mx + ex) - ex) loc_Exact ltac:(lia))
    as (q1 & e1 & S1 & Hq1 & He1 & Hb1).
  rewrite S1.
  set (m' := round_nearest_even (shr_m q1) (loc_of_shr_record q1)).
  pose proof (round_nearest_even_bounds (shr_m q1) (loc_of_shr_record q1)) as Hm'.
  fold m' in Hm'. assert (Hm'0 : 0 <= m') by lia.
  destruct (shr_spec m' e1 (fexp prec emax (Zdigits2 m' + e1) - e1) loc_Exact Hm'0)
    as (q2 & e2 & S2 & Hq2 & He2 & Hb2).
  rewrite S2.
  change (fexp prec emax) with fexp64 in He1, He2.
  assert (E1 : e1 = Z.max ex (fexp64 (Zdigits2 mx + ex))) by lia.
  assert (E2 : e2 = Z.max e1 (fexp64 (Zdigits2 m' + e1))) by lia.
  assert (K1 : 0 < 2 ^ (e1 - ex)) by (apply Z.pow_pos_nonneg; lia).
  assert (K2 : 0 < 2 ^ (e2 - e1)) by (apply Z.pow_pos_nonneg; lia).
  pose proof (div_from_bounds _ _ _ K1 Hb1) as D1.
  pose proof (div_from_bounds _ _ _ K2 Hb2) as D2.
  assert (Habs : forall r : spec_float,
             r = match shr_m q2 with
                 | 0 => S754_zero sx
                 | Zpos m => if e2 <=? emax - prec then S754_finite sx m e2
                             else S754_infinity sx
                 | Zneg _ => S754_nan
                 end ->
             SFfin r = true -> SFabsval r = (IZR (shr_m q2) * pow2 e2)%R).
  { intros r -> Hf. destruct (shr_m q2) as [|m|m].
    - simpl. lra.
    - destruct (e2 <=? emax - prec); [reflexivity|discriminate Hf].
    - discriminate Hf. }
  intros Hfin. rewrite (Habs _ eq_refl Hfin). clear Habs Hfin.
  split.
  - intros Hle.
    assert (Step1 : (IZR m' * pow2 e1 <= IZR c * pow2 t)%R).
    { destruct (Z.eq_dec (mx mod 2 ^ (e1 - ex)) 0) as [Hz|Hnz].
      - pose proof (shr_exact mx ex _ q1 e1 (Z.lt_le_incl _ _ Hmx) S1 Hz) as Hloc.
        unfold m'. rewrite Hloc, round_nearest_even_exact.
        assert (Hq : shr_m q1 * 2 ^ (e1 - ex) = mx).
        { rewrite <- D1. pose proof (Z.div_mod mx (2 ^ (e1 - ex)) ltac:(lia)). lia. }
        rewrite <- Hq in Hle. rewrite IZR_scale in Hle by lia. exact Hle.
      - assert (Hk : ex < e1).
        { destruct (Z.eq_dec e1 ex) as [->|]; [|lia].
          rewrite Z.sub_diag in Hnz. simpl in Hnz. rewrite Z.mod_1_r in Hnz. contradiction. }
        assert (Het : e1 <= t).
        { pose proof (grid_above_exponent mx ex c t Hmx G Hle). lia. }
        rewrite <- (IZR_scale c t e1 Het) in Hle |- *.
        apply scale_le_up in Hle; [|lia].
        pose proof (Z.div_mod mx (2 ^ (e1 - ex)) ltac:(lia)) as Hdm.
        pose proof (Z.mod_pos_bound mx (2 ^ (e1 - ex)) K1) as Hmb.
        rewrite D1 in Hdm.
        assert (shr_m q1 < c * 2 ^ (t - e1)) by nia.
        apply Rmult_le_compat_r; [left; apply pow2_pos|]. apply IZR_le. lia. }
    apply Rle_trans with (IZR m' * pow2 e1)%R; [|exact Step1].
    apply Zscale_le; lia.
  - intros Hle.
    pose proof (floor_keeps_grid mx ex c t ltac:(lia) G Hle) as F1. cbv zeta in F1.
    rewrite <- E1, D1 in F1.
    assert (Step1 : (IZR c * pow2 t <= IZR m' * pow2 e1)%R).
    { apply Rle_trans with (IZR (shr_m q1) * pow2 e1)%R; [exact F1|].
      apply Rmult_le_compat_r; [left; apply pow2_pos|]. apply IZR_le. lia. }
    pose proof (floor_keeps_grid m' e1 c t Hm'0 G Step1) as F2. cbv zeta in F2.
    rewrite <- E2, D2 in F2. exact F2.
Qed.

Lemma binary_round_grid (sx : bool) (mx : positive) (ex B c t : Z) :
  (IZR (Zpos mx) * pow2 ex < pow2 B)%R -> -1074 <= B < 1024 -> grid c t ->
  let r := binary_round prec emax sx mx ex in
  SFfin r = true /\ SFsign r = sx
  /\ ((IZR (Zpos mx) * pow2 ex <= IZR c * pow2 t)%R -> (SFabsval r <= IZR c * pow2 t)%R)
  /\ ((IZR c * pow2 t <= IZR (Zpos mx) * pow2 ex)%R -> (IZR c * pow2 t <= SFabsval r)%R).
Proof.
  intros Hv HB G.
  destruct (binary_round_coarse sx mx ex B Hv HB) as (Hfin & Hs & _).
  split; [exact Hfin|]. split; [exact Hs|].
  unfold binary_round.
  destruct (shl_align_spec mx ex (fexp prec emax (Zpos (digits2_pos mx) + ex)))
    as (mz & ez & -> & Hez & Hmz).
  assert (Hd : Zdigits2 (Zpos mx) + ex <= B) by (apply digits_of_value; [lia|assumption]).
  assert (Hval : (IZR (Zpos mz) * pow2 ez = IZR (Zpos mx) * pow2 ex)%R).
  { rewrite Hmz. apply IZR_scale. lia. }
  rewrite <- Hval. apply (binary_round_aux_grid sx (Zpos mz) ez B c t); try lia.
  - apply digits_of_value; [lia|]. now rewrite Hval.
  - change (Zdigits2 (Zpos mx)) with (Zpos (digits2_pos mx)) in Hd.
    pose proof (fexp64_mono _ _ (Z.le_trans _ _ _ Hd (Z.le_succ_diag_r B))) as Hm.
    unfold fexp64 in *. replace (Z.succ B) with (B + 1) in Hm by lia. lia.
  - exact G.
Qed.

(** A representable magnitude is rounded to itself. *)
Lemma binary_round_exact (sx : bool) (mx : positive) (ex B : Z) :
  (IZR (Zpos mx) * pow2 ex < pow2 B)%R -> -1074 <= B < 1024 ->
  (exists c t, grid c t /\ (IZR (Zpos mx) * pow2 ex = IZR c * pow2 t)%R) ->
  let r := binary_round prec emax sx mx ex in
  SFfin r = true /\ SFsign r = sx /\ SFabsval r = (IZR (Zpos mx) * pow2 ex)%R.
Proof.
  intros Hv HB (c & t & G & E).
  destruct (binary_round_grid sx mx ex B c t Hv HB G) as (Hfin & Hs & Hup & Hlo).
  split; [exact Hfin|]. split; [exact Hs|].
  assert (U : (IZR (Zpos mx) * pow2 ex <= IZR c * pow2 t)%R) by lra.
  assert (L : (IZR c * pow2 t <= IZR (Zpos mx) * pow2 ex)%R) by lra.
  specialize (Hup U). specialize (Hlo L). cbv zeta. lra.
Qed.

Lemma binary_normalize_grid (m e B c t : Z) (szero : bool) :
  (Rabs (IZR m * pow2 e) < pow2 B)%R -> -1074 <= B < 1024 -> grid c t ->
  (0 <= IZR m * pow2 e <= IZR c * pow2 t)%R ->
  let r := binary_normalize prec emax m e szero in
  SFfin r = true /\ (0 <= SFval r <= IZR c * pow2 t)%R.
Proof.
  intros Hv HB G [H0 Hle]. pose proof (pow2_pos e) as Pe.
  destruct m as [|p|p]; cbn [binary_normalize].
  - split; [reflexivity|]. unfold SFval. rewrite Rmult_0_l in Hle. destruct szero; simpl; lra.
  - rewrite Rabs_pos_eq in Hv by assumption.
    destruct (binary_round_grid false p e B c t Hv HB G) as (Hfin & Hs & Hup & _).
    split; [assumption|]. specialize (Hup Hle). unfold SFval. rewrite Hs.
    split; [|exact Hup].
    destruct (binary_round prec emax false p e); simpl; try lra.
    apply Rmult_le_pos; [apply IZR_le; lia|left; apply pow2_pos].
  - exfalso. assert (IZR (Zneg p) < 0)%R by (apply IZR_lt; lia). nra.
Qed.

(** A sum that is not negative and not above a representable number is
    rounded within the same bounds. *)
Lemma SFadd_grid (x y : spec_float) (c t : Z) :
  SFfin x = true -> SFfin y = true -> grid c t ->
  (Rabs (SFval x + SFval y) < pow2 21)%R ->
  (0 <= SFval x + SFval y <= IZR c * pow2 t)%R ->
  SFfin (SFadd prec emax x y) = true
  /\ (0 <= SFval (SFadd prec emax x y) <= IZR c * pow2 t)%R.
Proof.
  intros Hx Hy G Hb Hs.
  assert (Hexact : forall z : spec_float, SFfin z = true -> SFval z = (SFval x + SFval y)%R ->
            SFfin z = true /\ (0 <= SFval z <= IZR c * pow2 t)%R).
  { intros z Hz ->. split; assumption. }
  destruct x as [sx| | |sx mx ex]; try discriminate;
    destruct y as [sy| | |sy my ey]; try discriminate.
  - destruct sx, sy; apply Hexact; try reflexivity; unfold SFval; simpl; lra.
  - apply Hexact; [reflexivity|]. unfold SFval at 2. simpl. destruct sx; simpl; lra.
  - apply Hexact; [reflexivity|]. unfold SFval at 3. simpl. destruct sy; simpl; lra.
  - cbn [SFadd].
    destruct (shl_align_spec mx ex (Z.min ex ey)) as (ax & ez1 & -> & Hez1 & Hax).
    destruct (shl_align_spec my ey (Z.min ex ey)) as (ay & ez2 & -> & Hez2 & Hay).
    cbn [fst].
    assert (Hsum : (IZR (cond_Zopp sx (Zpos ax) + cond_Zopp sy (Zpos ay)) * pow2 (Z.min ex ey)
                    = SFval (S754_finite sx mx ex) + SFval (S754_finite sy my ey))%R).
    { rewrite !SFval_finite, plus_IZR, Rmult_plus_distr_r. f_equal.
      - rewrite Hax. replace ez1 with (Z.min ex ey) by lia.
        rewrite <- (IZR_scale _ ex (Z.min ex ey)) by lia. f_equal. f_equal.
        destruct sx; unfold cond_Zopp; lia.
      - rewrite Hay. replace ez2 with (Z.min ex ey) by lia.
        rewrite <- (IZR_scale _ ey (Z.min ex ey)) by lia. f_equal. f_equal.
        destruct sy; unfold cond_Zopp; lia. }
    rewrite <- Hsum in Hb, Hs.
    exact (binary_normalize_grid _ _ 21 c t false Hb ltac:(lia) G Hs).
Qed.

Lemma add_grid (x y : float) (c t : Z) :
  Fin x -> Fin y -> grid c t ->
  (Rabs (val x + val y) < pow2 21)%R ->
  (0 <= val x + val y <= IZR c * pow2 t)%R ->
  Fin (x + y) /\ (0 <= val (x + y) <= IZR c * pow2 t)%R.
Proof. unfold Fin, val. rewrite add_spec. intros. now apply SFadd_grid. Qed.

(** ** Integers as floats *)

Lemma Zdigits2_unique (m n : Z) : 0 < n -> 2 ^ (n - 1) <= m < 2 ^ n -> Zdigits2 m = n.
Proof.
  intros Hn [Hlo Hhi].
  assert (Hm : 0 < m) by (assert (0 < 2 ^ (n - 1)) by (apply Z.pow_pos_nonneg; lia); lia).
  assert (Zdigits2 m <= n) by (apply Zdigits2_le; lia).
  destruct m as [|p|p]; try lia. cbn [Zdigits2] in *.
  pose proof (digits2_pos_bounds p) as [_ Hp].
  destruct (Z_lt_ge_dec (Zpos (digits2_pos p)) n) as [Hlt|]; [|lia]. exfalso.
  assert (2 ^ Zpos (digits2_pos p) <= 2 ^ (n - 1)) by (apply Z.pow_le_mono_r; lia). lia.
Qed.

(** [binary_round_aux] on a mantissa already at its canonical exponent. *)
Lemma binary_round_aux_canonical (s : bool) (m : positive) (e : Z) :
  fexp64 (Zpos (digits2_pos m) + e) = e -> e <= 971 ->
  binary_round_aux prec emax s (Zpos m) e loc_Exact = S754_finite s m e.
Proof.
  intros Hc He. unfold binary_round_aux, shr_fexp. cbn [Zdigits2].
  change (fexp prec emax) with fexp64. rewrite Hc, Z.sub_diag. cbn [shr].
  cbn [shr_record_of_loc shr_m loc_of_shr_record round_nearest_even Zdigits2].
  rewrite Hc, Z.sub_diag. cbn [shr shr_record_of_loc shr_m].
  replace (e <=? emax - prec) with true
    by (symmetry; apply Z.leb_le; change (emax - prec) with 971; lia).
  reflexivity.
Qed.

Lemma binary_round_int (s : bool) (p : positive) :
  Zpos p < 2 ^ 53 ->
  exists m e, binary_round prec emax s p 0 = S754_finite s m e
              /\ valid_binary (S754_finite s m e) = true
              /\ (IZR (Zpos m) * pow2 e = IZR (Zpos p))%R.
Proof.
  intros Hp. unfold binary_round.
  destruct (shl_align_spec p 0 (fexp prec emax (Zpos (digits2_pos p) + 0)))
    as (mz & ez & -> & Hez & Hmz).
  change (fexp prec emax) with fexp64 in Hez. rewrite fexp64_eq in Hez.
  pose proof (digits2_pos_bounds p) as [Hlo Hhi].
  assert (Hd : Zpos (digits2_pos p) <= 53).
  { change (Zpos (digits2_pos p)) with (Zdigits2 (Zpos p)). apply Zdigits2_le; lia. }
  assert (Ez : ez = Zpos (digits2_pos p) - 53) by lia.
  assert (Hdz : Zpos (digits2_pos mz) = 53).
  { change (Zpos (digits2_pos mz)) with (Zdigits2 (Zpos mz)). apply Zdigits2_unique; [lia|].
    rewrite Hmz. replace (0 - ez) with (53 - Zpos (digits2_pos p)) by lia.
    assert (P : 0 < 2 ^ (53 - Zpos (digits2_pos p))) by (apply Z.pow_pos_nonneg; lia).
    assert (S1 : 2 ^ (53 - 1) = 2 ^ (Zpos (digits2_pos p) - 1) * 2 ^ (53 - Zpos (digits2_pos p)))
      by (rewrite <- Z.pow_add_r by lia; f_equal; lia).
    assert (S2 : 2 ^ 53 = 2 ^ Zpos (digits2_pos p) * 2 ^ (53 - Zpos (digits2_pos p)))
      by (rewrite <- Z.pow_add_r by lia; f_equal; lia).
    rewrite S1, S2. split; nia. }
  assert (Hc : fexp64 (Zpos (digits2_pos mz) + ez) = ez) by (rewrite Hdz, fexp64_eq; lia).
  exists mz, ez. split; [apply binary_round_aux_canonical; [exact Hc|lia]|]. split.
  - cbv beta delta [SpecFloat.valid_binary bounded canonical_mantissa] iota.
    apply andb_true_iff. split.
    + apply Z.eqb_eq. exact Hc.
    + apply Z.leb_le. change (emax - prec) with 971. lia.
  - rewrite Hmz. rewrite IZR_scale by lia. rewrite pow2_0. lra.
Qed.

(** [float(z)] is exact up to 53 bits. *)
Lemma int_to_float_exact (z : Z) :
  Z.abs z < 2 ^ 53 ->
  exists f, int_to_float z = Ok f /\ Fin f /\ val f = IZR z.
Proof.
  intros Hz. unfold int_to_float. destruct z as [|p|p]; cbn [binary_normalize].
  - eexists. split; [reflexivity|]. unfold Fin, val.
    rewrite Prim2SF_SF2Prim by reflexivity. split; [reflexivity|]. unfold SFval. simpl. lra.
  - destruct (binary_round_int false p ltac:(lia)) as (m & e & -> & Hv & E).
    eexists. split; [reflexivity|]. unfold Fin, val. rewrite Prim2SF_SF2Prim by exact Hv.
    split; [reflexivity|]. unfold SFval. simpl. exact E.
  - destruct (binary_round_int true p ltac:(lia)) as (m & e & -> & Hv & E).
    eexists. split; [reflexivity|]. unfold Fin, val. rewrite Prim2SF_SF2Prim by exact Hv.
    split; [reflexivity|]. unfold SFval. simpl. rewrite E.
    change (Zneg p) with (- Zpos p). now rewrite opp_IZR.
Qed.

(** ** The remainder modulo 360.0 *)

Lemma val_360 : Fin 360 /\ val 360 = 360%R.
Proof.
  destruct (val_of_finite 360%float 6333186975989760 44 eq_refl ltac:(lia)) as [F V].
  split; [exact F|]. rewrite V. change (2 ^ 44) with 17592186044416. lra.
Qed.

Lemma grid_360 : grid 6333186975989760 (-44)
                 /\ (IZR 6333186975989760 * pow2 (-44) = 360)%R.
Proof.
  split; [split; lia|]. change (-44) with (- (44)). rewrite pow2_neg, pow2_IZR by lia.
  change (2 ^ 44) with 17592186044416. lra.
Qed.

(** The float of an integer below [2^53], scaled by a power of two that
    keeps it below 512 and representable, is exact. *)
Lemma ldexp_of_Z_exact (r e : Z) :
  0 < r < 2 ^ 53 -> -1074 <= e -> (IZR r * pow2 e < pow2 9)%R ->
  let f := Z.ldexp (of_uint63 (Uint63Axioms.of_Z r)) e in
  Fin f /\ val f = (IZR r * pow2 e)%R.
Proof.
  intros Hr He Hv f. unfold Fin, val, f.
  rewrite Z_ldexp_spec, of_uint63_spec, Uint63.of_Z_spec.
  rewrite Z.mod_small by (change Uint63.wB with (2 ^ 63); split; [lia|];
                          assert (2 ^ 53 < 2 ^ 63) by (apply Z.pow_lt_mono_r; lia); lia).
  destruct r as [|p|p]; try lia. cbn [binary_normalize].
  destruct (binary_round_int false p ltac:(lia)) as (m1 & e1 & -> & _ & E1).
  cbn [SFldexp].
  assert (Hval : (IZR (Zpos m1) * pow2 (e1 + e) = IZR (Zpos p) * pow2 e)%R)
    by (rewrite pow2_add, <- Rmult_assoc, E1; reflexivity).
  destruct (binary_round_exact false m1 (e1 + e) 9) as (Hfin & Hs & Habs).
  - rewrite Hval. exact Hv.
  - lia.
  - exists (Zpos p), e. split; [split; lia|exact Hval].
  - split; [exact Hfin|]. unfold SFval. rewrite Hs, Habs. exact Hval.
Qed.

(** [fmod(x, 360.0)] is exact: it differs from [x] by a multiple of 360
    and is smaller than 360 in magnitude. *)
Lemma fmod_360 (x : float) :
  Fin x ->
  Fin (fmod x 360)
  /\ (Rabs (val (fmod x 360)) < 360)%R
  /\ exists q : Z, val (fmod x 360) = (val x - 360 * IZR q)%R.
Proof.
  intros Fx. unfold fmod.
  change (Prim2SF 360) with (S754_finite false 6333186975989760 (-44)).
  pose proof (Prim2SF_valid x) as Vx. unfold Fin in Fx.
  destruct (Prim2SF x) as [sx|sx| |sx mx ex] eqn:Ex; try discriminate.
  - destruct (val_of_zero x sx Ex) as [F V]. split; [exact F|]. rewrite V, Rabs_R0.
    split; [lra|]. exists 0. lra.
  - set (e := Z.min ex (-44)).
    set (X := Zpos mx * 2 ^ (ex - e)). set (Y := 6333186975989760 * 2 ^ (-44 - e)).
    set (r := X mod Y).
    destruct (valid_finite_inv _ _ _ Vx) as (Hex & Hdx & _).
    assert (He : -1074 <= e <= -44) by (unfold e; lia).
    assert (PY : 0 < Y).
    { unfold Y. assert (0 < 2 ^ (-44 - e)) by (apply Z.pow_pos_nonneg; lia). lia. }
    assert (PX : 0 < X).
    { unfold X. assert (0 < 2 ^ (ex - e)) by (apply Z.pow_pos_nonneg; unfold e; lia). lia. }
    assert (HY : (IZR Y * pow2 e = 360)%R).
    { unfold Y. rewrite IZR_scale by lia. apply grid_360. }
    assert (HX : (IZR X * pow2 e = IZR (Zpos mx) * pow2 ex)%R).
    { unfold X. apply IZR_scale. unfold e. lia. }
    assert (Hvx : val x = ((if sx then -1 else 1) * (IZR X * pow2 e))%R).
    { unfold val. rewrite Ex, HX. unfold SFval. destruct sx; simpl; lra. }
    pose proof (Z.div_mod X Y ltac:(lia)) as Hdm. fold r in Hdm.
    pose proof (Z.mod_pos_bound X Y PY) as Hmod. fold r in Hmod.
    assert (Hdec : (IZR X * pow2 e = 360 * IZR (X / Y) + IZR r * pow2 e)%R).
    { rewrite Hdm at 1. rewrite plus_IZR, mult_IZR, Rmult_plus_distr_r.
      rewrite <- HY. ring. }
    assert (Hrv : (0 <= IZR r * pow2 e < 360)%R).
    { pose proof (pow2_pos e). rewrite <- HY. split.
      - apply Rmult_le_pos; [apply IZR_le; lia|lra].
      - apply Rmult_lt_compat_r; [assumption|]. apply IZR_lt. lia. }
    destruct (r =? 0) eqn:Er.
    + apply Z.eqb_eq in Er. rewrite Er in Hdec. rewrite Rmult_0_l in Hdec.
      destruct sx.
      * destruct (val_of_zero neg_zero true eq_refl) as [F V]. split; [exact F|].
        rewrite V, Rabs_R0. split; [lra|]. exists (- (X / Y)). rewrite Hvx, opp_IZR. lra.
      * destruct (val_of_zero zero false eq_refl) as [F V]. split; [exact F|].
        rewrite V, Rabs_R0. split; [lra|]. exists (X / Y). rewrite Hvx. lra.
    + apply Z.eqb_neq in Er.
      assert (Hr53 : r < 2 ^ 53).
      { pose proof (digits2_pos_bounds mx) as [_ Hhi].
        assert (2 ^ Zpos (digits2_pos mx) <= 2 ^ 53) by (apply Z.pow_le_mono_r; lia).
        destruct (Z_le_gt_dec ex (-44)) as [Hle|Hgt].
        - assert (Hle' : r <= X) by (apply Z.mod_le; lia).
          unfold X in Hle'. replace (ex - e) with 0 in Hle' by (unfold e; lia).
          simpl in Hle'. lia.
        - unfold Y in Hmod. replace (-44 - e) with 0 in Hmod by (unfold e; lia).
          simpl in Hmod. lia. }
      assert (H9 : (IZR r * pow2 e < pow2 9)%R).
      { rewrite (pow2_IZR 9) by lia. change (2 ^ 9) with 512. lra. }
      destruct (ldexp_of_Z_exact r e ltac:(lia) ltac:(lia) H9) as [F V].
      destruct sx.
      * destruct (Fin_opp _ F) as [F' V']. split; [exact F'|]. rewrite V', V.
        split; [rewrite Rabs_Ropp, Rabs_pos_eq; lra|].
        exists (- (X / Y)). rewrite Hvx, opp_IZR. lra.
      * split; [exact F|]. rewrite V.
        split; [rewrite Rabs_pos_eq; lra|]. exists (X / Y). rewrite Hvx. lra.
Qed.

(** [x % 360] on a finite float: a finite float within [0, 360] - 360.0
    itself can come out of the rounding of [m + 360.0] - that differs from
    [x] by a multiple of 360, up to that rounding. *)
Lemma float_rem_360 (x : float) :
  Fin x ->
  exists t, float_rem x 360 = Ok t /\ Fin t /\ (0 <= val t <= 360)%R
            /\ exists q : Z, (Rabs (val t - (val x - 360 * IZR q)) <= pow2 (-30))%R.
Proof.
  intros Fx. pose proof pow2_m30_small as [A0 A1].
  destruct val_0 as [F0 V0]. destruct val_360 as [F360 V360].
  destruct (fmod_360 x Fx) as (Fm & Bm & q & Eq).
  unfold float_rem. change (360 =? 0)%float with false.
  change (get_sign 360) with false. change (360 <? 0)%float with false. cbn [xorb].
  destruct (fmod x 360 =? 0)%float eqn:Ez.
  - exists zero. destruct (val_of_zero zero false eq_refl) as [F V].
    split; [reflexivity|]. split; [exact F|]. rewrite V. split; [lra|].
    exists q. apply (eqb_true_val _ _ Fm F0) in Ez. rewrite V0 in Ez.
    rewrite <- Eq, Ez, Rminus_diag, Rabs_R0. lra.
  - destruct (fmod x 360 <? 0)%float eqn:Elt.
    + pose proof (ltb_true _ _ Fm F0 Elt) as Hneg. rewrite V0 in Hneg.
      assert (Hlow : (- 360 < val (fmod x 360))%R).
      { unfold Rabs in Bm. destruct (Rcase_abs (val (fmod x 360))); lra. }
      destruct grid_360 as [G E360].
      destruct (add_grid (fmod x 360) 360 _ _ Fm F360 G) as [Ft Bt].
      { rewrite V360, pow2_21_val. apply Rabs_bound_lt. lra. }
      { rewrite V360, E360. lra. }
      destruct (add_small (fmod x 360) 360 Fm F360) as [_ Et].
      { rewrite V360, pow2_21_val. apply Rabs_bound_lt. lra. }
      exists (fmod x 360 + 360)%float. split; [reflexivity|]. split; [exact Ft|].
      rewrite E360 in Bt. split; [exact Bt|].
      exists (q - 1). rewrite V360 in Et. rewrite minus_IZR.
      replace (val (fmod x 360 + 360) - (val x - 360 * (IZR q - 1)))%R
        with (val (fmod x 360 + 360) - (val (fmod x 360) + 360))%R by (rewrite Eq; ring).
      exact Et.
    + pose proof (ltb_false _ _ Fm F0 Elt) as Hpos. rewrite V0 in Hpos.
      exists (fmod x 360). split; [reflexivity|]. split; [exact Fm|].
      assert (val (fmod x 360) < 360)%R.
      { unfold Rabs in Bm. destruct (Rcase_abs (val (fmod x 360))); lra. }
      split; [lra|]. exists q. rewrite <- Eq, Rminus_diag, Rabs_R0. lra.
Qed.

(** ** Floats against integers: comparison, clamp, sums and wrapped hues *)

Lemma cmp_float_int_spec (y : float) (z : Z) :
  Fin y -> cmp_holds (cmp_float_int y z) (val y) (IZR z).
Proof.
  unfold Fin, val, cmp_float_int.
  destruct (Prim2SF y) as [s|s| |s m e]; try discriminate; intros _.
  - replace (SFval (S754_zero s)) with 0%R by (unfold SFval; destruct s; simpl; lra).
    destruct (Z.compare_spec 0 z) as [H|H|H]; simpl.
    + now rewrite <- H.
    + now apply IZR_lt.
    + now apply IZR_lt.
  - set (v := if s then Z.neg m else Z.pos m).
    assert (Hv : SFval (S754_finite s m e) = (IZR v * pow2 e)%R).
    { unfold SFval, v. destruct s; cbn [SFsign SFabsval].
      - change (Z.neg m) with (- Z.pos m). rewrite opp_IZR. ring.
      - reflexivity. }
    rewrite Hv. pose proof (pow2_pos e) as Pe.
    destruct (Z.leb_spec 0 e) as [He|He].
    + rewrite (pow2_IZR e He), <- mult_IZR.
      destruct (Z.compare_spec (v * 2 ^ e) z) as [H|H|H]; simpl.
      * now rewrite H.
      * now apply IZR_lt.
      * now apply IZR_lt.
    + assert (Hz : (IZR (z * 2 ^ (- e)) * pow2 e = IZR z)%R).
      { rewrite mult_IZR, <- pow2_IZR by lia. rewrite Rmult_assoc, <- pow2_add.
        replace (- e + e) with 0 by lia. change (pow2 0) with 1%R. ring. }
      destruct (Z.compare_spec v (z * 2 ^ (- e))) as [H|H|H]; simpl.
      * rewrite H. exact Hz.
      * rewrite <- Hz. apply Rmult_lt_compat_r; [exact Pe|now apply IZR_lt].
      * rewrite <- Hz. apply Rmult_lt_compat_r; [exact Pe|now apply IZR_lt].
Qed.

(** [max(0, min(100, x))] on a finite float: the int 0 up to zero, the
    float itself strictly between 0 and 100, the int 100 from 100 on. *)
Lemma clamp_Flt (x : float) :
  Fin x ->
  ((val x <= 0)%R -> clamp (Flt x) = Int 0)
  /\ ((0 < val x < 100)%R -> clamp (Flt x) = Flt x)
  /\ ((100 <= val x)%R -> clamp (Flt x) = Int 100).
Proof.
  intros Fx.
  pose proof (cmp_float_int_spec x 100 Fx) as C100.
  pose proof (cmp_float_int_spec x 0 Fx) as C0.
  unfold clamp, max2, min2, gt, lt.
  destruct (cmp_float_int x 100) as [[]|]; destruct (cmp_float_int x 0) as [[]|];
    simpl in C100, C0; try contradiction;
    (split; [|split]); intros H; try reflexivity; lra.
Qed.

Lemma clamp_not_finite :
  clamp (Flt nan) = Int 100 /\ clamp (Flt infinity) = Int 100
  /\ clamp (Flt neg_infinity) = Int 0.
Proof. repeat split; vm_compute; reflexivity. Qed.

(** [x + d] for a float [x] and an int [d] is the float sum of [x] and
    [float(d)]; with both below a million in magnitude it is finite and
    within [2^-30] of the real sum. *)
Lemma float_plus_int (ff : float -> float -> float) (fz : Z -> Z -> Z) (x : float) (d : Z) :
  arith fz ff (Flt x) (Int d) = (f <- int_to_float d ;; Ok (Flt (ff x f))).
Proof. reflexivity. Qed.

Lemma int_to_float_million (d : Z) :
  Z.abs d <= 1000000 ->
  exists f, int_to_float d = Ok f /\ Fin f /\ val f = IZR d /\ (Rabs (val f) <= 1000000)%R.
Proof.
  intros Hd. destruct (int_to_float_exact d) as (f & E & F & V).
  { assert (1000000 < 2 ^ 53) by reflexivity. lia. }
  exists f. repeat split; try assumption. rewrite V, <- abs_IZR. now apply IZR_le.
Qed.

Lemma add_million (x : float) (d : Z) :
  Fin x -> (Rabs (val x) <= 1000000)%R -> Z.abs d <= 1000000 ->
  exists f, int_to_float d = Ok f /\ Fin (x + f)
            /\ (Rabs (val (x + f) - (val x + IZR d)) <= pow2 (-30))%R.
Proof.
  intros Fx Bx Hd. destruct (int_to_float_million d Hd) as (f & E & F & V & B).
  exists f. split; [exact E|]. rewrite <- V. apply add_small; try assumption.
  rewrite pow2_21_val. eapply Rle_lt_trans; [apply Rabs_triang|]. lra.
Qed.

Lemma sub_million (x : float) (d : Z) :
  Fin x -> (Rabs (val x) <= 1000000)%R -> Z.abs d <= 1000000 ->
  exists f, int_to_float d = Ok f /\ Fin (x - f)
            /\ (Rabs (val (x - f) - (val x - IZR d)) <= pow2 (-30))%R.
Proof.
  intros Fx Bx Hd. destruct (int_to_float_million d Hd) as (f & E & F & V & B).
  exists f. split; [exact E|]. rewrite <- V. apply sub_small; try assumption.
  rewrite pow2_21_val. unfold Rminus. eapply Rle_lt_trans; [apply Rabs_triang|].
  rewrite Rabs_Ropp. lra.
Qed.

(** [x % 360] on a float. *)
Lemma rem_Flt_360 (x : float) :
  rem (Flt x) (Int 360) = (t <- float_rem x 360 ;; Ok (Flt t)).
Proof. reflexivity. Qed.

Lemma rem_360_float (x : float) :
  exists a, rem (Flt x) (Int 360) = Ok (Flt a)
    /\ (Fin x -> Fin a /\ (0 <= val a <= 360)%R
                 /\ exists q : Z, (Rabs (val a - (val x - 360 * IZR q)) <= pow2 (-30))%R).
Proof.
  rewrite rem_Flt_360.
  destruct (SFfin (Prim2SF x)) eqn:Fx.
  - destruct (float_rem_360 x Fx) as (t & -> & H). exists t. split; [reflexivity|].
    intros _. exact H.
  - assert (E : float_rem x 360 = Ok nan).
    { unfold float_rem. change (360 =? 0)%float with false. cbv iota.
      assert (M : fmod x 360 = nan).
      { unfold fmod. destruct (Prim2SF x); try discriminate; reflexivity. }
      rewrite M. reflexivity. }
    rewrite E. exists nan. split; [reflexivity|]. unfold Fin. rewrite Fx. discriminate.
Qed.

Lemma wrap_plus_Flt (h : float) (k : Z) (f : float) :
  int_to_float k = Ok f ->
  exists a, wrap_plus (Flt h) k = Ok (Flt a)
    /\ (Fin (h + f) -> Fin a /\ (0 <= val a <= 360)%R
          /\ exists q : Z, (Rabs (val a - (val (h + f) - 360 * IZR q)) <= pow2 (-30))%R).
Proof.
  intros E. unfold wrap_plus, add. rewrite float_plus_int, E. cbn [bind].
  apply rem_360_float.
Qed.

Lemma wrap_minus_Flt (h : float) (k : Z) (f : float) :
  int_to_float k = Ok f ->
  exists a, wrap_minus (Flt h) k = Ok (Flt a)
    /\ (Fin (h - f) -> Fin a /\ (0 <= val a <= 360)%R
          /\ exists q : Z, (Rabs (val a - (val (h - f) - 360 * IZR q)) <= pow2 (-30))%R).
Proof.
  intros E. unfold wrap_minus, sub. rewrite float_plus_int, E. cbn [bind].
  apply rem_360_float.
Qed.

Lemma pow2_m29 : pow2 (-29) = (pow2 (-30) + pow2 (-30))%R.
Proof. replace (-29) with (1 + -30) by lia. rewrite pow2_add. change (pow2 1) with (2 * 1)%R. ring. Qed.

Lemma Rabs_chain (a b c e : R) :
  (Rabs (a - b) <= e)%R -> (Rabs (b - c) <= e)%R -> (Rabs (a - c) <= e + e)%R.
Proof.
  intros H1 H2. replace (a - c)%R with ((a - b) + (b - c))%R by ring.
  eapply Rle_trans; [apply Rabs_triang|]. lra.
Qed.

(** A finite float hue and an offset, both below a million in magnitude:
    the wrapped hue is a finite float within [0, 360], and it is the real
    [hue + offset] less a multiple of 360, up to [2^-29]. *)
Lemma wrap_plus_float (h : float) (k : Z) :
  Fin h -> (Rabs (val h) <= 1000000)%R -> Z.abs k <= 1000000 ->
  exists a, wrap_plus (Flt h) k = Ok (Flt a) /\ Fin a /\ (0 <= val a <= 360)%R
    /\ exists q : Z, (Rabs (val a - (val h + IZR k - 360 * IZR q)) <= pow2 (-29))%R.
Proof.
  intros Fh Bh Hk. destruct (add_million h k Fh Bh Hk) as (f & E & Fs & Es).
  destruct (wrap_plus_Flt h k f E) as (a & -> & H).
  destruct (H Fs) as (Fa & Ba & q & Eq). exists a. repeat split; try assumption; try apply Ba.
  exists q. rewrite pow2_m29.
  apply Rabs_chain with (val (h + f) - 360 * IZR q)%R; [exact Eq|].
  replace (val (h + f) - 360 * IZR q - (val h + IZR k - 360 * IZR q))%R
    with (val (h + f) - (val h + IZR k))%R by ring.
  exact Es.
Qed.

Lemma wrap_minus_float (h : float) (k : Z) :
  Fin h -> (Rabs (val h) <= 1000000)%R -> Z.abs k <= 1000000 ->
  exists a, wrap_minus (Flt h) k = Ok (Flt a) /\ Fin a /\ (0 <= val a <= 360)%R
    /\ exists q : Z, (Rabs (val a - (val h - IZR k - 360 * IZR q)) <= pow2 (-29))%R.
Proof.
  intros Fh Bh Hk. destruct (sub_million h k Fh Bh Hk) as (f & E & Fs & Es).
  destruct (wrap_minus_Flt h k f E) as (a & -> & H).
  destruct (H Fs) as (Fa & Ba & q & Eq). exists a. repeat split; try assumption; try apply Ba.
  exists q. rewrite pow2_m29.
  apply Rabs_chain with (val (h - f) - 360 * IZR q)%R; [exact Eq|].
  replace (val (h - f) - 360 * IZR q - (val h - IZR k - 360 * IZR q))%R
    with (val (h - f) - (val h - IZR k))%R by ring.
  exact Es.
Qed.

(** ** Adjuster on float components *)

Lemma adjust_hsl_wrap (h s l : num) (hs sa la : Z) :
  adjust_hsl (h, s, l) hs sa la =
  (h' <- wrap_plus h hs ;;
   s0 <- add s (Int sa) ;;
   l0 <- add l (Int la) ;;
   Ok (h', clamp s0, clamp l0)).
Proof.
  unfold adjust_hsl, wrap_plus. destruct (add h (Int hs)); reflexivity.
Qed.

Lemma adjust_hsl_steps (h s l : num) (hs sa la : Z) :
  fits_float hs = true -> fits_float sa = true -> fits_float la = true ->
  exists h0 h' s0 l0,
    add h (Int hs) = Ok h0 /\ rem h0 (Int 360) = Ok h'
    /\ add s (Int sa) = Ok s0 /\ add l (Int la) = Ok l0
    /\ adjust_hsl (h, s, l) hs sa la = Ok (h', clamp s0, clamp l0)
    /\ within_percent (clamp s0) /\ within_percent (clamp l0).
Proof.
  intros Hh Hs Hl. unfold adjust_hsl.
  destruct (add_Int_ok h hs Hh) as [h0 E0]. destruct (rem_360_ok h0) as [h' E1].
  destruct (add_Int_ok s sa Hs) as [s0 E2]. destruct (add_Int_ok l la Hl) as [l0 E3].
  exists h0, h', s0, l0. rewrite E0, E2, E3. cbn [bind]. rewrite E1. cbn [bind].
  repeat split; try reflexivity; apply clamp_within_percent.
Qed.

(** A sum with a component within [0,100]: adding 1000 lands at 100 or
    above, adding -1000 at 0 or below - for an int exactly, for a float
    whatever the rounding. *)
Lemma add_1000_clamp (x : num) :
  within_percent x -> exists y, add x (Int 1000) = Ok y /\ clamp y = Int 100.
Proof.
  destruct x as [z|f]; cbn [within_percent].
  - intros Hz. exists (Int (z + 1000)). split; [reflexivity|]. rewrite clamp_Int. f_equal. lia.
  - intros [Ff Bf]. pose proof pow2_m30_small as [A0 A1].
    destruct (add_million f 1000 Ff) as (g & E & Fs & Es).
    { rewrite Rabs_pos_eq; lra. } { simpl. lia. }
    exists (Flt (f + g)). split.
    + unfold add. rewrite float_plus_int, E. reflexivity.
    + apply (clamp_Flt _ Fs). apply Rabs_bound_inv in Es. lra.
Qed.

Lemma add_m1000_clamp (x : num) :
  within_percent x -> exists y, add x (Int (-1000)) = Ok y /\ clamp y = Int 0.
Proof.
  destruct x as [z|f]; cbn [within_percent].
  - intros Hz. exists (Int (z + -1000)). split; [reflexivity|]. rewrite clamp_Int. f_equal. lia.
  - intros [Ff Bf]. pose proof pow2_m30_small as [A0 A1].
    destruct (add_million f (-1000) Ff) as (g & E & Fs & Es).
    { rewrite Rabs_pos_eq; lra. } { simpl. lia. }
    exists (Flt (f + g)). split.
    + unfold add. rewrite float_plus_int, E. reflexivity.
    + apply (clamp_Flt _ Fs). apply Rabs_bound_inv in Es. lra.
Qed.

Lemma adjust_hsl_hue_float (h : float) (s l : num) (hs sa la : Z) :
  Fin h -> (Rabs (val h) <= 1000000)%R -> Z.abs hs <= 1000000 ->
  fits_float sa = true -> fits_float la = true ->
  exists a s' l',
    adjust_hsl (Flt h, s, l) hs sa la = Ok (Flt a, s', l')
    /\ Fin a /\ (0 <= val a <= 360)%R
    /\ exists q : Z, (Rabs (val a - (val h + IZR hs - 360 * IZR q)) <= pow2 (-29))%R.
Proof.
  intros Fh Bh Hhs Hs Hl. rewrite adjust_hsl_wrap.
  destruct (wrap_plus_float h hs Fh Bh Hhs) as (a & -> & H).
  destruct (add_Int_ok s sa Hs) as [s0 ->]. destruct (add_Int_ok l la Hl) as [l0 ->].
  exists a, (clamp s0), (clamp l0). split; [reflexivity|exact H].
Qed.

Lemma adjust_hsl_hue_sum (h : float) (s l : num) (hs sa la : Z) (f : float) :
  int_to_float hs = Ok f -> fits_float sa = true -> fits_float la = true ->
  exists a s' l',
    adjust_hsl (Flt h, s, l) hs sa la = Ok (Flt a, s', l')
    /\ (Fin (h + f) ->
        Fin a /\ (0 <= val a <= 360)%R
        /\ exists q : Z, (Rabs (val a - (val (h + f) - 360 * IZR q)) <= pow2 (-30))%R).
Proof.
  intros E Hs Hl. rewrite adjust_hsl_wrap.
  destruct (wrap_plus_Flt h hs f E) as (a & -> & H).
  destruct (add_Int_ok s sa Hs) as [s0 ->]. destruct (add_Int_ok l la Hl) as [l0 ->].
  exists a, (clamp s0), (clamp l0). split; [reflexivity|exact H].
Qed.

Lemma pow2_m28 : pow2 (-28) = (pow2 (-29) + pow2 (-29))%R.
Proof. replace (-28) with (1 + -29) by lia. rewrite pow2_add. change (pow2 1) with (2 * 1)%R. ring. Qed.

Lemma adjust_hsl_370_10_float (h : float) (s l : num) (sa la : Z) :
  Fin h -> (Rabs (val h) <= 1000000)%R ->
  fits_float sa = true -> fits_float la = true ->
  exists a b s' l',
    adjust_hsl (Flt h, s, l) 370 sa la = Ok (Flt a, s', l')
    /\ adjust_hsl (Flt h, s, l) 10 sa la = Ok (Flt b, s', l')
    /\ Fin a /\ Fin b /\ (0 <= val a <= 360)%R /\ (0 <= val b <= 360)%R
    /\ exists q : Z, (Rabs (val a - val b - 360 * IZR q) <= pow2 (-28))%R.
Proof.
  intros Fh Bh Hs Hl. rewrite !adjust_hsl_wrap.
  destruct (wrap_plus_float h 370 Fh Bh ltac:(simpl; lia)) as (a & -> & Fa & Ba & qa & Ea).
  destruct (wrap_plus_float h 10 Fh Bh ltac:(simpl; lia)) as (b & -> & Fb & Bb & qb & Eb).
  destruct (add_Int_ok s sa Hs) as [s0 ->]. destruct (add_Int_ok l la Hl) as [l0 ->].
  exists a, b, (clamp s0), (clamp l0). repeat split; try assumption; try apply Ba; try apply Bb.
  exists (1 - qa + qb). rewrite pow2_m28.
  apply Rabs_bound_inv in Ea. apply Rabs_bound_inv in Eb. apply Rabs_le.
  rewrite plus_IZR, minus_IZR. lra.
Qed.

(** C7 (amended). [adjust_hsl] returns a triple whenever the three deltas
    are within the range of a double (on integers always), and the new
    saturation and lightness are [max(0, min(100, sum))] of the sums, within
    [0,100].
    On integers: the new hue is [(hue + hue_shift) mod 360], in [0,360); the
    new saturation and lightness are the sums clamped to [0,100]; a hue
    shift of 370 gives the hue of a shift of 10.
    On floats: a sum is the binary64 sum with the delta, within [2^-30] of
    the real sum when both are below a million in magnitude; the clamp of a
    finite float is the int 0 up to zero, the float itself strictly between
    0 and 100 and the int 100 from 100 on (100 for NaN and +infinity, 0 for
    -infinity); when the binary64 sum of hue and shift is finite, the new
    hue is a finite float within [0, 360] - 360.0 included - that is this
    sum less a multiple of 360, up to [2^-30]; for a finite hue and a shift
    below a million in magnitude it is the real [hue + hue_shift] less a
    multiple of 360, up to [2^-29], and the hues of a shift of 370 and of a
    shift of 10 agree up to [2^-28] and a multiple of 360.
    On a saturation (lightness) within [0,100], integer or float, an
    adjustment of 1000 (-1000) gives the int 100 (0). *)
Theorem adjust_hsl_spec :
  (forall h s l hs sa la : Z,
     adjust_hsl (Int h, Int s, Int l) hs sa la =
       Ok (Int ((h + hs) mod 360),
           Int (Z.max 0 (Z.min 100 (s + sa))),
           Int (Z.max 0 (Z.min 100 (l + la))))
     /\ 0 <= (h + hs) mod 360 < 360
     /\ 0 <= Z.max 0 (Z.min 100 (s + sa)) <= 100
     /\ 0 <= Z.max 0 (Z.min 100 (l + la)) <= 100)
  /\ (forall h s l sa la : Z,
        exists h' s370 l370 s10 l10,
          adjust_hsl (Int h, Int s, Int l) 370 sa la = Ok (h', s370, l370)
          /\ adjust_hsl (Int h, Int s, Int l) 10 sa la = Ok (h', s10, l10))
  /\ (forall h s l hs la : Z, 0 <= s <= 100 ->
        exists h' l', adjust_hsl (Int h, Int s, Int l) hs 1000 la = Ok (h', Int 100, l'))
  /\ (forall h s l hs sa : Z, 0 <= l <= 100 ->
        exists h' s', adjust_hsl (Int h, Int s, Int l) hs sa (-1000) = Ok (h', s', Int 0))
  /\ (forall (c : hsl) (hs sa la : Z),
        fits_float hs = true -> fits_float sa = true -> fits_float la = true ->
        exists c', adjust_hsl c hs sa la = Ok c')
  /\ (forall (h s l : num) (hs sa la : Z),
        fits_float hs = true -> fits_float sa = true -> fits_float la = true ->
        exists h0 h' s0 l0,
          add h (Int hs) = Ok h0 /\ rem h0 (Int 360) = Ok h'
          /\ add s (Int sa) = Ok s0 /\ add l (Int la) = Ok l0
          /\ adjust_hsl (h, s, l) hs sa la = Ok (h', clamp s0, clamp l0)
          /\ within_percent (clamp s0) /\ within_percent (clamp l0))
  /\ (forall (x : float) (d : Z) (f : float),
        int_to_float d = Ok f -> add (Flt x) (Int d) = Ok (Flt (x + f)))
  /\ (forall (x : float) (d : Z),
        Fin x -> (Rabs (val x) <= 1000000)%R -> Z.abs d <= 1000000 ->
        exists f, int_to_float d = Ok f /\ Fin (x + f)
                  /\ (Rabs (val (x + f) - (val x + IZR d)) <= pow2 (-30))%R)
  /\ (forall x : float, Fin x ->
        ((val x <= 0)%R -> clamp (Flt x) = Int 0)
        /\ ((0 < val x < 100)%R -> clamp (Flt x) = Flt x)
        /\ ((100 <= val x)%R -> clamp (Flt x) = Int 100))
  /\ (clamp (Flt nan) = Int 100 /\ clamp (Flt infinity) = Int 100
      /\ clamp (Flt neg_infinity) = Int 0)
  /\ (forall (h : float) (s l : num) (hs sa la : Z) (f : float),
        int_to_float hs = Ok f -> fits_float sa = true -> fits_float la = true ->
        exists a s' l',
          adjust_hsl (Flt h, s, l) hs sa la = Ok (Flt a, s', l')
          /\ (Fin (h + f) ->
              Fin a /\ (0 <= val a <= 360)%R
              /\ exists q : Z,
                   (Rabs (val a - (val (h + f) - 360 * IZR q)) <= pow2 (-30))%R))
  /\ (forall (h : float) (s l : num) (hs sa la : Z),
        Fin h -> (Rabs (val h) <= 1000000)%R -> Z.abs hs <= 1000000 ->
        fits_float sa = true -> fits_float la = true ->
        exists a s' l',
          adjust_hsl (Flt h, s, l) hs sa la = Ok (Flt a, s', l')
          /\ Fin a /\ (0 <= val a <= 360)%R
          /\ exists q : Z,
               (Rabs (val a - (val h + IZR hs - 360 * IZR q)) <= pow2 (-29))%R)
  /\ (forall (h : float) (s l : num) (sa la : Z),
        Fin h -> (Rabs (val h) <= 1000000)%R ->
        fits_float sa = true -> fits_float la = true ->
        exists a b s' l',
          adjust_hsl (Flt h, s, l) 370 sa la = Ok (Flt a, s', l')
          /\ adjust_hsl (Flt h, s, l) 10 sa la = Ok (Flt b, s', l')
          /\ Fin a /\ Fin b /\ (0 <= val a <= 360)%R /\ (0 <= val b <= 360)%R
          /\ exists q : Z, (Rabs (val a - val b - 360 * IZR q) <= pow2 (-28))%R)
  /\ (forall (h s l : num) (hs la : Z),
        within_percent s -> fits_float hs = true -> fits_float la = true ->
        exists h' l', adjust_hsl (h, s, l) hs 1000 la = Ok (h', Int 100, l'))
  /\ (forall (h s l : num) (hs sa : Z),
        within_percent l -> fits_float hs = true -> fits_float sa = true ->
        exists h' s', adjust_hsl (h, s, l) hs sa (-1000) = Ok (h', s', Int 0)).
Proof.
  repeat match goal with |- _ /\ _ => split end.
  - intros. split; [apply adjust_hsl_Int|].
    split; [apply Z.mod_pos_bound; lia|]. lia.
  - intros. rewrite !adjust_hsl_Int.
    replace ((h + 370) mod 360) with ((h + 10) mod 360).
    + eexists _, _, _, _, _. split; reflexivity.
    + replace (h + 370) with (h + 10 + 1 * 360) by lia. now rewrite Z.mod_add.
  - intros h s l hs la Hs. rewrite adjust_hsl_Int.
    replace (Z.max 0 (Z.min 100 (s + 1000))) with 100 by lia.
    eexists _, _. reflexivity.
  - intros h s l hs sa Hl. rewrite adjust_hsl_Int.
    replace (Z.max 0 (Z.min 100 (l + -1000))) with 0 by lia.
    eexists _, _. reflexivity.
  - exact adjust_hsl_ok.
  - exact adjust_hsl_steps.
  - intros x d f E. unfold add. rewrite float_plus_int, E. reflexivity.
  - exact add_million.
  - exact clamp_Flt.
  - apply clamp_not_finite.
  - apply clamp_not_finite.
  - apply clamp_not_finite.
  - exact adjust_hsl_hue_sum.
  - exact adjust_hsl_hue_float.
  - exact adjust_hsl_370_10_float.
  - intros h s l hs la Ws Hh Hl. rewrite adjust_hsl_wrap.
    destruct (wrap_plus_ok h hs Hh) as [h' ->].
    destruct (add_1000_clamp s Ws) as (s0 & -> & E).
    destruct (add_Int_ok l la Hl) as [l0 ->].
    cbn [bind]. rewrite E. eexists _, _. reflexivity.
  - intros h s l hs sa Wl Hh Hs. rewrite adjust_hsl_wrap.
    destruct (wrap_plus_ok h hs Hh) as [h' ->].
    destruct (add_Int_ok s sa Hs) as [s0 ->].
    destruct (add_m1000_clamp l Wl) as (l0 & -> & E).
    cbn [bind]. rewrite E. eexists _, _. reflexivity.
Qed.

Lemma adjust_hsl_spec_witness :
  (exists h' l', adjust_hsl (Int 217, Int 89, Int 61) 0 1000 0 = Ok (h', Int 100, l'))
  /\ (exists h' s', adjust_hsl (Int 217, Int 89, Int 61) 0 0 (-1000) = Ok (h', s', Int 0))
  /\ (exists c', adjust_hsl (Flt 217, Flt 89, Flt 61) 370 1000 (-1000) = Ok c')
  /\ (exists h0 h' s0 l0,
        add (Flt 100) (Int 370) = Ok h0 /\ rem h0 (Int 360) = Ok h'
        /\ add (Int 50) (Int 10) = Ok s0 /\ add (Flt 100) (Int (-10)) = Ok l0
        /\ adjust_hsl (Flt 100, Int 50, Flt 100) 370 10 (-10) = Ok (h', clamp s0, clamp l0)
        /\ within_percent (clamp s0) /\ within_percent (clamp l0))
  /\ add (Flt 100) (Int 10) = Ok (Flt (100 + 10))
  /\ (exists f, int_to_float 10 = Ok f /\ Fin (100 + f)
                /\ (Rabs (val (100 + f) - (val 100 + IZR 10)) <= pow2 (-30))%R)
  /\ clamp (Flt 100) = Int 100
  /\ (exists a s' l',
        adjust_hsl (Flt 100, Flt 100, Flt 100) 370 0 0 = Ok (Flt a, s', l')
        /\ Fin a /\ (0 <= val a <= 360)%R
        /\ exists q : Z, (Rabs (val a - (val (100 + 370) - 360 * IZR q)) <= pow2 (-30))%R)
  /\ (exists a s' l',
        adjust_hsl (Flt 100, Flt 100, Flt 100) 370 0 0 = Ok (Flt a, s', l')
        /\ Fin a /\ (0 <= val a <= 360)%R
        /\ exists q : Z, (Rabs (val a - (val 100 + IZR 370 - 360 * IZR q)) <= pow2 (-29))%R)
  /\ (exists a b s' l',
        adjust_hsl (Flt 100, Flt 100, Flt 100) 370 0 0 = Ok (Flt a, s', l')
        /\ adjust_hsl (Flt 100, Flt 100, Flt 100) 10 0 0 = Ok (Flt b, s', l')
        /\ Fin a /\ Fin b /\ (0 <= val a <= 360)%R /\ (0 <= val b <= 360)%R
        /\ exists q : Z, (Rabs (val a - val b - 360 * IZR q) <= pow2 (-28))%R)
  /\ (exists h' l', adjust_hsl (Flt 100, Flt 100, Flt 100) 370 1000 0 = Ok (h', Int 100, l'))
  /\ (exists h' s', adjust_hsl (Flt 100, Flt 100, Flt 100) 370 0 (-1000) = Ok (h', s', Int 0)).
Proof.
  destruct adjust_hsl_spec
    as (_ & _ & Hsat & Hlight & Htotal & Hsteps & Hadd & Hsum & Hclamp & _ & Hhue_sum
        & Hhue & Hwrap & Hs & Hl).
  destruct val_100 as [F V].
  assert (W : within_percent (Flt 100)) by (split; [exact F|rewrite V; lra]).
  assert (B : (Rabs (val 100) <= 1000000)%R) by (rewrite V, Rabs_pos_eq; lra).
  split; [apply Hsat; lia|].
  split; [apply Hlight; lia|].
  split; [apply Htotal; reflexivity|].
  split; [apply Hsteps; reflexivity|].
  split; [apply Hadd; reflexivity|].
  split; [apply Hsum; [exact F|exact B|simpl; lia]|].
  split; [apply (Hclamp 100%float F); rewrite V; lra|].
  split.
  { destruct (Hhue_sum 100%float (Flt 100) (Flt 100) 370 0 0 370%float
                eq_refl eq_refl eq_refl) as (a & s' & l' & E & H).
    exists a, s', l'. split; [exact E|]. apply H. reflexivity. }
  split; [apply Hhue; [exact F|exact B|simpl; lia|reflexivity|reflexivity]|].
  split; [apply Hwrap; [exact F|exact B|reflexivity|reflexivity]|].
  split; [apply Hs; [exact W|reflexivity|reflexivity]|].
  apply Hl; [exact W|reflexivity|reflexivity].
Defined.

(** ** HarmonyGenerator on float hues *)

Lemma wrap_plus_wrapped (h : float) (k : Z) :
  Fin h -> (Rabs (val h) <= 1000000)%R -> Z.abs k <= 1000000 ->
  exists c, wrap_plus (Flt h) k = Ok c /\ wrapped_hue h k c.
Proof.
  intros Fh Bh Hk. destruct (wrap_plus_float h k Fh Bh Hk) as (a & E & H).
  exists (Flt a). split; [exact E|]. exists a. split; [reflexivity|exact H].
Qed.

Lemma wrap_minus_wrapped (h : float) (k : Z) :
  Fin h -> (Rabs (val h) <= 1000000)%R -> Z.abs k <= 1000000 ->
  exists c, wrap_minus (Flt h) k = Ok c /\ wrapped_hue h (- k) c.
Proof.
  intros Fh Bh Hk. destruct (wrap_minus_float h k Fh Bh Hk) as (a & E & Fa & Ba & q & Eq).
  exists (Flt a). split; [exact E|]. exists a. repeat split; try assumption; try apply Ba.
  exists q. rewrite opp_IZR. exact Eq.
Qed.

Lemma harmony_float_hues (h : float) (s l : num) (harmony_type : string) (cs : list hsl) :
  Fin h -> (Rabs (val h) <= 1000000)%R ->
  generate_harmony_colors (Flt h, s, l) harmony_type = Ok cs ->
  exists hues offsets,
    cs = (Flt h, s, l) :: map (fun x => (x, s, l)) hues
    /\ Forall2 (wrapped_hue h) offsets hues
    /\ (harmony_type = "1" /\ offsets = [180]
        \/ harmony_type = "2" /\ offsets = [30; -30]
        \/ harmony_type = "3" /\ offsets = [120; -120]
        \/ harmony_type = "4" /\ offsets = [90; 180; 270]).
Proof.
  intros Fh Bh. rewrite generate_harmony_colors_hues. unfold scheme_hues.
  destruct (wrap_plus_wrapped h 180 Fh Bh ltac:(simpl; lia)) as (c180 & -> & W180).
  destruct (wrap_plus_wrapped h 30 Fh Bh ltac:(simpl; lia)) as (a30 & -> & W30).
  destruct (wrap_minus_wrapped h 30 Fh Bh ltac:(simpl; lia)) as (a330 & -> & W330).
  destruct (wrap_plus_wrapped h 120 Fh Bh ltac:(simpl; lia)) as (t120 & -> & W120).
  destruct (wrap_minus_wrapped h 120 Fh Bh ltac:(simpl; lia)) as (t240 & -> & W240).
  destruct (wrap_plus_wrapped h 90 Fh Bh ltac:(simpl; lia)) as (q90 & -> & W90).
  destruct (wrap_plus_wrapped h 270 Fh Bh ltac:(simpl; lia)) as (q270 & -> & W270).
  cbn [bind map].
  destruct (String.eqb harmony_type "1") eqn:K1.
  { apply String.eqb_eq in K1. intros [= <-]. exists [c180], [180].
    split; [reflexivity|]. split; [repeat constructor; assumption|]. now left. }
  destruct (String.eqb harmony_type "2") eqn:K2.
  { apply String.eqb_eq in K2. intros [= <-]. exists [a30; a330], [30; -30].
    split; [reflexivity|]. split; [repeat constructor; assumption|]. right. now left. }
  destruct (String.eqb harmony_type "3") eqn:K3.
  { apply String.eqb_eq in K3. intros [= <-]. exists [t120; t240], [120; -120].
    split; [reflexivity|]. split; [repeat constructor; assumption|]. right. right. now left. }
  destruct (String.eqb harmony_type "4") eqn:K4.
  { apply String.eqb_eq in K4. intros [= <-]. exists [q90; c180; q270], [90; 180; 270].
    split; [reflexivity|]. split; [repeat constructor; assumption|]. right. right. now right. }
  discriminate.
Qed.

(** C6 (amended). For every base colour the generator returns the base
    colour itself followed by one colour per further offset of the scheme -
    Complementary +180, Analogous +30 and -30, Triadic +120 and -120,
    Tetradic +90, +180 and +270 - each with the hue [(base + offset) % 360]
    and the base colour's saturation and lightness, and it never fails on
    these four schemes. For an integer base hue the wrapped hues are
    [(base + offset) mod 360], in [0,360), and the base hue is its own
    wrap when it lies in [0,360); [generate(200, Triadic)] is
    [(200, 320, 80)].
    For a float base hue every wrapped hue is a float: when the binary64
    sum (difference) of the base hue and the offset is finite, it is a
    finite float within [0, 360] - 360.0 included - that is this sum less a
    multiple of 360, up to [2^-30]; for a finite base hue below a million
    in magnitude it is the real [base + offset] less a multiple of 360, up
    to [2^-29], so the colours that follow such a base colour have, offset
    by offset, a hue of this kind. *)
Theorem generate_harmony_colors_spec :
  (forall h s l : num,
     (exists a, wrap_plus h 180 = Ok a
        /\ generate_harmony_colors (h, s, l) "1" = Ok [(h, s, l); (a, s, l)])
     /\ (exists a b, wrap_plus h 30 = Ok a /\ wrap_minus h 30 = Ok b
           /\ generate_harmony_colors (h, s, l) "2" = Ok [(h, s, l); (a, s, l); (b, s, l)])
     /\ (exists a b, wrap_plus h 120 = Ok a /\ wrap_minus h 120 = Ok b
           /\ generate_harmony_colors (h, s, l) "3" = Ok [(h, s, l); (a, s, l); (b, s, l)])
     /\ (exists a b c, wrap_plus h 90 = Ok a /\ wrap_plus h 180 = Ok b
           /\ wrap_plus h 270 = Ok c
           /\ generate_harmony_colors (h, s, l) "4" =
                Ok [(h, s, l); (a, s, l); (b, s, l); (c, s, l)]))
  /\ (forall h k : Z,
        wrap_plus (Int h) k = Ok (Int ((h + k) mod 360))
        /\ wrap_minus (Int h) k = Ok (Int ((h - k) mod 360))
        /\ 0 <= (h + k) mod 360 < 360 /\ 0 <= (h - k) mod 360 < 360)
  /\ (forall h : Z, 0 <= h < 360 -> wrap_plus (Int h) 0 = Ok (Int h))
  /\ (forall s l : num,
        generate_harmony_colors (Int 200, s, l) "3" =
          Ok [(Int 200, s, l); (Int 320, s, l); (Int 80, s, l)]
        /\ generate_harmony_colors (Flt 200, s, l) "3" =
          Ok [(Flt 200, s, l); (Flt 320, s, l); (Flt 80, s, l)])
  /\ (forall (h : float) (k : Z) (f : float),
        int_to_float k = Ok f ->
        (exists a, wrap_plus (Flt h) k = Ok (Flt a)
           /\ (Fin (h + f) ->
               Fin a /\ (0 <= val a <= 360)%R
               /\ exists q : Z,
                    (Rabs (val a - (val (h + f) - 360 * IZR q)) <= pow2 (-30))%R))
        /\ (exists a, wrap_minus (Flt h) k = Ok (Flt a)
              /\ (Fin (h - f) ->
                  Fin a /\ (0 <= val a <= 360)%R
                  /\ exists q : Z,
                       (Rabs (val a - (val (h - f) - 360 * IZR q)) <= pow2 (-30))%R)))
  /\ (forall (h : float) (k : Z),
        Fin h -> (Rabs (val h) <= 1000000)%R -> Z.abs k <= 1000000 ->
        (exists a, wrap_plus (Flt h) k = Ok (Flt a)
           /\ Fin a /\ (0 <= val a <= 360)%R
           /\ exists q : Z,
                (Rabs (val a - (val h + IZR k - 360 * IZR q)) <= pow2 (-29))%R)
        /\ (exists a, wrap_minus (Flt h) k = Ok (Flt a)
              /\ Fin a /\ (0 <= val a <= 360)%R
              /\ exists q : Z,
                   (Rabs (val a - (val h - IZR k - 360 * IZR q)) <= pow2 (-29))%R))
  /\ (forall (h : float) (s l : num) (harmony_type : string) (cs : list hsl),
        Fin h -> (Rabs (val h) <= 1000000)%R ->
        generate_harmony_colors (Flt h, s, l) harmony_type = Ok cs ->
        exists hues offsets,
          cs = (Flt h, s, l) :: map (fun x => (x, s, l)) hues
          /\ Forall2 (wrapped_hue h) offsets hues
          /\ (harmony_type = "1" /\ offsets = [180]
              \/ harmony_type = "2" /\ offsets = [30; -30]
              \/ harmony_type = "3" /\ offsets = [120; -120]
              \/ harmony_type = "4" /\ offsets = [90; 180; 270])).
Proof.
  split; [exact harmony_any|]. split; [|split; [|split; [|split; [|split]]]].
  - intros h k. repeat split; try reflexivity; apply Z.mod_pos_bound; lia.
  - intros h Hh. rewrite wrap_plus_Int. rewrite Z.add_0_r, Z.mod_small by lia. reflexivity.
  - intros s l. split; reflexivity.
  - intros h k f E. split; [exact (wrap_plus_Flt h k f E)|exact (wrap_minus_Flt h k f E)].
  - intros h k Fh Bh Hk.
    split; [exact (wrap_plus_float h k Fh Bh Hk)|exact (wrap_minus_float h k Fh Bh Hk)].
  - exact harmony_float_hues.
Qed.

Lemma generate_harmony_colors_spec_witness :
  wrap_plus (Int 200) 0 = Ok (Int 200)
  /\ generate_harmony_colors (Int 200, Int 100, Int 50) "3" =
       Ok [(Int 200, Int 100, Int 50); (Int 320, Int 100, Int 50); (Int 80, Int 100, Int 50)]
  /\ (exists a, wrap_plus (Flt 100) 270 = Ok (Flt a)
        /\ Fin a /\ (0 <= val a <= 360)%R
        /\ exists q : Z,
             (Rabs (val a - (val (100 + 270) - 360 * IZR q)) <= pow2 (-30))%R)
  /\ (exists a, wrap_minus (Flt 100) 120 = Ok (Flt a)
        /\ Fin a /\ (0 <= val a <= 360)%R
        /\ exists q : Z,
             (Rabs (val a - (val (100 - 120) - 360 * IZR q)) <= pow2 (-30))%R)
  /\ (exists a, wrap_plus (Flt 100) 270 = Ok (Flt a)
        /\ Fin a /\ (0 <= val a <= 360)%R
        /\ exists q : Z,
             (Rabs (val a - (val 100 + IZR 270 - 360 * IZR q)) <= pow2 (-29))%R)
  /\ (exists a, wrap_minus (Flt 100) 120 = Ok (Flt a)
        /\ Fin a /\ (0 <= val a <= 360)%R
        /\ exists q : Z,
             (Rabs (val a - (val 100 - IZR 120 - 360 * IZR q)) <= pow2 (-29))%R)
  /\ (exists hues,
        Forall2 (wrapped_hue 100) [120; -120] hues
        /\ generate_harmony_colors (Flt 100, Int 100, Int 50) "3" =
             Ok ((Flt 100, Int 100, Int 50) :: map (fun x => (x, Int 100, Int 50)) hues)).
Proof.
  destruct generate_harmony_colors_spec as (Hany & _ & Hbase & Hex & Hsum & Hfloat & Hall).
  destruct val_100 as [F V].
  assert (B : (Rabs (val 100) <= 1000000)%R) by (rewrite V, Rabs_pos_eq; lra).
  split; [apply Hbase; lia|].
  split; [apply (Hex (Int 100) (Int 50))|].
  split.
  { destruct (Hsum 100%float 270 270%float eq_refl) as [(a & E & H) _].
    exists a. split; [exact E|]. apply H. reflexivity. }
  split.
  { destruct (Hsum 100%float 120 120%float eq_refl) as [_ (a & E & H)].
    exists a. split; [exact E|]. apply H. reflexivity. }
  split; [apply (Hfloat 100%float 270); [exact F|exact B|simpl; lia]|].
  split; [apply (Hfloat 100%float 120); [exact F|exact B|simpl; lia]|].
  destruct (Hany (Flt 100) (Int 100) (Int 50)) as (_ & _ & (a & b & _ & _ & E) & _).
  destruct (Hall 100%float (Int 100) (Int 50) "3" _ F B E)
    as (hues & offsets & Ecs & Hw & [[K _]|[[K _]|[[_ ->]|[K _]]]]); try discriminate K.
  exists hues. split; [exact Hw|]. rewrite E, Ecs. reflexivity.
Defined.

(** ** The primary role decides between a palette and [KeyError] *)

Lemma hex_colors_items (colors : colors_arg) :
  hex_colors colors = true ->
  all_values (fun s => is_hex_color s = true)
    match colors with Seed c => [("primary", c)] | Roles d => d end.
Proof.
  destruct colors as [c|d]; simpl.
  - intros H k v [[= <- <-]|[]]. exact H.
  - intros H k v Hin. rewrite forallb_forall in H. exact (H (k, v) Hin).
Qed.

Lemma input_hsl_hex_ok (colors : colors_arg) :
  hex_colors colors = true -> exists d, input_hsl colors = Ok d.
Proof.
  intros H. unfold input_hsl.
  exact (dict_comp_ok _ _ _ hex_color_to_hsl (hex_colors_items colors H) []).
Qed.

Lemma derive_roles_no_primary (d : dict hsl) (harmony : string) :
  dict_mem d "primary" = false -> derive_roles d harmony = Ok d.
Proof. intros H. unfold derive_roles. now rewrite H. Qed.

Lemma base_roles_ok (colors : colors_arg) (harmony : string) :
  hex_colors colors = true ->
  (supplies_primary colors = true -> known_scheme harmony = true) ->
  exists d, base_roles colors harmony = Ok d.
Proof.
  intros Hc Hk. unfold base_roles.
  destruct (input_hsl_hex_ok colors Hc) as [d0 E0]. rewrite E0. cbn [bind].
  pose proof (input_hsl_mem_primary colors d0 E0) as Hm.
  destruct (supplies_primary colors).
  - exact (derive_roles_ok d0 harmony (Hk eq_refl)).
  - exists d0. now apply derive_roles_no_primary.
Qed.

(** Everything before the brand group goes through on HexColors. *)
Lemma palette_groups_ok (colors : colors_arg) (mode harmony : string) (hs sa la : Z) :
  hex_colors colors = true ->
  (supplies_primary colors = true -> known_scheme harmony = true) ->
  fits_float hs = true -> fits_float sa = true -> fits_float la = true ->
  exists hsl_colors ramps semantic surface,
    role_colors colors harmony hs sa la = Ok hsl_colors
    /\ dict_comp (fun v => ramp <- shade_ramp v ;; Ok (Shades ramp)) hsl_colors [] = Ok ramps
    /\ palette_groups colors mode harmony hs sa la =
         Ok (hsl_colors,
             dict_set (dict_set ramps "semantic" (Group semantic)) "surface" (Group surface)).
Proof.
  intros Hc Hk Hh Hs Hl.
  destruct (base_roles_ok colors harmony Hc Hk) as [d1 E1].
  destruct (adjust_all_ok d1 hs sa la Hh Hs Hl) as [d E].
  assert (Hroles : role_colors colors harmony hs sa la = Ok d).
  { unfold role_colors. rewrite E1. exact E. }
  destruct (ramps_ok d (adjust_all_renderable _ _ _ _ _ E)) as [ramps Er].
  destruct (semantic_colors_ok hs sa la Hh Hs Hl) as [semantic Esem].
  destruct (surface_colors_ok mode) as [surface Esurf].
  exists d, ramps, semantic, surface. split; [exact Hroles|]. split; [exact Er|].
  unfold palette_groups. rewrite Hroles. cbn [bind]. rewrite Er. cbn [bind].
  rewrite Esem. cbn [bind]. rewrite Esurf. reflexivity.
Qed.

Lemma missing_primary_KeyError (colors : colors_arg) (mode harmony : string) (hs sa la : Z) :
  supplies_primary colors = false -> hex_colors colors = true ->
  fits_float hs = true -> fits_float sa = true -> fits_float la = true ->
  generate_palette colors mode harmony hs sa la = Err (KeyError (StrKey "primary")).
Proof.
  intros Hno Hc Hh Hs Hl. rewrite (missing_primary_raises _ _ _ _ _ _ Hno).
  destruct (palette_groups_ok colors mode harmony hs sa la Hc) as (d & r & se & su & _ & _ & ->);
    try assumption; [|reflexivity].
  rewrite Hno. discriminate.
Qed.

Lemma with_primary_palette (colors : colors_arg) (mode harmony : string) (hs sa la : Z) :
  supplies_primary colors = true -> hex_colors colors = true ->
  known_scheme harmony = true ->
  fits_float hs = true -> fits_float sa = true -> fits_float la = true ->
  exists p, generate_palette colors mode harmony hs sa la = Ok p.
Proof.
  intros Hp Hc Hk Hh Hs Hl.
  destruct (palette_groups_ok colors mode harmony hs sa la Hc (fun _ => Hk) Hh Hs Hl)
    as (d & ramps & semantic & surface & Hroles & Er & Eg).
  destruct (brand_colors_ok d ramps semantic surface) as [brand Eb].
  - exact (role_colors_NoDup _ _ _ _ _ _ Hroles).
  - exact Er.
  - now rewrite (role_colors_mem_primary _ _ _ _ _ _ Hroles).
  - unfold generate_palette. rewrite Eg. cbn [bind]. rewrite Eb. cbn [bind].
    eexists; reflexivity.
Qed.

(** C1 (amended). The missing-primary failure of [generate_palette] is
    the [KeyError('primary')] of the brand group's look-up, and it depends
    on the primary role alone, not on the number of roles.
    When no primary role is given the call never returns a palette - with
    one, two, three or more roles alike: it runs the steps before the brand
    group (which may raise on their own) and then raises
    [KeyError('primary')]; and when the colours given are HexColors and the
    three adjustments are within the range of a double, those steps raise
    nothing, so the call raises exactly [KeyError('primary')].
    When a primary role is given and the scheme is one of the four, it
    raises no [KeyError] at all; and when moreover the colours given are
    HexColors and the three adjustments are within the range of a double,
    it returns a palette. *)
Theorem missing_primary_error (colors : colors_arg) (mode harmony : string) (hs sa la : Z) :
  (supplies_primary colors = false ->
     generate_palette colors mode harmony hs sa la =
       (x <- palette_groups colors mode harmony hs sa la ;;
        Err (KeyError (StrKey "primary")))
     /\ forall p, generate_palette colors mode harmony hs sa la <> Ok p)
  /\ (supplies_primary colors = false -> hex_colors colors = true ->
        fits_float hs = true -> fits_float sa = true -> fits_float la = true ->
        generate_palette colors mode harmony hs sa la = Err (KeyError (StrKey "primary")))
  /\ (supplies_primary colors = true -> known_scheme harmony = true ->
        forall k, generate_palette colors mode harmony hs sa la <> Err (KeyError k))
  /\ (supplies_primary colors = true -> hex_colors colors = true ->
        known_scheme harmony = true ->
        fits_float hs = true -> fits_float sa = true -> fits_float la = true ->
        exists p, generate_palette colors mode harmony hs sa la = Ok p).
Proof.
  split; [|split; [|split]].
  - intros Hno. pose proof (missing_primary_raises colors mode harmony hs sa la Hno) as E.
    split; [exact E|]. intros p. rewrite E.
    destruct (palette_groups colors mode harmony hs sa la); discriminate.
  - apply missing_primary_KeyError.
  - intros Hp Hk k E.
    exact (with_primary_no_KeyError colors mode harmony hs sa la Hp Hk _ E).
  - apply with_primary_palette.
Qed.

Lemma missing_primary_error_witness :
  generate_palette (Roles [("secondary", "#00ff00")]) "light" "1" 0 0 0
    = Err (KeyError (StrKey "primary"))
  /\ generate_palette
       (Roles [("secondary", "#00ff00"); ("tertiary", "#0000ff");
               ("accent", "#ff0000"); ("extra", "#abcdef")])
       "dark" "9" 370 1000 (-1000)
     = Err (KeyError (StrKey "primary"))
  /\ generate_palette (Seed "#4287f5") "light" "1" 0 0 0 <> Err (KeyError (StrKey "primary"))
  /\ (exists p, generate_palette (Seed "#4287f5") "light" "1" 0 0 0 = Ok p)
  /\ (exists p, generate_palette
                  (Roles [("primary", "#4287f5"); ("secondary", "#00ff00");
                          ("tertiary", "#0000ff")])
                  "dark" "3" 370 1000 (-1000) = Ok p).
Proof.
  split; [|split; [|split; [|split]]].
  - destruct (missing_primary_error (Roles [("secondary", "#00ff00")]) "light" "1" 0 0 0)
      as [H _].
    destruct (H eq_refl) as [E _]. rewrite E. vm_compute. reflexivity.
  - apply missing_primary_error; reflexivity.
  - destruct (missing_primary_error (Seed "#4287f5") "light" "1" 0 0 0) as (_ & _ & H & _).
    apply H; reflexivity.
  - apply missing_primary_error; reflexivity.
  - apply missing_primary_error; reflexivity.
Defined.
